(** * Camera-path engine of the 3d-map demo: a shallow embedding

    The development follows the TypeScript sources of the mapbox page:
    the camera projector ([computeCameraPosition]), the two animation
    drivers ([flyInAndRotate], [animatePath]), the geodesy kernel
    ([projectPointToGreatCircle]), the bearing scheduler ([initData]) and
    the zoom/height converter ([MapboxZoomHeightConverter]).

    Numbers.  A JavaScript [number] is modelled as a real number: the
    arithmetic operators are the field operations of [R], [Math.sin],
    [Math.cos], [Math.tan], [Math.sqrt] are the functions of the standard
    library of reals, and the results below are therefore statements about
    the formulas the code evaluates, not about binary64 rounding.  A value
    that may be [undefined] is an [option]; a thrown exception is the
    [Throw] constructor of [result]. *)

From Stdlib Require Import Reals Lra Lia ZArith List Bool.
From Stdlib Require String.
Import ListNotations String.StringSyntax.
Open Scope string_scope.
Open Scope list_scope.
Open Scope R_scope.

(** * Part I: the program *)

(** ** JavaScript operators and [Math] functions on [number] *)

Module JS.

Definition ltb (x y : R) : bool := if Rlt_dec x y then true else false.
Definition leb (x y : R) : bool := if Rle_dec x y then true else false.
Definition gtb (x y : R) : bool := ltb y x.
Definition eqb (x y : R) : bool := if Req_dec_T x y then true else false.

(** [if (x)] on a number: [0] is falsy, every other real is truthy. *)
Definition truthy (x : R) : bool := negb (eqb x 0).

(** [if (v)] on a value that is a number or [undefined]. *)
Definition truthy_opt (v : option R) : bool :=
  match v with
  | Some x => truthy x
  | None => false
  end.

(** Truncation toward zero, as used by the remainder operator. *)
Definition trunc (x : R) : Z :=
  if Rle_dec 0 x then Int_part x else (- Int_part (- x))%Z.

(** [x % y]: the remainder has the sign of the dividend. *)
Definition rem (x y : R) : R := x - y * IZR (trunc (x / y)).

(** [Math.ceil(x)] as an integer. *)
Definition ceil (x : R) : Z := (- Int_part (- x))%Z.

(** [Math.atan2(y, x)]. *)
Definition atan2 (y x : R) : R :=
  if Rlt_dec 0 x then atan (y / x)
  else if Rlt_dec x 0 then
         (if Rle_dec 0 y then atan (y / x) + PI else atan (y / x) - PI)
  else if Rlt_dec 0 y then PI / 2
  else if Rlt_dec y 0 then - (PI / 2)
  else 0.

(** [Math.pow(2, z)] and [Math.log2(x)]. *)
Definition pow2 (z : R) : R := Rpower 2 z.
Definition log2 (x : R) : R := ln x / ln 2.

End JS.

(** ** Values shared by the modules *)

(** [{ lng: number, lat: number }] *)
Record LngLat : Type := mkLngLat { lng : R; lat : R }.

(** A GeoJSON [Position]: the array [[lng, lat]]. *)
Definition Position : Type := (R * R)%type.

(** Outcome of a call that may throw. *)
Inductive result (A : Type) : Type :=
| Ok (a : A)
| Throw (msg : String.string).
Arguments Ok {A} a.
Arguments Throw {A} msg.

Definition bind {A B : Type} (m : result A) (k : A -> result B) : result B :=
  match m with
  | Ok a => k a
  | Throw msg => Throw msg
  end.

Notation "x <- m ;; k" := (bind m (fun x => k))
  (at level 61, m at next level, right associativity).

(** Reading [xs[i]] where the value is used at once as an object or array:
    [undefined] there raises a [TypeError]. *)
Definition at_index {A : Type} (xs : list A) (i : nat) : result A :=
  match nth_error xs i with
  | Some a => Ok a
  | None => Throw "TypeError: undefined value"
  end.

(** [xs[i - 1]] for a JavaScript index [i]: at [i = 0] the index is [-1]
    and the value is [undefined]. *)
Definition at_pred {A : Type} (xs : list A) (i : nat) : result A :=
  match i with
  | O => Throw "TypeError: undefined value"
  | S j => at_index xs j
  end.

(** ** The geometry library (turf)

    The sources call [turf.length], [turf.along], [turf.lineSlice] and
    [turf.simplify]; the library is not part of the repository, so its four
    entry points are the fields of an interface and every definition below
    that calls them is parameterised by an implementation. *)
Class Turf : Type := {
  (** [turf.length(line)], in kilometres *)
  turf_length : list Position -> R;
  (** [turf.along(line, distance).geometry.coordinates] *)
  turf_along : list Position -> R -> Position;
  (** [turf.lineSlice(startPt, stopPt, line)], as its coordinate array *)
  turf_lineSlice : Position -> Position -> list Position -> list Position;
  (** [turf.simplify(line, { tolerance, highQuality: true })], as its
      coordinate array *)
  turf_simplify : list Position -> R -> list Position
}.

(** ** d3-ease *)

(** [d3.easeCubicOut(t)], which d3-ease writes [--t * t * t + 1]. *)
Definition easeCubicOut (t : R) : R := (t - 1) * (t - 1) * (t - 1) + 1.

(** ** projectPointToGreatCircle.ts: geodesy kernel *)

Module GreatCircle.

Definition Vec3 : Type := (R * R * R)%type.

Definition degreesToRadians (degrees : R) : R := degrees * PI / 180.

Definition radiansToDegrees (radians : R) : R := radians * 180 / PI.

Definition latLonToCartesian (lat lon : R) : Vec3 :=
  let latRad := degreesToRadians lat in
  let lonRad := degreesToRadians lon in
  let x := cos latRad * cos lonRad in
  let y := cos latRad * sin lonRad in
  let z := sin latRad in
  (x, y, z).

Definition cartesianToLatLon (x y z : R) : R * R :=
  let latRad := JS.atan2 z (sqrt (x * x + y * y)) in
  let lonRad := JS.atan2 y x in
  (radiansToDegrees latRad, radiansToDegrees lonRad).

(** The normal of the plane through [A] and [B]: [A x B]. *)
Definition cross (A B : Vec3) : Vec3 :=
  let '(a0, a1, a2) := A in
  let '(b0, b1, b2) := B in
  (a1 * b2 - a2 * b1, a2 * b0 - a0 * b2, a0 * b1 - a1 * b0).

Definition dot (u v : Vec3) : R :=
  let '(u0, u1, u2) := u in
  let '(v0, v1, v2) := v in
  u0 * v0 + u1 * v1 + u2 * v2.

(** [|n|^2] for the normal of the great circle through two points given
    by latitude and longitude. *)
Definition nNormSq (latA lonA latB lonB : R) : R :=
  let n := cross (latLonToCartesian latA lonA) (latLonToCartesian latB lonB) in
  dot n n.

(** [C' = C - ((C . n) / |n|^2) * n], then division by its length. *)
Definition CprimeNormalized (A B C : Vec3) : Vec3 :=
  let n := cross A B in
  let dotCN := dot C n in
  let nNormSq := dot n n in
  let '(c0, c1, c2) := C in
  let '(n0, n1, n2) := n in
  let Cprime :=
    (c0 - (dotCN / nNormSq) * n0,
     c1 - (dotCN / nNormSq) * n1,
     c2 - (dotCN / nNormSq) * n2) in
  let '(p0, p1, p2) := Cprime in
  let norm := sqrt (p0 * p0 + p1 * p1 + p2 * p2) in
  (p0 / norm, p1 / norm, p2 / norm).

Definition degenerate_msg : String.string :=
  "Points A and B are coincident or antipodal - great circle is not unique".

(** [projectPointToGreatCircle(latA, lonA, latB, lonB, latC, lonC)],
    returning [[latitude, longitude]]. *)
Definition projectPointToGreatCircle
    (latA lonA latB lonB latC lonC : R) : result (R * R) :=
  let A := latLonToCartesian latA lonA in
  let B := latLonToCartesian latB lonB in
  let C := latLonToCartesian latC lonC in
  let n := cross A B in
  let nNormSq := dot n n in
  if JS.ltb nNormSq 1e-12 then Throw degenerate_msg
  else
    let '(x, y, z) := CprimeNormalized A B C in
    Ok (cartesianToLatLon x y z).

End GreatCircle.

(** ** utils.ts: camera projector and animation drivers *)

Module Utils.

(** [lerp(start, end, amt)] *)
Definition lerp (start end_ amt : R) : R := (1 - amt) * start + amt * end_.

Definition SMOOTH_FACTOR : R := 0.95.

(** The ground position under the camera before any smoothing: the body of
    [computeCameraPosition] up to the construction of [newCameraPosition]. *)
Definition rawCameraPosition
    (pitch bearing : R) (targetPosition : LngLat) (altitude : R) : LngLat :=
  let bearingInRadian := bearing * (PI / 180) in
  let pitchInRadian := (90 - pitch) * (PI / 180) in
  let lngDiff :=
    ((altitude / tan pitchInRadian) * sin (- bearingInRadian))
    / (111320 * cos (lat targetPosition * (PI / 180))) in
  let latDiff :=
    ((altitude / tan pitchInRadian) * cos (- bearingInRadian)) / 111320 in
  let correctedLng := lng targetPosition + lngDiff in
  let correctedLat := lat targetPosition - latDiff in
  {| lng := correctedLng; lat := correctedLat |}.

(** [computeCameraPosition(pitch, bearing, targetPosition, altitude, smooth)].
    The module-level variable [previousCameraPosition] is threaded
    explicitly: [None] is the initial [undefined].  The function returns the
    position together with the new content of the variable. *)
Definition computeCameraPosition
    (pitch bearing : R) (targetPosition : LngLat) (altitude : R)
    (smooth : bool) (previousCameraPosition : option LngLat)
  : LngLat * option LngLat :=
  let newCameraPosition :=
    rawCameraPosition pitch bearing targetPosition altitude in
  let newCameraPosition :=
    if smooth then
      match previousCameraPosition with
      | Some prev =>
          {| lng := lerp (lng newCameraPosition) (lng prev) SMOOTH_FACTOR;
             lat := lerp (lat newCameraPosition) (lat prev) SMOOTH_FACTOR |}
      | None => newCameraPosition
      end
    else newCameraPosition in
  (newCameraPosition, Some newCameraPosition).

(** [getBearing(p1, p2)], the forward azimuth in [[0, 360)]. *)
Definition getBearing (p1 p2 : Position) : R :=
  let rad := PI / 180 in
  let y := sin ((fst p2 - fst p1) * rad) * cos (snd p2 * rad) in
  let x := cos (snd p1 * rad) * sin (snd p2 * rad)
           - sin (snd p1 * rad) * cos (snd p2 * rad)
             * cos ((fst p2 - fst p1) * rad) in
  JS.rem (JS.atan2 y x * (180 / PI) + 360) 360.

(** [normalizeBearing(currentBearing, targetBearing)] *)
Definition normalizeBearing (currentBearing targetBearing : R) : R :=
  let currentBearing := JS.rem (JS.rem currentBearing 360 + 360) 360 in
  let targetBearing := JS.rem (JS.rem targetBearing 360 + 360) 360 in
  let diff1 := JS.rem (targetBearing - currentBearing + 360) 360 in
  let diff2 := diff1 - 360 in
  if JS.leb (Rabs diff1) (Rabs diff2) then diff1 else diff2.

(** [getLineRatio(trackData, point)]: despite its name, a length. *)
Definition getLineRatio {T : Turf} (coordinates : list Position) (point : Position)
  : result R :=
  first <- at_index coordinates 0 ;;
  Ok (turf_length (turf_lineSlice first point coordinates)).

End Utils.

(** ** utils.ts: the fly-in driver [flyInAndRotate] *)

Module FlyIn.

(** The destructured argument of [flyInAndRotate], without the map. *)
Record Config : Type := mkConfig {
  targetLngLat : LngLat;
  duration : R;
  startAltitude : R;
  endAltitude : R;
  startBearing : R;
  endBearing : R;
  startPitch : R;
  endPitch : R
}.

(** What one frame hands to [map.setFreeCameraOptions]. *)
Record Pose : Type := mkPose {
  pose_pitch : R;
  pose_bearing : R;
  pose_position : LngLat;
  pose_altitude : R
}.

(** The value the promise resolves with. *)
Record Final : Type := mkFinal { bearing : R; altitude : R }.

(** The variables a frame reads and writes: the closure variable [start]
    ([None] while [undefined]) and the module-level
    [previousCameraPosition]. *)
Record State : Type := mkState {
  start : option R;
  previousCameraPosition : option LngLat
}.

Definition initial (cache : option LngLat) : State :=
  {| start := None; previousCameraPosition := cache |}.

(** [if (!start) { start = time; }]: [undefined] and [0] are both falsy. *)
Definition startAt (s : option R) (time : R) : R :=
  match s with
  | Some s0 => if JS.truthy s0 then s0 else time
  | None => time
  end.

(** [(time - start) / duration], the elapsed fraction before clamping. *)
Definition elapsedPhase (c : Config) (s : option R) (time : R) : R :=
  (time - startAt s time) / duration c.

(** [animationPhase] after [if (animationPhase > 1) animationPhase = 1]. *)
Definition animationPhase (c : Config) (s : option R) (time : R) : R :=
  let animationPhase := elapsedPhase c s time in
  if JS.gtb animationPhase 1 then 1 else animationPhase.

(** One call of [frame(time)]: the pose applied to the map, the state left
    behind and, when the frame resolves the promise, the resolved value. *)
Definition frame (c : Config) (time : R) (st : State)
  : Pose * State * option Final :=
  let start' := startAt (start st) time in
  let animationPhase := animationPhase c (start st) time in
  let currentAltitude :=
    startAltitude c
    + (endAltitude c - startAltitude c) * easeCubicOut animationPhase in
  let currentBearing :=
    startBearing c
    + (endBearing c - startBearing c) * easeCubicOut animationPhase in
  let currentPitch :=
    startPitch c + (endPitch c - startPitch c) * easeCubicOut animationPhase in
  let '(correctedPosition, cache) :=
    Utils.computeCameraPosition currentPitch currentBearing (targetLngLat c)
      currentAltitude false (previousCameraPosition st) in
  let pose :=
    {| pose_pitch := currentPitch; pose_bearing := currentBearing;
       pose_position := correctedPosition; pose_altitude := currentAltitude |} in
  let st' := {| start := Some start'; previousCameraPosition := cache |} in
  if JS.eqb animationPhase 1
  then (pose, st', Some {| bearing := currentBearing; altitude := currentAltitude |})
  else (pose, st', None).

(** The driver over the timestamps that [requestAnimationFrame] delivers,
    one per scheduled frame: the poses applied, in order, the final state
    and the resolved value ([None] while the promise is pending). *)
Fixpoint run (c : Config) (ticks : list R) (st : State)
  : list Pose * State * option Final :=
  match ticks with
  | [] => ([], st, None)
  | time :: rest =>
      let '(pose, st', fin) := frame c time st in
      match fin with
      | Some f => ([pose], st', Some f)
      | None =>
          let '(poses, st'', r) := run c rest st' in
          (pose :: poses, st'', r)
      end
  end.

End FlyIn.

(** ** utils.ts: the path-follow driver [animatePath] *)

Module PathFollow.

(** An element of [bearingList]. *)
Record BearingInterval : Type := mkInterval {
  l : nat;
  lRatio : R;
  r : nat;
  rRatio : R;
  bearing : R
}.

(** The destructured argument of [animatePath], without the map;
    [coordinates] is [trackData.geometry.coordinates]. *)
Record Config : Type := mkConfig {
  altitude : R;
  pitch : R;
  bearingList : list BearingInterval;
  coordinates : list Position;
  speed : R
}.

(** The closure variables [index] and [nextBearingIndex].  The write to
    [previousCameraPosition] is not threaded through this driver: no call in
    this module passes [smooth], so the variable is never read here. *)
Record State : Type := mkState {
  index : nat;
  nextBearingIndex : nat
}.

Definition initial : State := {| index := 0; nextBearingIndex := 1 |}.

(** What one frame hands to the map: the line-gradient cut-off, the bearing
    (possibly [undefined]), the projected ground point and the corrected
    camera position (its coordinates are [NaN] when the bearing is
    [undefined], rendered as [None]). *)
Record Emission : Type := mkEmission {
  reveal : R;
  emitted_bearing : option R;
  lngLat : LngLat;
  correctedPosition : option LngLat
}.

Inductive Step : Type :=
| Resolved
| Rendered (e : Emission) (st : State)
| Raised (msg : String.string).

Definition ratio : R := 0.2.

(** Start of the trailing ease window of an interval. *)
Definition lRangeRatio (itv : BearingInterval) : R :=
  lRatio itv + (rRatio itv - lRatio itv) * (1 - ratio).

(** The block that enters the next turn: from the current interval, the
    bearing of the next one ([undefined] when there is none) and the phase,
    the new [nextBearingIndex] and the bearing of the frame. *)
Definition turn (itv : BearingInterval) (nextBearing : option R)
    (animationPhase : R) (nextBearingIndex : nat) : nat * option R :=
  let currentBearing := bearing itv in
  let lRangeRatio := lRangeRatio itv in
  if JS.leb (rRatio itv) animationPhase then
    (S nextBearingIndex, nextBearing)
  else
    match nextBearing with
    | Some nb =>
        if JS.truthy nb && JS.ltb animationPhase (rRatio itv)
           && JS.leb lRangeRatio animationPhase
        then
          let normalizedTime :=
            (animationPhase - lRangeRatio) / (rRatio itv - lRangeRatio) in
          let rotation := Utils.normalizeBearing currentBearing nb in
          (nextBearingIndex, Some (currentBearing + rotation * normalizedTime))
        else (nextBearingIndex, Some currentBearing)
    | None => (nextBearingIndex, Some currentBearing)
    end.

Section Driver.
Context {T : Turf}.
Variable c : Config.

(** [turf.length(trackData)] *)
Definition distance : R := turf_length (coordinates c).

(** [speed * index / (distance * 1000)] *)
Definition animationPhase (index : nat) : R :=
  speed c * INR index / (distance * 1000).

(** [bearingList?.[nextBearingIndex]?.bearing] *)
Definition nextBearingOf (st : State) : option R :=
  option_map bearing (nth_error (bearingList c) (nextBearingIndex st)).

(** One call of [frame()]. *)
Definition frame (st : State) : Step :=
  let animationPhase := animationPhase (index st) in
  if JS.gtb animationPhase 1 then Resolved
  else
    let alongPath := turf_along (coordinates c) (distance * animationPhase) in
    let step :=
      itv <- at_pred (bearingList c) (nextBearingIndex st) ;;
      let nextBearing := nextBearingOf st in
      startPoint <- at_index (coordinates c) (l itv) ;;
      endPoint <- at_index (coordinates c) (r itv) ;;
      point <- GreatCircle.projectPointToGreatCircle
                 (snd startPoint) (fst startPoint)
                 (snd endPoint) (fst endPoint)
                 (snd alongPath) (fst alongPath) ;;
      let lngLat := {| lng := snd point; lat := fst point |} in
      let '(nextBearingIndex', bearing) :=
        turn itv nextBearing animationPhase (nextBearingIndex st) in
      let correctedPosition :=
        option_map
          (fun b => fst (Utils.computeCameraPosition (pitch c) b lngLat
                           (altitude c) false None))
          bearing in
      Ok ({| reveal := animationPhase; emitted_bearing := bearing;
             lngLat := lngLat; correctedPosition := correctedPosition |},
          {| index := S (index st); nextBearingIndex := nextBearingIndex' |}) in
    match step with
    | Ok (e, st') => Rendered e st'
    | Throw msg => Raised msg
    end.

(** The driver over at most [fuel] scheduled frames: the frames rendered, in
    order, and how the run stands.  [None] is a promise still pending with
    frames left to schedule; [Some Resolved] a resolved promise;
    [Some (Raised _)] a frame that threw, after which nothing is scheduled
    and the promise stays pending for ever. *)
Fixpoint run (fuel : nat) (st : State) : list Emission * option Step :=
  match fuel with
  | O => ([], None)
  | S fuel' =>
      match frame st with
      | Resolved => ([], Some Resolved)
      | Raised msg => ([], Some (Raised msg))
      | Rendered e st' =>
          let '(es, out) := run fuel' st' in (e :: es, out)
      end
  end.

End Driver.

(** A schedule the driver can follow to the end of the track: it has an
    interval, every interval joins two coordinates of the track whose great
    circle is not degenerate, and the last interval ends at ratio 1 or
    later. *)
Definition wellFormed (c : Config) : Prop :=
  bearingList c <> []
  /\ (forall itv, In itv (bearingList c) ->
        exists a b,
          nth_error (coordinates c) (l itv) = Some a
          /\ nth_error (coordinates c) (r itv) = Some b
          /\ 1e-12 <= GreatCircle.nNormSq (snd a) (fst a) (snd b) (fst b))
  /\ (forall d, 1 <= rRatio (last (bearingList c) d)).

(** Track length in metres over metres per frame. *)
Definition framesOnTrack {T : Turf} (c : Config) : R :=
  distance c * 1000 / speed c.

(** What the closure variables satisfy before every frame of a well-formed
    schedule: the interval index stays within the schedule for as long as
    the phase is at most 1. *)
Definition onSchedule {T : Turf} (c : Config) (st : State) : Prop :=
  (1 <= nextBearingIndex st)%nat
  /\ (animationPhase c (index st) <= 1 ->
      (nextBearingIndex st <= length (bearingList c))%nat).

End PathFollow.

(** ** mapbox.tsx: the bearing scheduler [initData] *)

Module Scheduler.
Import PathFollow.

(** The variables the [forEach] callback closes over. *)
Record Walk : Type := mkWalk {
  simplifiedIndex : nat;
  lastIndex : nat;
  schedule : list BearingInterval
}.

Section InitData.
Context {T : Turf}.
Variable trackCoordinates : list Position.

Definition tolerance : R := 0.004.

Definition simplified : list Position :=
  turf_simplify trackCoordinates tolerance.

Definition trackDistance : R := turf_length trackCoordinates.

(** The callback of [coordinates.forEach((coordinate, index) => ...)].
    Destructuring [simplifiedData.geometry.coordinates[simplifiedIndex]]
    throws when the index is past the end of the simplified line. *)
Definition visit (w : Walk) (coordinate : Position) (index : nat)
  : result Walk :=
  let '(lng, lat) := coordinate in
  s <- at_index simplified (simplifiedIndex w) ;;
  let '(sLng, sLat) := s in
  if JS.eqb lng sLng && JS.eqb lat sLat then
    lastCoordinate <- at_index trackCoordinates (lastIndex w) ;;
    lLength <- Utils.getLineRatio trackCoordinates lastCoordinate ;;
    thisCoordinate <- at_index trackCoordinates index ;;
    rLength <- Utils.getLineRatio trackCoordinates thisCoordinate ;;
    previousVertex <- at_pred simplified (simplifiedIndex w) ;;
    Ok {| simplifiedIndex := S (simplifiedIndex w);
          lastIndex := index;
          schedule :=
            schedule w
            ++ [ {| l := lastIndex w;
                    lRatio := lLength / trackDistance;
                    r := index;
                    rRatio := rLength / trackDistance;
                    bearing := Utils.getBearing previousVertex coordinate |} ] |}
  else Ok w.

(** [Array.prototype.forEach] over the elements from position [index] on. *)
Fixpoint forEach (xs : list Position) (index : nat) (w : Walk) : result Walk :=
  match xs with
  | [] => Ok w
  | coordinate :: rest =>
      w' <- visit w coordinate index ;;
      forEach rest (S index) w'
  end.

(** [initData()], restricted to the [bearingList] it returns. *)
Definition initData : result (list BearingInterval) :=
  w <- forEach trackCoordinates 0
         {| simplifiedIndex := 1; lastIndex := 0; schedule := [] |} ;;
  Ok (schedule w).

(** The part of the track, as a fraction of its length, that lies before
    the coordinate at [index], as [initData] computes it. *)
Definition ratioAt (index : nat) : result R :=
  coordinate <- at_index trackCoordinates index ;;
  len <- Utils.getLineRatio trackCoordinates coordinate ;;
  Ok (len / trackDistance).

End InitData.

(** [kept] selects elements of [line] in their order: what a simplification
    that keeps exact copies of vertices returns. *)
Inductive selection {A : Type} : list A -> list A -> Prop :=
| selection_nil (line : list A) : selection [] line
| selection_keep (x : A) (kept line : list A) :
    selection kept line -> selection (x :: kept) (x :: line)
| selection_drop (x : A) (kept line : list A) :
    selection kept line -> selection kept (x :: line).

(** Each interval starts at the index and the ratio at which the one before
    it ends. *)
Fixpoint contiguous (intervals : list BearingInterval) : Prop :=
  match intervals with
  | a :: (b :: _) as rest =>
      r a = l b /\ rRatio a = lRatio b /\ contiguous rest
  | _ => True
  end.

(** The schedule built so far is contiguous, its first interval starts at
    index 0 with the ratio computed for that index, and its last interval
    ends at the last boundary, with the ratio computed for that index. *)
Definition joined {T : Turf} (track : list Position) (w : Walk) : Prop :=
  contiguous (schedule w)
  /\ (schedule w = [] -> lastIndex w = 0%nat)
  /\ (forall a rest,
        schedule w = a :: rest ->
        l a = 0%nat /\ ratioAt track 0 = Ok (lRatio a))
  /\ (schedule w = []
      \/ exists init a,
          schedule w = init ++ [a]
          /\ r a = lastIndex w
          /\ ratioAt track (r a) = Ok (rRatio a)).

End Scheduler.

(** ** MapboxZoomHeightConverter.ts *)

Module MapboxZoomHeightConverter.

Definition EARTH_CIRCUMFERENCE : R := 40075016.68.
Definition EARTH_RADIUS : R := 6378137.

Definition degreesToRadians (degrees : R) : R := degrees * (PI / 180).

(** [zoomToHeight(zoom, pitch = 0)] *)
Definition zoomToHeight (zoom pitch : R) : R :=
  let zoomFactor := JS.pow2 zoom in
  let height := EARTH_RADIUS / zoomFactor in
  if JS.eqb pitch 0 then height else height / cos (degreesToRadians pitch).

(** [heightToZoom(height, pitch = 0)] *)
Definition heightToZoom (height pitch : R) : R :=
  let adjustedHeight :=
    if JS.eqb pitch 0 then height
    else height * cos (degreesToRadians pitch) in
  JS.log2 (EARTH_RADIUS / adjustedHeight).

End MapboxZoomHeightConverter.

(** ** utils.ts (first page): [createGeoJSONCircle] *)

Module GeoJSONCircle.

(** The point pushed by iteration [i] of the loop. *)
Definition vertex (center : Position) (radiusInKm : R) (points i : nat)
  : Position :=
  let latitude := snd center in
  let longitude := fst center in
  let km := radiusInKm in
  let distanceX := km / (111.320 * cos ((latitude * PI) / 180)) in
  let distanceY := km / 110.574 in
  let theta := (INR i / INR points) * (2 * PI) in
  let x := distanceX * cos theta in
  let y := distanceY * sin theta in
  (longitude + x, latitude + y).

(** [createGeoJSONCircle(center, radiusInKm, points)], as the ring of its
    polygon.  The loop pushes one vertex for each [i] below [points]; then
    [ret.push(ret[0])] closes the ring, and pushes [undefined] when the loop
    has pushed nothing. *)
Definition createGeoJSONCircle (center : Position) (radiusInKm : R)
    (points : nat) : list (option Position) :=
  let ret := map (vertex center radiusInKm points) (seq 0 points) in
  map Some ret ++ [nth_error ret 0].

End GeoJSONCircle.

(** ** utils.ts (first page): the timed path driver [animatePath] *)

Module TimedPath.

(** The destructured argument of [animatePath], without the map;
    [path] is the coordinate array of the line. *)
Record Config : Type := mkConfig {
  duration : R;
  path : list Position;
  startBearing : R;
  startAltitude : R;
  pitch : R
}.

(** The closure variable [startTime] and the module-level
    [previousCameraPosition]. *)
Record State : Type := mkState {
  startTime : option R;
  previousCameraPosition : option LngLat
}.

Definition initial (cache : option LngLat) : State :=
  {| startTime := None; previousCameraPosition := cache |}.

(** What one frame hands to the map. *)
Record Emission : Type := mkEmission {
  reveal : R;
  lngLat : LngLat;
  bearing : R;
  correctedPosition : LngLat;
  altitude : R
}.

Section Driver.
Context {T : Turf}.
Variable c : Config.

Definition pathDistance : R := turf_length (path c).

(** [(currentTime - startTime) / duration] after
    [if (!startTime) startTime = currentTime]. *)
Definition animationPhase (s : option R) (currentTime : R) : R :=
  (currentTime - FlyIn.startAt s currentTime) / duration c.

(** One call of [frame(currentTime)]: [None] when the frame resolves the
    promise, otherwise what it renders. *)
Definition frame (currentTime : R) (st : State) : option Emission * State :=
  let startTime' := FlyIn.startAt (startTime st) currentTime in
  let animationPhase := animationPhase (startTime st) currentTime in
  if JS.gtb animationPhase 1 then
    (None, {| startTime := Some startTime';
              previousCameraPosition := previousCameraPosition st |})
  else
    let alongPath := turf_along (path c) (pathDistance * animationPhase) in
    let lngLat := {| lng := fst alongPath; lat := snd alongPath |} in
    let bearing := startBearing c in
    let '(correctedPosition, cache) :=
      Utils.computeCameraPosition (pitch c) bearing lngLat (startAltitude c)
        true (previousCameraPosition st) in
    (Some {| reveal := animationPhase; lngLat := lngLat; bearing := bearing;
             correctedPosition := correctedPosition;
             altitude := startAltitude c |},
     {| startTime := Some startTime'; previousCameraPosition := cache |}).

(** The driver over the timestamps delivered to it: the frames rendered,
    the state left behind, and whether the promise has resolved. *)
Fixpoint run (ticks : list R) (st : State) : list Emission * State * bool :=
  match ticks with
  | [] => ([], st, false)
  | currentTime :: rest =>
      match frame currentTime st with
      | (None, st') => ([], st', true)
      | (Some e, st') =>
          let '(es, st'', done) := run rest st' in (e :: es, st'', done)
      end
  end.

End Driver.

(** The raw camera position of a rendered frame. *)
Definition rawOf (c : Config) (e : Emission) : LngLat :=
  Utils.rawCameraPosition (pitch c) (startBearing c) (lngLat e)
    (startAltitude c).

(** The blend of a raw position with the position before it. *)
Definition blend (previous raw : LngLat) : LngLat :=
  {| lng := Utils.lerp (lng raw) (lng previous) 0.95;
     lat := Utils.lerp (lat raw) (lat previous) 0.95 |}.

End TimedPath.

(** ** mapbox.tsx (first page): [playAnimations] *)

Module PlayAnimations.

(** [createGeoJSONCircle(center, radiusInKm)] called on an entry of the
    coordinate array, which is [undefined] when the array has no such entry:
    the first statement of the function reads [center[1]], and that read
    throws on [undefined].  [points] keeps its default 64. *)
Definition pin (center : option Position) (radiusInKm : R)
  : result (list (option Position)) :=
  match center with
  | Some center => Ok (GeoJSONCircle.createGeoJSONCircle center radiusInKm 64)
  | None => Throw "TypeError: undefined value"
  end.

(** The rings of the four pin sources that [addPathSourceAndLayer] adds. *)
Record Pins : Type := mkPins {
  startPinBase : list (option Position);
  startPinTop : list (option Position);
  endPinBase : list (option Position);
  endPinTop : list (option Position)
}.

(** [coordinates.slice(-1)] *)
Definition sliceLast (coordinates : list Position) : list Position :=
  skipn (length coordinates - 1) coordinates.

(** [addPathSourceAndLayer(trackGeojson)]: the data it computes for the
    sources [start-pin-base], [start-pin-top], [end-pin-base] and
    [end-pin-top], in that order.  The calls on the map between them are
    taken to return. *)
Definition addPathSourceAndLayer (coordinates : list Position) : result Pins :=
  startBase <- pin (nth_error coordinates 0) 0.04 ;;
  startTop <- pin (nth_error coordinates 0) 0.25 ;;
  endBase <- pin (nth_error (sliceLast coordinates) 0) 0.04 ;;
  endTop <- pin (nth_error (sliceLast coordinates) 0) 0.25 ;;
  Ok {| startPinBase := startBase; startPinTop := startTop;
        endPinBase := endBase; endPinTop := endTop |}.

(** The argument of [flyInAndRotate] in [playAnimations]. *)
Definition flyInConfig (targetLngLat : LngLat) : FlyIn.Config :=
  {| FlyIn.targetLngLat := targetLngLat;
     FlyIn.duration := 7000;
     FlyIn.startAltitude := 3000000;
     FlyIn.endAltitude := 12000;
     FlyIn.startBearing := 0;
     FlyIn.endBearing := -20;
     FlyIn.startPitch := 40;
     FlyIn.endPitch := 50 |}.

(** The argument of [animatePath], built from the value the fly-in
    resolved with. *)
Definition pathConfig (coordinates : list Position) (final : FlyIn.Final)
  : TimedPath.Config :=
  {| TimedPath.duration := 60000;
     TimedPath.path := coordinates;
     TimedPath.startBearing := FlyIn.bearing final;
     TimedPath.startAltitude := FlyIn.altitude final;
     TimedPath.pitch := 50 |}.

Section Stages.
Context {T : Turf}.
Variable coordinates : list Position.
Variable targetLngLat : LngLat.

(** The two awaited stages over the timestamps of the page: the fly-in
    takes the frames up to the one that resolves it, the path driver the
    frames after it, and both work on the same [previousCameraPosition].
    The result is the poses of the fly-in, the frames of the path driver
    and whether the path driver has resolved. *)
Fixpoint stages (ticks : list R) (st : FlyIn.State)
  : list FlyIn.Pose * list TimedPath.Emission * bool :=
  match ticks with
  | [] => ([], [], false)
  | time :: rest =>
      let '(pose, st', fin) := FlyIn.frame (flyInConfig targetLngLat) time st in
      match fin with
      | Some final =>
          let '(es, _, done) :=
            TimedPath.run (pathConfig coordinates final) rest
              (TimedPath.initial (FlyIn.previousCameraPosition st')) in
          ([pose], es, done)
      | None =>
          let '(poses, es, done) := stages rest st' in
          (pose :: poses, es, done)
      end
  end.

End Stages.

(** [playAnimations(trackGeojson)] up to the end of the path stage: its
    first statement is the call of [addPathSourceAndLayer], then it reads
    the first coordinate and runs the two stages. *)
Definition playAnimations {T : Turf} (coordinates : list Position)
    (ticks : list R) (cache : option LngLat)
  : result (Pins * (list FlyIn.Pose * list TimedPath.Emission * bool)) :=
  pins <- addPathSourceAndLayer coordinates ;;
  first <- at_index coordinates 0 ;;
  let targetLngLat := {| lng := fst first; lat := snd first |} in
  Ok (pins, stages coordinates targetLngLat ticks (FlyIn.initial cache)).

End PlayAnimations.

(** ** converter.ts: camera height and constant-speed zoom *)

Module Converter.

(** What [getCameraHeight] reads from the map: [map.getCenter().lat],
    [map.getContainer().clientHeight], [map.getZoom()], [map.getPitch()]. *)
Record MapView : Type := mkMapView {
  centerLat : R;
  clientHeight : R;
  zoom : R;
  pitch : R
}.

(** [getCameraHeight(map)] *)
Definition getCameraHeight (map : MapView) : R :=
  let latitude := centerLat map in
  let viewportHeight := clientHeight map in
  let zoom := zoom map in
  let earthCircumference := 40075016.686 in
  let pitchRad := pitch map * PI / 180 in
  let metersPerPixel :=
    (earthCircumference * cos (latitude * PI / 180)) / JS.pow2 zoom / 512 in
  let halfViewHeightInMeters := metersPerPixel * (viewportHeight / 2) in
  let cameraHeight := halfViewHeightInMeters / cos pitchRad in
  cameraHeight.

(** The module constant [initial]. *)
Record Initial : Type := mkInitial {
  initial_speed : R;
  initial_zoom : R;
  initial_lat : R;
  initial_pitch : R
}.

Definition initial : Initial :=
  {| initial_speed := 5 / 3;
     initial_zoom := 0;
     initial_lat := 22.412646042481583;
     initial_pitch := 60 |}.

(** The argument [current]. *)
Record Current : Type := mkCurrent {
  speed : R;
  lat : R;
  current_pitch : R
}.

Definition degToRad (deg : R) : R := deg * (PI / 180).

(** [Math.sign] *)
Definition sign (x : R) : R :=
  if Rlt_dec 0 x then 1 else if Rlt_dec x 0 then -1 else 0.

(** The local [safeCos]. *)
Definition safeCos (rad : R) : R :=
  let value := cos rad in
  if JS.ltb (Rabs value) 1e-5 then sign value * 1e-5 else value.

(** The local [resultZoom], before it is limited. *)
Definition resultZoom (current : Current) : R :=
  let initialLatRad := degToRad (initial_lat initial) in
  let initialPitchRad := degToRad (initial_pitch initial) in
  let cosInitialLat := safeCos initialLatRad in
  let cosInitialPitch := safeCos initialPitchRad in
  let currentLatRad := degToRad (lat current) in
  let currentPitchRad := degToRad (current_pitch current) in
  let cosCurrentLat := safeCos currentLatRad in
  let cosCurrentPitch := safeCos currentPitchRad in
  let speedRatio := initial_speed initial / speed current in
  let latFactor := cosCurrentLat / cosInitialLat in
  let pitchFactor := cosCurrentPitch / cosInitialPitch in
  let zoomDelta :=
    JS.log2 speedRatio + JS.log2 latFactor + JS.log2 pitchFactor in
  initial_zoom initial + zoomDelta.

(** [calculateZoomForConstantSpeed(current, minZoom = 0, maxZoom = 22)] *)
Definition calculateZoomForConstantSpeed (current : Current)
    (minZoom maxZoom : R) : R :=
  Rmin maxZoom (Rmax minZoom (resultZoom current)).

End Converter.

(** ** utils.ts (second page): the path driver on index ratios *)

Module IndexedPath.

(** An element of [bearingList]. *)
Record Interval : Type := mkInterval {
  l : nat;
  r : nat;
  bearing : R
}.

(** The destructured argument of [animatePath], without the map;
    [coordinates] is [trackData.geometry.coordinates]. *)
Record Config : Type := mkConfig {
  altitude : R;
  pitch : R;
  bearingList : list Interval;
  coordinates : list Position;
  speed : R
}.

(** The closure variables [index] and [nextBearingIndex] and the
    module-level [previousCameraPosition].  The cached position is [None]
    inside when its coordinates are [NaN]. *)
Record State : Type := mkState {
  index : nat;
  nextBearingIndex : nat;
  previousCameraPosition : option (option LngLat)
}.

Definition initial (cache : option (option LngLat)) : State :=
  {| index := 0; nextBearingIndex := 1; previousCameraPosition := cache |}.

(** What one frame hands to the map; the camera position is [None] when
    its coordinates are [NaN]. *)
Record Emission : Type := mkEmission {
  reveal : R;
  emitted_bearing : option R;
  lngLat : LngLat;
  correctedPosition : option LngLat
}.

Inductive Step : Type :=
| Resolved
| Rendered (e : Emission) (st : State)
| Raised (msg : String.string).

Definition ratio : R := 0.1.

(** The smoothed call of [computeCameraPosition] with a bearing that may be
    [undefined] on a cache that may hold [NaN]: an [undefined] bearing
    gives [NaN] coordinates, and blending with [NaN] gives [NaN]. *)
Definition smoothedPosition (pitch : R) (bearing : option R)
    (target : LngLat) (altitude : R) (cache : option (option LngLat))
  : option LngLat * option (option LngLat) :=
  match bearing, cache with
  | Some b, None =>
      let '(p, _) :=
        Utils.computeCameraPosition pitch b target altitude true None in
      (Some p, Some (Some p))
  | Some b, Some (Some prev) =>
      let '(p, _) :=
        Utils.computeCameraPosition pitch b target altitude true (Some prev) in
      (Some p, Some (Some p))
  | _, _ => (None, Some None)
  end.

(** The block that enters the next turn, on the indices of the interval
    divided by [coordinates.length]. *)
Definition turn (len : nat) (itv : Interval) (nextBearing : option R)
    (animationPhase : R) (nextBearingIndex : nat) : nat * option R :=
  let currentBearing := bearing itv in
  let lRange :=
    (INR (l itv) + (INR (r itv) - INR (l itv)) * (1 - ratio)) / INR len in
  if JS.leb (INR (r itv) / INR len) animationPhase then
    (S nextBearingIndex, nextBearing)
  else
    match nextBearing with
    | Some nb =>
        if JS.truthy nb && JS.ltb animationPhase (INR (r itv) / INR len)
           && JS.leb lRange animationPhase
        then
          let normalizedTime :=
            (animationPhase - lRange)
            / ((INR (r itv) - INR (l itv)) / INR len * ratio) in
          (nextBearingIndex,
           Some (currentBearing + (nb - currentBearing) * normalizedTime))
        else (nextBearingIndex, Some currentBearing)
    | None => (nextBearingIndex, Some currentBearing)
    end.

Section Driver.
Context {T : Turf}.
Variable c : Config.

Definition distance : R := turf_length (coordinates c).

Definition animationPhase (index : nat) : R :=
  speed c * INR index / (distance * 1000).

(** One call of [frame()]. *)
Definition frame (st : State) : Step :=
  let animationPhase := animationPhase (index st) in
  if JS.gtb animationPhase 1 then Resolved
  else
    match at_pred (bearingList c) (nextBearingIndex st) with
    | Throw msg => Raised msg
    | Ok itv =>
        let nextBearing :=
          option_map bearing (nth_error (bearingList c) (nextBearingIndex st)) in
        let '(nextBearingIndex', bearing) :=
          turn (length (coordinates c)) itv nextBearing animationPhase
            (nextBearingIndex st) in
        let alongPath :=
          turf_along (coordinates c) (distance * animationPhase) in
        let lngLat := {| lng := fst alongPath; lat := snd alongPath |} in
        let '(correctedPosition, cache) :=
          smoothedPosition (pitch c) bearing lngLat (altitude c)
            (previousCameraPosition st) in
        Rendered
          {| reveal := animationPhase; emitted_bearing := bearing;
             lngLat := lngLat; correctedPosition := correctedPosition |}
          {| index := S (index st); nextBearingIndex := nextBearingIndex';
             previousCameraPosition := cache |}
    end.

(** The driver over at most [fuel] scheduled frames, as for the driver on
    length ratios. *)
Fixpoint run (fuel : nat) (st : State) : list Emission * option Step :=
  match fuel with
  | O => ([], None)
  | S fuel' =>
      match frame st with
      | Resolved => ([], Some Resolved)
      | Raised msg => ([], Some (Raised msg))
      | Rendered e st' =>
          let '(es, out) := run fuel' st' in (e :: es, out)
      end
  end.

End Driver.

End IndexedPath.

(** ** mapbox.tsx (track page): the two stages of [initMap] *)

Module TrackPage.

Definition PITCH : R := 60.
Definition ALTITUDE : R := 3000.
Definition DoubleSpeed : R := 1.
Definition Speed : R := 1 / 360 * DoubleSpeed * 1000.

(** The argument of [flyInAndRotate] in [initMap]: reading the first
    coordinate of an empty track, or the bearing of the first interval of
    an empty schedule, throws. *)
Definition flyInConfig (coordinates : list Position)
    (bearingList : list PathFollow.BearingInterval) : result FlyIn.Config :=
  first <- at_index coordinates 0 ;;
  interval <- at_index bearingList 0 ;;
  Ok {| FlyIn.targetLngLat := {| lng := fst first; lat := snd first |};
        FlyIn.duration := 4000 / DoubleSpeed;
        FlyIn.startAltitude := 3000000;
        FlyIn.endAltitude := ALTITUDE;
        FlyIn.startBearing := 0;
        FlyIn.endBearing := PathFollow.bearing interval;
        FlyIn.startPitch := 40;
        FlyIn.endPitch := PITCH |}.

(** The argument of [animatePath] in [initMap]. *)
Definition pathConfig (coordinates : list Position)
    (bearingList : list PathFollow.BearingInterval) : PathFollow.Config :=
  {| PathFollow.altitude := ALTITUDE;
     PathFollow.pitch := PITCH;
     PathFollow.bearingList := bearingList;
     PathFollow.coordinates := coordinates;
     PathFollow.speed := Speed |}.

End TrackPage.

(** ** Repeated calls of the camera projector *)

Module Smoothing.

(** [S n] consecutive smoothed calls with the same arguments, threading
    [previousCameraPosition]: the result of the last call. *)
Fixpoint calls (pitch bearing : R) (target : LngLat) (altitude : R)
    (n : nat) (cache : option LngLat) : LngLat * option LngLat :=
  match n with
  | O => Utils.computeCameraPosition pitch bearing target altitude true cache
  | S m =>
      let '(_, cache') :=
        Utils.computeCameraPosition pitch bearing target altitude true cache in
      calls pitch bearing target altitude m cache'
  end.

End Smoothing.

(** ** Inputs used in the examples *)

Module Examples.

(** The fly-in from space of the page, over seven seconds. *)
Definition spaceView : FlyIn.Config :=
  {| FlyIn.targetLngLat := {| lng := 0; lat := 0 |};
     FlyIn.duration := 7000;
     FlyIn.startAltitude := 3000000;
     FlyIn.endAltitude := 1000;
     FlyIn.startBearing := 0;
     FlyIn.endBearing := 90;
     FlyIn.startPitch := 40;
     FlyIn.endPitch := 60 |}.

(** A geometry library that answers every call with the same length, the
    same point and the same simplified line, and slices nothing off a line:
    enough to run the drivers and the scheduler on one given track. *)
Definition fixedTurf (len : R) (pt : Position) (simp : list Position) : Turf :=
  {| turf_length := fun _ => len;
     turf_along := fun _ _ => pt;
     turf_lineSlice := fun _ _ line => line;
     turf_simplify := fun _ _ => simp |}.

(** One kilometre along the equator, followed at 100 metres per frame. *)
Definition straightTrack : PathFollow.Config :=
  {| PathFollow.altitude := 3000;
     PathFollow.pitch := 60;
     PathFollow.bearingList :=
       [ {| PathFollow.l := 0; PathFollow.lRatio := 0;
            PathFollow.r := 1; PathFollow.rRatio := 1;
            PathFollow.bearing := 90 |} ];
     PathFollow.coordinates := [ (0, 0); (90, 0) ];
     PathFollow.speed := 100 |}.

(** The same kilometre followed at 300 metres per frame. *)
Definition briskTrack : PathFollow.Config :=
  {| PathFollow.altitude := 3000;
     PathFollow.pitch := 60;
     PathFollow.bearingList :=
       [ {| PathFollow.l := 0; PathFollow.lRatio := 0;
            PathFollow.r := 1; PathFollow.rRatio := 1;
            PathFollow.bearing := 90 |} ];
     PathFollow.coordinates := [ (0, 0); (90, 0) ];
     PathFollow.speed := 300 |}.

(** A track that runs east along the equator and then turns due north: the
    second interval has bearing 0. *)
Definition northTurn : PathFollow.Config :=
  {| PathFollow.altitude := 3000;
     PathFollow.pitch := 60;
     PathFollow.bearingList :=
       [ {| PathFollow.l := 0; PathFollow.lRatio := 0;
            PathFollow.r := 1; PathFollow.rRatio := 0.5;
            PathFollow.bearing := 90 |};
         {| PathFollow.l := 1; PathFollow.lRatio := 0.5;
            PathFollow.r := 2; PathFollow.rRatio := 1;
            PathFollow.bearing := 0 |} ];
     PathFollow.coordinates := [ (0, 0); (90, 0); (90, 45) ];
     PathFollow.speed := 45 |}.

(** A recorded track whose last fix is repeated, and its simplification. *)
Definition stalledTrack : list Position := [ (0, 0); (1, 0); (1, 0) ].
Definition stalledSimplified : list Position := [ (0, 0); (1, 0) ].

End Examples.

(** * Part II: properties *)

(** ** Facts about the JavaScript operators *)

Lemma ltb_true (x y : R) : JS.ltb x y = true <-> x < y.
Proof. unfold JS.ltb; destruct (Rlt_dec x y); split; intros; easy. Qed.

Lemma ltb_false (x y : R) : JS.ltb x y = false <-> y <= x.
Proof.
  unfold JS.ltb; destruct (Rlt_dec x y); split; intros; try easy; lra.
Qed.

Lemma leb_true (x y : R) : JS.leb x y = true <-> x <= y.
Proof. unfold JS.leb; destruct (Rle_dec x y); split; intros; easy. Qed.

Lemma leb_false (x y : R) : JS.leb x y = false <-> y < x.
Proof.
  unfold JS.leb; destruct (Rle_dec x y); split; intros; try easy; lra.
Qed.

Lemma gtb_true (x y : R) : JS.gtb x y = true <-> x > y.
Proof. unfold JS.gtb; rewrite ltb_true; lra. Qed.

Lemma gtb_false (x y : R) : JS.gtb x y = false <-> x <= y.
Proof. unfold JS.gtb; rewrite ltb_false; lra. Qed.

Lemma eqb_true (x y : R) : JS.eqb x y = true <-> x = y.
Proof. unfold JS.eqb; destruct (Req_dec_T x y); split; intros; easy. Qed.

Lemma eqb_false (x y : R) : JS.eqb x y = false <-> x <> y.
Proof. unfold JS.eqb; destruct (Req_dec_T x y); split; intros; easy. Qed.

Lemma eqb_refl (x : R) : JS.eqb x x = true.
Proof. now apply eqb_true. Qed.

Lemma truthy_true (x : R) : JS.truthy x = true <-> x <> 0.
Proof.
  unfold JS.truthy; destruct (JS.eqb x 0) eqn:E; simpl.
  - apply eqb_true in E; split; intros; easy.
  - apply eqb_false in E; split; intros; easy.
Qed.

Lemma truthy_zero : JS.truthy 0 = false.
Proof. unfold JS.truthy; now rewrite eqb_refl. Qed.

(** The integer part of a real squeezed between [z] and [z + 1]. *)
Lemma Int_part_between (x : R) (z : Z) :
  IZR z <= x < IZR z + 1 -> Int_part x = z.
Proof. intros [Hlo Hhi]; symmetry; apply Int_part_spec; lra. Qed.

(** The remainder of a non-negative dividend by a positive divisor, once the
    quotient is bracketed. *)
Lemma rem_bracket (x y v : R) (k : Z) :
  0 < y -> 0 <= x -> IZR k * y <= x < (IZR k + 1) * y ->
  v = x - IZR k * y -> JS.rem x y = v.
Proof.
  intros Hy Hx [Hlo Hhi] ->; unfold JS.rem, JS.trunc.
  assert (Hq : 0 <= x / y).
  { unfold Rdiv; apply Rmult_le_pos; [lra |].
    left; now apply Rinv_0_lt_compat. }
  destruct (Rle_dec 0 (x / y)); [| lra].
  rewrite (Int_part_between (x / y) k); [lra |].
  split.
  - apply Rmult_le_reg_r with y; [lra |]; unfold Rdiv.
    rewrite Rmult_assoc, Rinv_l; lra.
  - apply Rmult_lt_reg_r with y; [lra |]; unfold Rdiv.
    rewrite Rmult_assoc, Rinv_l; lra.
Qed.

(** ** The camera projector *)

Section CameraProjector.
Import Utils.

Variables (pitch bearing altitude : R) (target : LngLat).

(** C1. Without smoothing, whatever the cache holds, the returned position
    is the target shifted by the horizontal offset
    [altitude / tan ((90 - pitch) in radians)]: its longitude component,
    [sin (- bearingRad)] over [111320 * cos (target latitude in radians)],
    is added to the target longitude, and its latitude component,
    [cos (- bearingRad)] over [111320], is subtracted from the target
    latitude.  A smoothed call on an empty cache returns the same point. *)
Theorem computeCameraPosition_offsets :
  forall (prev : option LngLat),
    let bearingRad := bearing * (PI / 180) in
    let pitchRad := (90 - pitch) * (PI / 180) in
    let magnitude := altitude / tan pitchRad in
    let p := fst (computeCameraPosition pitch bearing target altitude false prev) in
    let q := fst (computeCameraPosition pitch bearing target altitude true None) in
    lng p = lng target
            + magnitude * sin (- bearingRad)
              / (111320 * cos (lat target * (PI / 180)))
    /\ lat p = lat target - magnitude * cos (- bearingRad) / 111320
    /\ q = p.
Proof.
  intros prev; cbv zeta; unfold computeCameraPosition, rawCameraPosition.
  simpl; repeat split; reflexivity.
Qed.

(** C2. With smoothing enabled and a stored previous position, each output
    coordinate is 0.95 times the stored coordinate plus 0.05 times the
    freshly computed raw coordinate, which is [lerp new previous 0.95]. *)
Theorem computeCameraPosition_smoothing :
  forall (prev : LngLat),
    let raw := rawCameraPosition pitch bearing target altitude in
    let p := fst (computeCameraPosition pitch bearing target altitude true (Some prev)) in
    lng p = 0.95 * lng prev + 0.05 * lng raw
    /\ lat p = 0.95 * lat prev + 0.05 * lat raw
    /\ lng p = lerp (lng raw) (lng prev) 0.95
    /\ lat p = lerp (lat raw) (lat prev) 0.95.
Proof.
  intros prev; cbv zeta; unfold computeCameraPosition, lerp, SMOOTH_FACTOR.
  simpl; repeat split; lra.
Qed.

End CameraProjector.


(** ** Bearings *)

(** C9. [normalizeBearing(10, 350)] is [-20], the turn through north, and
    not [340]. *)
Theorem normalizeBearing_10_350 :
  Utils.normalizeBearing 10 350 = -20
  /\ Utils.normalizeBearing 10 350 <> 340.
Proof.
  assert (E : Utils.normalizeBearing 10 350 = -20).
  { unfold Utils.normalizeBearing.
    rewrite (rem_bracket 10 360 10 0) by lra.
    rewrite (rem_bracket (10 + 360) 360 10 1) by lra.
    rewrite (rem_bracket 350 360 350 0) by lra.
    rewrite (rem_bracket (350 + 360) 360 350 1) by lra.
    rewrite (rem_bracket (350 - 10 + 360) 360 340 1) by lra.
    destruct (JS.leb (Rabs 340) (Rabs (340 - 360))) eqn:E.
    - apply leb_true in E.
      rewrite (Rabs_pos_eq 340) in E by lra.
      rewrite (Rabs_left (340 - 360)) in E by lra. lra.
    - lra. }
  split; [exact E | rewrite E; lra].
Qed.

(** ** Zoom and height *)

Section ZoomHeight.
Import MapboxZoomHeightConverter.

Lemma ln2_pos : 0 < ln 2.
Proof. rewrite <- ln_1; apply ln_increasing; lra. Qed.

Lemma pow2_pos (z : R) : 0 < JS.pow2 z.
Proof. unfold JS.pow2, Rpower; apply exp_pos. Qed.

Lemma log2_pow2 (z : R) : JS.log2 (JS.pow2 z) = z.
Proof.
  unfold JS.log2, JS.pow2, Rpower; rewrite ln_exp.
  pose proof ln2_pos; field; lra.
Qed.

(** The cosine of a pitch between 0 and 89 degrees is positive. *)
Lemma cos_pitch_pos (p : R) :
  0 <= p <= 89 -> 0 < cos (degreesToRadians p).
Proof.
  intros [Hlo Hhi]; unfold degreesToRadians.
  pose proof PI_RGT_0 as HPI.
  apply cos_gt_0; nra.
Qed.

(** [heightToZoom] multiplies the height by the cosine of the pitch and
    takes [log2 (EARTH_RADIUS / adjustedHeight)]; at pitch 0 the factor
    is 1. *)
Lemma heightToZoom_formula (h p : R) :
  heightToZoom h p = JS.log2 (EARTH_RADIUS / (h * cos (degreesToRadians p))).
Proof.
  unfold heightToZoom; destruct (JS.eqb p 0) eqn:E; [| reflexivity].
  apply eqb_true in E; subst p; unfold degreesToRadians.
  rewrite Rmult_0_l, cos_0, Rmult_1_r; reflexivity.
Qed.

(** C8. For a zoom in [[0, 22]] and a pitch in [[0, 89]] degrees,
    [heightToZoom (zoomToHeight z p) p] is [z] (in particular within 1e-9
    of it), and [heightToZoom] is [log2] of [EARTH_RADIUS] over the height
    multiplied by the cosine of the pitch. *)
Theorem heightToZoom_zoomToHeight (z p : R) :
  0 <= z <= 22 -> 0 <= p <= 89 ->
  heightToZoom (zoomToHeight z p) p = z
  /\ Rabs (heightToZoom (zoomToHeight z p) p - z) <= 1e-9
  /\ (forall h,
         heightToZoom h p
         = JS.log2 (EARTH_RADIUS / (h * cos (degreesToRadians p)))).
Proof.
  intros Hz Hp.
  assert (E : heightToZoom (zoomToHeight z p) p = z).
  { pose proof (pow2_pos z) as Hpow.
    pose proof (cos_pitch_pos p Hp) as Hcos.
    unfold heightToZoom, zoomToHeight.
    destruct (JS.eqb p 0).
    - replace (EARTH_RADIUS / (EARTH_RADIUS / JS.pow2 z)) with (JS.pow2 z)
        by (unfold EARTH_RADIUS; field; lra).
      apply log2_pow2.
    - replace (EARTH_RADIUS
               / (EARTH_RADIUS / JS.pow2 z / cos (degreesToRadians p)
                  * cos (degreesToRadians p)))
        with (JS.pow2 z) by (unfold EARTH_RADIUS; field; lra).
      apply log2_pow2. }
  split; [exact E |]; split.
  - rewrite E, Rminus_diag, Rabs_R0; lra.
  - intros h; apply heightToZoom_formula.
Qed.

(** C8, at zoom 12 and pitch 60. *)
Lemma heightToZoom_zoomToHeight_12_60 :
  (0 <= 12 <= 22 /\ 0 <= 60 <= 89)
  /\ heightToZoom (zoomToHeight 12 60) 60 = 12
  /\ Rabs (heightToZoom (zoomToHeight 12 60) 60 - 12) <= 1e-9
  /\ (forall h,
         heightToZoom h 60
         = JS.log2 (EARTH_RADIUS / (h * cos (degreesToRadians 60)))).
Proof.
  split; [lra |]; apply (heightToZoom_zoomToHeight 12 60); lra.
Defined.

End ZoomHeight.

(** ** The geodesy kernel *)

Section Geodesy.
Import GreatCircle.

(** Equality of tuples of reals, component by component. *)
Ltac tuple_ring :=
  repeat match goal with
         | |- (_, _) = (_, _) => apply f_equal2
         end;
  ring.

Lemma cross_self (A : Vec3) : cross A A = (0, 0, 0).
Proof. destruct A as [[a0 a1] a2]; unfold cross; tuple_ring. Qed.

Lemma cross_opp (A : Vec3) :
  let '(a0, a1, a2) := A in cross A (- a0, - a1, - a2) = (0, 0, 0).
Proof. destruct A as [[a0 a1] a2]; unfold cross; tuple_ring. Qed.

(** The antipode of a point, in latitude and longitude, is its opposite on
    the unit sphere. *)
Lemma latLonToCartesian_antipode (lat lon : R) :
  let '(a0, a1, a2) := latLonToCartesian lat lon in
  latLonToCartesian (- lat) (lon + 180) = (- a0, - a1, - a2).
Proof.
  unfold latLonToCartesian, degreesToRadians.
  replace (- lat * PI / 180) with (- (lat * PI / 180)) by field.
  replace ((lon + 180) * PI / 180) with (lon * PI / 180 + PI) by field.
  rewrite cos_neg, sin_neg, neg_cos, neg_sin.
  tuple_ring.
Qed.

(** The same antipode, reached by subtracting 180 degrees. *)
Lemma latLonToCartesian_antipode_west (lat lon : R) :
  latLonToCartesian (- lat) (lon - 180) = latLonToCartesian (- lat) (lon + 180).
Proof.
  unfold latLonToCartesian, degreesToRadians.
  replace ((lon - 180) * PI / 180) with (lon * PI / 180 - PI) by field.
  replace ((lon + 180) * PI / 180) with (lon * PI / 180 + PI) by field.
  rewrite cos_minus, sin_minus, neg_cos, neg_sin, cos_PI, sin_PI.
  tuple_ring.
Qed.

Lemma nNormSq_coincident (latA lonA : R) : nNormSq latA lonA latA lonA = 0.
Proof. unfold nNormSq; rewrite cross_self; unfold dot; ring. Qed.

Lemma nNormSq_antipodal (latA lonA : R) :
  nNormSq latA lonA (- latA) (lonA + 180) = 0.
Proof.
  unfold nNormSq.
  pose proof (latLonToCartesian_antipode latA lonA) as Hanti.
  pose proof (cross_opp (latLonToCartesian latA lonA)) as Hcross.
  destruct (latLonToCartesian latA lonA) as [[a0 a1] a2].
  rewrite Hanti, Hcross; unfold dot; ring.
Qed.

Lemma nNormSq_antipodal_west (latA lonA : R) :
  nNormSq latA lonA (- latA) (lonA - 180) = 0.
Proof.
  unfold nNormSq; rewrite latLonToCartesian_antipode_west.
  apply nNormSq_antipodal.
Qed.

(** What is left of [C] after its component along [n] is removed has no
    component along [n]. *)
Lemma plane_component (c0 c1 c2 n0 n1 n2 : R) :
  n0 * n0 + n1 * n1 + n2 * n2 <> 0 ->
  (c0 - (c0 * n0 + c1 * n1 + c2 * n2) / (n0 * n0 + n1 * n1 + n2 * n2) * n0) * n0
  + (c1 - (c0 * n0 + c1 * n1 + c2 * n2) / (n0 * n0 + n1 * n1 + n2 * n2) * n1) * n1
  + (c2 - (c0 * n0 + c1 * n1 + c2 * n2) / (n0 * n0 + n1 * n1 + n2 * n2) * n2) * n2
  = 0.
Proof. intros Hn; field; exact Hn. Qed.

(** A vector that is not null, divided by its length, has length 1. *)
Lemma normalized_unit (p0 p1 p2 : R) :
  0 < p0 * p0 + p1 * p1 + p2 * p2 ->
  let norm := sqrt (p0 * p0 + p1 * p1 + p2 * p2) in
  p0 / norm * (p0 / norm) + p1 / norm * (p1 / norm) + p2 / norm * (p2 / norm)
  = 1.
Proof.
  intros Hpos norm.
  pose proof (sqrt_def _ (Rlt_le _ _ Hpos)) as Hsq.
  pose proof (sqrt_lt_R0 _ Hpos) as Hs.
  fold norm in Hsq, Hs.
  replace (p0 / norm * (p0 / norm) + p1 / norm * (p1 / norm)
           + p2 / norm * (p2 / norm))
    with ((p0 * p0 + p1 * p1 + p2 * p2) / (norm * norm))
    by (field; lra).
  rewrite Hsq; unfold Rdiv; apply Rinv_r; lra.
Qed.

(** A real whose square is at most [q] is at most the square root of
    [q]. *)
Lemma le_sqrt (x q : R) : x * x <= q -> x <= sqrt q.
Proof.
  intros Hx.
  destruct (Rle_dec x 0) as [Hneg | Hpos].
  - pose proof (sqrt_pos q); lra.
  - assert (H0 : 0 <= x) by lra.
    rewrite <- (sqrt_square x H0).
    apply sqrt_le_1_alt; exact Hx.
Qed.

(** Among the unit vectors of the plane with normal [n], the normalised
    remainder of [C] is the one closest to [C]: no other has a larger
    scalar product with [C]. *)
Lemma plane_nearest (c0 c1 c2 n0 n1 n2 u0 u1 u2 : R) :
  let along := (c0 * n0 + c1 * n1 + c2 * n2) / (n0 * n0 + n1 * n1 + n2 * n2) in
  let p0 := c0 - along * n0 in
  let p1 := c1 - along * n1 in
  let p2 := c2 - along * n2 in
  let norm := sqrt (p0 * p0 + p1 * p1 + p2 * p2) in
  n0 * n0 + n1 * n1 + n2 * n2 <> 0 ->
  0 < p0 * p0 + p1 * p1 + p2 * p2 ->
  u0 * n0 + u1 * n1 + u2 * n2 = 0 ->
  u0 * u0 + u1 * u1 + u2 * u2 = 1 ->
  u0 * c0 + u1 * c1 + u2 * c2
  <= p0 / norm * c0 + p1 / norm * c1 + p2 / norm * c2.
Proof.
  intros along p0 p1 p2 norm Hn Hpos Hun Huu.
  pose proof (plane_component c0 c1 c2 n0 n1 n2 Hn) as Hpn.
  fold along in Hpn; fold p0 p1 p2 in Hpn.
  pose proof (sqrt_def _ (Rlt_le _ _ Hpos)) as Hsq.
  pose proof (sqrt_lt_R0 _ Hpos) as Hs.
  fold norm in Hsq, Hs.
  assert (Huc : u0 * c0 + u1 * c1 + u2 * c2 = u0 * p0 + u1 * p1 + u2 * p2).
  { unfold p0, p1, p2.
    replace (u0 * (c0 - along * n0) + u1 * (c1 - along * n1)
             + u2 * (c2 - along * n2))
      with (u0 * c0 + u1 * c1 + u2 * c2
            - along * (u0 * n0 + u1 * n1 + u2 * n2)) by ring.
    rewrite Hun; ring. }
  assert (Hpc : p0 / norm * c0 + p1 / norm * c1 + p2 / norm * c2 = norm).
  { replace (p0 / norm * c0 + p1 / norm * c1 + p2 / norm * c2)
      with ((p0 * p0 + p1 * p1 + p2 * p2
             + along * (p0 * n0 + p1 * n1 + p2 * n2)) / norm)
      by (unfold p0, p1, p2; field; lra).
    rewrite Hpn, Rmult_0_r, Rplus_0_r, <- Hsq; field; lra. }
  rewrite Huc, Hpc; unfold norm; apply le_sqrt.
  assert (Hlagrange :
            (u0 * u0 + u1 * u1 + u2 * u2) * (p0 * p0 + p1 * p1 + p2 * p2)
            - (u0 * p0 + u1 * p1 + u2 * p2) * (u0 * p0 + u1 * p1 + u2 * p2)
            = (u0 * p1 - u1 * p0) * (u0 * p1 - u1 * p0)
              + (u1 * p2 - u2 * p1) * (u1 * p2 - u2 * p1)
              + (u2 * p0 - u0 * p2) * (u2 * p0 - u0 * p2)) by ring.
  rewrite Huu, Rmult_1_l in Hlagrange.
  pose proof (Rle_0_sqr (u0 * p1 - u1 * p0)) as H1.
  pose proof (Rle_0_sqr (u1 * p2 - u2 * p1)) as H2.
  pose proof (Rle_0_sqr (u2 * p0 - u0 * p2)) as H3.
  unfold Rsqr in H1, H2, H3; lra.
Qed.


End Geodesy.

(** ** The fly-in driver *)

Section FlyInDriver.
Import FlyIn.

Variable c : Config.
Hypothesis duration_pos : 0 < duration c.

Lemma easeCubicOut_1 : easeCubicOut 1 = 1.
Proof. unfold easeCubicOut; ring. Qed.

(** The phase a frame works with never exceeds 1. *)
Lemma animationPhase_le_1 (s : option R) (time : R) :
  animationPhase c s time <= 1.
Proof.
  unfold animationPhase.
  destruct (JS.gtb (elapsedPhase c s time) 1) eqn:E; [lra |].
  now apply gtb_false in E.
Qed.

Lemma elapsedPhase_ge_1 (s : option R) (time : R) :
  time - startAt s time >= duration c -> 1 <= elapsedPhase c s time.
Proof.
  intros Hel; unfold elapsedPhase.
  apply Rmult_le_reg_r with (duration c); [exact duration_pos |].
  unfold Rdiv; rewrite Rmult_assoc, Rinv_l; lra.
Qed.

Lemma elapsedPhase_lt_1 (s : option R) (time : R) :
  time - startAt s time < duration c -> elapsedPhase c s time < 1.
Proof.
  intros Hel; unfold elapsedPhase.
  apply Rmult_lt_reg_r with (duration c); [exact duration_pos |].
  unfold Rdiv; rewrite Rmult_assoc, Rinv_l; lra.
Qed.

(** Once the elapsed time has reached the duration the phase is 1. *)
Lemma animationPhase_done (s : option R) (time : R) :
  time - startAt s time >= duration c -> animationPhase c s time = 1.
Proof.
  intros Hel; apply elapsedPhase_ge_1 in Hel; unfold animationPhase.
  destruct (JS.gtb (elapsedPhase c s time) 1) eqn:E; [reflexivity |].
  apply gtb_false in E; lra.
Qed.

Lemma animationPhase_running (s : option R) (time : R) :
  time - startAt s time < duration c -> animationPhase c s time < 1.
Proof.
  intros Hel; apply elapsedPhase_lt_1 in Hel; unfold animationPhase.
  destruct (JS.gtb (elapsedPhase c s time) 1) eqn:E; [| exact Hel].
  apply gtb_true in E; lra.
Qed.

(** A frame whose elapsed time has reached the duration applies the end
    pose and resolves with its bearing and altitude. *)
Lemma frame_done (time : R) (st : State) :
  time - startAt (start st) time >= duration c ->
  exists pose cache,
    frame c time st
    = (pose,
       {| start := Some (startAt (start st) time);
          previousCameraPosition := cache |},
       Some {| bearing := pose_bearing pose; altitude := pose_altitude pose |})
    /\ pose_altitude pose = endAltitude c
    /\ pose_bearing pose = endBearing c
    /\ pose_pitch pose = endPitch c.
Proof.
  intros Hel; unfold frame.
  rewrite (animationPhase_done _ _ Hel), easeCubicOut_1, eqb_refl.
  unfold Utils.computeCameraPosition; cbv zeta.
  match goal with
  | |- exists pose cache, (?p, {| start := _; previousCameraPosition := ?k |}, _) = _ /\ _ =>
      exists p, k
  end.
  split; [reflexivity |]; simpl; repeat split; ring.
Qed.

(** A frame before that applies a pose and schedules the next frame. *)
Lemma frame_running (time : R) (st : State) :
  time - startAt (start st) time < duration c ->
  exists pose cache,
    frame c time st
    = (pose,
       {| start := Some (startAt (start st) time);
          previousCameraPosition := cache |},
       None).
Proof.
  intros Hel; unfold frame.
  pose proof (animationPhase_running _ _ Hel) as Hlt.
  destruct (JS.eqb (animationPhase c (start st) time) 1) eqn:E.
  - apply eqb_true in E; lra.
  - unfold Utils.computeCameraPosition; cbv zeta.
    match goal with
    | |- exists pose cache, (?p, {| start := _; previousCameraPosition := ?k |}, _) = _ =>
        exists p, k
    end.
    reflexivity.
Qed.

Lemma startAt_started (s0 time : R) : s0 <> 0 -> startAt (Some s0) time = s0.
Proof.
  intros Hs; unfold startAt.
  apply truthy_true in Hs; now rewrite Hs.
Qed.

(** From a started driver, the run renders one pose per tick up to and
    including the first tick at which the duration has elapsed, and
    resolves there. *)
Lemma run_started (pre : list R) :
  forall (s0 : R) (cache : option LngLat) (t : R) (post : list R),
    s0 <> 0 ->
    (forall u, In u pre -> u - s0 < duration c) ->
    t - s0 >= duration c ->
    exists poses final st',
      run c (pre ++ t :: post)
        {| start := Some s0; previousCameraPosition := cache |}
      = (poses ++ [final], st',
         Some {| bearing := pose_bearing final;
                 altitude := pose_altitude final |})
      /\ length poses = length pre
      /\ pose_altitude final = endAltitude c
      /\ pose_bearing final = endBearing c.
Proof.
  induction pre as [| u pre IH]; intros s0 cache t post Hs Hpre Ht.
  - destruct (frame_done t {| start := Some s0; previousCameraPosition := cache |})
      as (pose & cache' & Hf & Ha & Hb & _).
    { cbn [start]; rewrite startAt_started; assumption. }
    exists [], pose; eexists; simpl; rewrite Hf.
    repeat split; assumption.
  - destruct (frame_running u {| start := Some s0; previousCameraPosition := cache |})
      as (pose & cache' & Hf).
    { cbn [start]; rewrite startAt_started by assumption.
      apply Hpre; now left. }
    cbn [start] in Hf; rewrite startAt_started in Hf by assumption.
    destruct (IH s0 cache' t post Hs) as (poses & final & st' & Hr & Hl & Ha & Hb).
    { intros v Hv; apply Hpre; now right. }
    { exact Ht. }
    exists (pose :: poses), final, st'.
    simpl; rewrite Hf, Hr; simpl.
    repeat split; try assumption; now rewrite Hl.
Qed.

End FlyInDriver.

(** C7. With [startAltitude = 3000000], [endAltitude = 1000] and
    [duration = 7000]: the phase of every frame is at most 1; a frame whose
    elapsed time has reached the duration has phase 1, applies an altitude of
    exactly 1000 and resolves with its own bearing and altitude; a frame
    before that does not resolve; and the run over the delivered timestamps
    resolves at the first one whose elapsed time has reached the duration. *)
Theorem flyInAndRotate_lands (c : FlyIn.Config) :
  FlyIn.startAltitude c = 3000000 ->
  FlyIn.endAltitude c = 1000 ->
  FlyIn.duration c = 7000 ->
  (forall s time, FlyIn.animationPhase c s time <= 1)
  /\ (forall time st,
         time - FlyIn.startAt (FlyIn.start st) time >= 7000 ->
         FlyIn.animationPhase c (FlyIn.start st) time = 1
         /\ exists pose st',
             FlyIn.frame c time st
             = (pose, st',
                Some {| FlyIn.bearing := FlyIn.pose_bearing pose;
                        FlyIn.altitude := 1000 |})
             /\ FlyIn.pose_altitude pose = 1000)
  /\ (forall time st,
         time - FlyIn.startAt (FlyIn.start st) time < 7000 ->
         snd (FlyIn.frame c time st) = None)
  /\ (forall t0 pre t post cache,
         t0 <> 0 ->
         (forall u, In u pre -> u - t0 < 7000) ->
         t - t0 >= 7000 ->
         exists poses final st',
           FlyIn.run c (t0 :: pre ++ t :: post) (FlyIn.initial cache)
           = (poses ++ [final], st',
              Some {| FlyIn.bearing := FlyIn.pose_bearing final;
                      FlyIn.altitude := 1000 |})
           /\ length poses = S (length pre)
           /\ FlyIn.pose_altitude final = 1000).
Proof.
  intros Hstart Hend Hdur.
  assert (Hpos : 0 < FlyIn.duration c) by (rewrite Hdur; lra).
  split; [| split; [| split]].
  - intros s time; apply animationPhase_le_1.
  - intros time st Hel; rewrite <- Hdur in Hel; split.
    + now apply animationPhase_done.
    + destruct (frame_done c Hpos time st Hel) as (pose & cache & Hf & Ha & _).
      rewrite Hend in Ha.
      exists pose; eexists; split; [| exact Ha].
      rewrite Hf, Ha; reflexivity.
  - intros time st Hel; rewrite <- Hdur in Hel.
    destruct (frame_running c Hpos time st Hel) as (pose & cache & Hf).
    now rewrite Hf.
  - intros t0 pre t post cache Ht0 Hpre Ht.
    destruct (frame_running c Hpos t0 (FlyIn.initial cache))
      as (pose0 & cache0 & Hf0).
    { simpl; lra. }
    simpl in Hf0.
    destruct (run_started c Hpos pre t0 cache0 t post Ht0)
      as (poses & final & st' & Hr & Hl & Ha & _).
    { intros u Hu; rewrite Hdur; now apply Hpre. }
    { rewrite Hdur; exact Ht. }
    rewrite Hend in Ha.
    exists (pose0 :: poses), final, st'.
    simpl; rewrite Hf0, Hr, Ha; simpl.
    split; [reflexivity |]; split; [now rewrite Hl | reflexivity].
Qed.

(** C7, on the seven-second fly-in with frames at 16, 3000, 7016 and
    7032 ms. *)
Lemma flyInAndRotate_lands_spaceView :
  (FlyIn.startAltitude Examples.spaceView = 3000000
   /\ FlyIn.endAltitude Examples.spaceView = 1000
   /\ FlyIn.duration Examples.spaceView = 7000)
  /\ exists poses final st',
      FlyIn.run Examples.spaceView [16; 3000; 7016; 7032] (FlyIn.initial None)
      = (poses ++ [final], st',
         Some {| FlyIn.bearing := FlyIn.pose_bearing final;
                 FlyIn.altitude := 1000 |})
      /\ length poses = 2%nat
      /\ FlyIn.pose_altitude final = 1000.
Proof.
  split; [repeat split; reflexivity |].
  refine (proj2 (proj2 (proj2
            (flyInAndRotate_lands Examples.spaceView eq_refl eq_refl eq_refl)))
            16 [3000] 7016 [7032] None _ _ _).
  - lra.
  - intros u [<- | []]; lra.
  - lra.
Defined.

(** ** The path-follow driver: the turn block *)

Section Turn.
Import PathFollow.

Variables (itv : BearingInterval) (phase : R) (i : nat).

(** Before the ease window the bearing is the one of the interval. *)
Lemma turn_before_window (nextBearing : option R) :
  phase < lRangeRatio itv -> phase < rRatio itv ->
  turn itv nextBearing phase i = (i, Some (bearing itv)).
Proof.
  intros Hwin Hend; unfold turn.
  apply leb_false in Hend; rewrite Hend.
  destruct nextBearing as [nb |]; [| reflexivity].
  apply leb_false in Hwin; rewrite Hwin.
  now rewrite andb_false_r.
Qed.

(** Inside the ease window, toward a next bearing other than 0, the bearing
    is the current one plus the shortest signed turn scaled by the position
    in the window. *)
Lemma turn_in_window (nb : R) :
  nb <> 0 -> lRangeRatio itv <= phase < rRatio itv ->
  turn itv (Some nb) phase i
  = (i, Some (bearing itv
              + Utils.normalizeBearing (bearing itv) nb
                * ((phase - lRangeRatio itv) / (rRatio itv - lRangeRatio itv)))).
Proof.
  intros Hnb [Hwin Hend]; unfold turn.
  assert (E1 : JS.leb (rRatio itv) phase = false) by now apply leb_false.
  assert (E2 : JS.truthy nb = true) by now apply truthy_true.
  assert (E3 : JS.ltb phase (rRatio itv) = true) by now apply ltb_true.
  assert (E4 : JS.leb (lRangeRatio itv) phase = true) by now apply leb_true.
  now rewrite E1, E2, E3, E4.
Qed.

(** Inside the ease window, a next bearing of exactly 0 is taken for a
    missing one: the bearing stays the one of the interval. *)
Lemma turn_in_window_north :
  phase < rRatio itv ->
  turn itv (Some 0) phase i = (i, Some (bearing itv)).
Proof.
  intros Hend; unfold turn.
  apply leb_false in Hend; rewrite Hend, truthy_zero; reflexivity.
Qed.

(** Without a next interval the bearing stays the one of the interval. *)
Lemma turn_last_interval :
  phase < rRatio itv -> turn itv None phase i = (i, Some (bearing itv)).
Proof.
  intros Hend; unfold turn.
  apply leb_false in Hend; now rewrite Hend.
Qed.

(** Once the phase has reached the end ratio the index advances and the
    bearing is the one of the next interval. *)
Lemma turn_at_end (nextBearing : option R) :
  rRatio itv <= phase ->
  turn itv nextBearing phase i = (S i, nextBearing).
Proof.
  intros Hend; unfold turn.
  apply leb_true in Hend; now rewrite Hend.
Qed.

(** The index never moves back and moves by at most one. *)
Lemma turn_index (nextBearing : option R) :
  fst (turn itv nextBearing phase i) = i
  \/ (fst (turn itv nextBearing phase i) = S i /\ rRatio itv <= phase).
Proof.
  unfold turn.
  destruct (JS.leb (rRatio itv) phase) eqn:E.
  - right; split; [reflexivity | now apply leb_true].
  - left; destruct nextBearing as [nb |]; [| reflexivity].
    destruct (JS.truthy nb && JS.ltb phase (rRatio itv)
              && JS.leb (lRangeRatio itv) phase); reflexivity.
Qed.

End Turn.

Lemma normalizeBearing_90_0 : Utils.normalizeBearing 90 0 = -90.
Proof.
  unfold Utils.normalizeBearing.
  rewrite (rem_bracket 90 360 90 0) by lra.
  rewrite (rem_bracket (90 + 360) 360 90 1) by lra.
  rewrite (rem_bracket 0 360 0 0) by lra.
  rewrite (rem_bracket (0 + 360) 360 0 1) by lra.
  rewrite (rem_bracket (0 - 90 + 360) 360 270 0) by lra.
  destruct (JS.leb (Rabs 270) (Rabs (270 - 360))) eqn:E; [| lra].
  apply leb_true in E.
  rewrite (Rabs_pos_eq 270) in E by lra.
  rewrite (Rabs_left (270 - 360)) in E by lra. lra.
Qed.

(** The scheduler does produce a bearing of exactly 0: it is the forward
    azimuth between two vertices on one meridian, the second to the north. *)
Lemma getBearing_due_north (lng0 lat1 lat2 : R) :
  lat1 < lat2 < lat1 + 180 ->
  Utils.getBearing (lng0, lat1) (lng0, lat2) = 0.
Proof.
  intros [Hlo Hhi]; unfold Utils.getBearing; cbn [fst snd].
  pose proof PI_RGT_0 as HPI.
  replace ((lng0 - lng0) * (PI / 180)) with 0 by ring.
  rewrite sin_0, cos_0, Rmult_0_l, Rmult_1_r.
  replace (cos (lat1 * (PI / 180)) * sin (lat2 * (PI / 180))
           - sin (lat1 * (PI / 180)) * cos (lat2 * (PI / 180)))
    with (sin (lat2 * (PI / 180) - lat1 * (PI / 180)))
    by (rewrite sin_minus; ring).
  assert (Hsin : 0 < sin (lat2 * (PI / 180) - lat1 * (PI / 180))).
  { apply sin_gt_0; nra. }
  unfold JS.atan2.
  destruct (Rlt_dec 0 (sin (lat2 * (PI / 180) - lat1 * (PI / 180))));
    [| contradiction].
  unfold Rdiv at 1; rewrite Rmult_0_l, atan_0.
  apply (rem_bracket _ 360 0 1); lra.
Qed.

(** ** The path-follow driver: frames *)

Lemma degreesToRadians_0 : GreatCircle.degreesToRadians 0 = 0.
Proof. unfold GreatCircle.degreesToRadians; field. Qed.

Lemma degreesToRadians_90 : GreatCircle.degreesToRadians 90 = PI / 2.
Proof. unfold GreatCircle.degreesToRadians; field. Qed.

(** The great circle through (0 N, 0 E) and (0 N, 90 E) is the equator. *)
Lemma nNormSq_equator : GreatCircle.nNormSq 0 0 0 90 = 1.
Proof.
  unfold GreatCircle.nNormSq, GreatCircle.latLonToCartesian.
  rewrite degreesToRadians_0, degreesToRadians_90.
  rewrite cos_0, sin_0, cos_PI2, sin_PI2.
  unfold GreatCircle.cross, GreatCircle.dot; ring.
Qed.

Lemma projectPointToGreatCircle_ok (latA lonA latB lonB latC lonC : R) :
  1e-12 <= GreatCircle.nNormSq latA lonA latB lonB ->
  exists point,
    GreatCircle.projectPointToGreatCircle latA lonA latB lonB latC lonC
    = Ok point.
Proof.
  intros Hn; unfold GreatCircle.projectPointToGreatCircle.
  apply ltb_false in Hn; unfold GreatCircle.nNormSq in Hn; rewrite Hn.
  destruct (GreatCircle.CprimeNormalized _ _ _) as [[x y] z].
  eexists; reflexivity.
Qed.

Lemma last_nth_error {A : Type} (xs : list A) :
  forall (i : nat) (x d : A),
    nth_error xs i = Some x -> S i = length xs -> last xs d = x.
Proof.
  induction xs as [| y ys IH]; intros i x d Hnth Hlen; [discriminate |].
  destruct i as [| j].
  - destruct ys; [| discriminate]. simpl in Hnth. now inversion Hnth.
  - simpl in Hnth, Hlen. destruct ys as [| z zs]; [discriminate |].
    change (last (y :: z :: zs) d) with (last (z :: zs) d).
    apply (IH j); [exact Hnth | now inversion Hlen].
Qed.

Section PathFollowFrames.
Import PathFollow.
Context {T : Turf}.
Variable c : Config.

(** A frame is terminal exactly when its phase exceeds 1. *)
Lemma frame_resolved_iff (st : State) :
  frame c st = Resolved <-> animationPhase c (index st) > 1.
Proof.
  unfold frame.
  destruct (JS.gtb (animationPhase c (index st)) 1) eqn:E.
  - apply gtb_true in E; split; [intros _; exact E | reflexivity].
  - apply gtb_false in E; split; [| lra].
    match goal with
    | |- match ?step with _ => _ end = _ -> _ =>
        destruct step as [[e st'] | msg]; discriminate
    end.
Qed.

(** A frame that is not terminal, has its interval and can project onto the
    interval's great circle renders: it advances the frame counter by one
    and takes its interval index and its bearing from the turn block. *)
Lemma frame_rendered (st : State) (itv : BearingInterval) (a b : Position) :
  animationPhase c (index st) <= 1 ->
  at_pred (bearingList c) (nextBearingIndex st) = Ok itv ->
  nth_error (coordinates c) (l itv) = Some a ->
  nth_error (coordinates c) (r itv) = Some b ->
  1e-12 <= GreatCircle.nNormSq (snd a) (fst a) (snd b) (fst b) ->
  exists e,
    frame c st
    = Rendered e
        {| index := S (index st);
           nextBearingIndex :=
             fst (turn itv (nextBearingOf c st) (animationPhase c (index st))
                    (nextBearingIndex st)) |}
    /\ emitted_bearing e
       = snd (turn itv (nextBearingOf c st) (animationPhase c (index st))
                (nextBearingIndex st))
    /\ reveal e = animationPhase c (index st).
Proof.
  intros Hphase Hitv Ha Hb Hn; unfold frame.
  apply gtb_false in Hphase; rewrite Hphase, Hitv; cbn [bind].
  unfold at_index; rewrite Ha, Hb; cbn [bind].
  destruct (projectPointToGreatCircle_ok _ _ _ _
              (snd (turf_along (coordinates c)
                      (distance c * animationPhase c (index st))))
              (fst (turf_along (coordinates c)
                      (distance c * animationPhase c (index st)))) Hn)
    as [point Hpoint].
  rewrite Hpoint; cbn [bind].
  destruct (turn itv (nextBearingOf c st) (animationPhase c (index st))
              (nextBearingIndex st)) as [nbi bearing'].
  eexists; split; [reflexivity |]; split; reflexivity.
Qed.

(** Without an interval for the cursor a frame that is not terminal throws:
    nothing is rendered and no further frame is scheduled. *)
Lemma frame_off_schedule (st : State) :
  animationPhase c (index st) <= 1 ->
  (length (bearingList c) < nextBearingIndex st)%nat ->
  frame c st = Raised "TypeError: undefined value".
Proof.
  intros Hphase Hlen; unfold frame.
  apply gtb_false in Hphase; rewrite Hphase.
  destruct (nextBearingIndex st) as [| j]; [lia |].
  unfold at_pred, at_index.
  assert (Hnone : nth_error (bearingList c) j = None)
    by (apply nth_error_None; lia).
  now rewrite Hnone.
Qed.

(** Conversely, what a rendered frame emits comes from the turn block. *)
Lemma frame_turn (st st' : State) (e : Emission) :
  frame c st = Rendered e st' ->
  exists itv,
    at_pred (bearingList c) (nextBearingIndex st) = Ok itv
    /\ turn itv (nextBearingOf c st) (animationPhase c (index st))
         (nextBearingIndex st)
       = (nextBearingIndex st', emitted_bearing e)
    /\ index st' = S (index st)
    /\ animationPhase c (index st) <= 1.
Proof.
  unfold frame.
  destruct (JS.gtb (animationPhase c (index st)) 1) eqn:E; [discriminate |].
  apply gtb_false in E.
  destruct (at_pred (bearingList c) (nextBearingIndex st)) as [itv | msg];
    [| discriminate].
  cbn [bind].
  destruct (at_index (coordinates c) (l itv)) as [a | msg]; [| discriminate].
  destruct (at_index (coordinates c) (r itv)) as [b | msg]; [| discriminate].
  cbn [bind].
  destruct (GreatCircle.projectPointToGreatCircle _ _ _ _ _ _) as [point | msg];
    [| discriminate].
  cbn [bind].
  destruct (turn itv (nextBearingOf c st) (animationPhase c (index st))
              (nextBearingIndex st)) as [nbi bearing'] eqn:Eturn.
  intros Hr; inversion Hr; subst; cbn.
  exists itv; repeat split; assumption.
Qed.

(** A rendered frame with a bearing has a camera position. *)
Lemma frame_position (st st' : State) (e : Emission) (b : R) :
  frame c st = Rendered e st' ->
  emitted_bearing e = Some b ->
  exists p, correctedPosition e = Some p.
Proof.
  unfold frame.
  destruct (JS.gtb (animationPhase c (index st)) 1); [discriminate |].
  destruct (at_pred (bearingList c) (nextBearingIndex st)) as [itv | msg];
    [| discriminate].
  cbn [bind].
  destruct (at_index (coordinates c) (l itv)) as [a0 | msg]; [| discriminate].
  destruct (at_index (coordinates c) (r itv)) as [b0 | msg]; [| discriminate].
  cbn [bind].
  destruct (GreatCircle.projectPointToGreatCircle _ _ _ _ _ _) as [point | msg];
    [| discriminate].
  cbn [bind].
  destruct (turn itv (nextBearingOf c st) (animationPhase c (index st))
              (nextBearingIndex st)) as [nbi bearing'].
  intros Hr Hb; inversion Hr; subst; cbn in Hb |- *.
  rewrite Hb; eexists; reflexivity.
Qed.

End PathFollowFrames.

(** C4 (the frame at which the code departs from it).  On the track that
    runs east and then turns due north, the frame at phase 0.45 lies in the
    ease window [[0.4, 0.5)] of the first interval and a next interval
    exists, with bearing 0; the blend toward it is
    [90 + normalizeBearing 90 0 * 0.5 = 45], but the frame emits the bearing
    90 of the current interval: [nextBearing && ...] reads the bearing 0 as
    a missing interval. *)
Theorem animatePath_north_turn_not_blended :
  let T := Examples.fixedTurf 0.1 (45, 0) [] in
  let c := Examples.northTurn in
  let st := {| PathFollow.index := 1; PathFollow.nextBearingIndex := 1 |} in
  let itv :=
    {| PathFollow.l := 0; PathFollow.lRatio := 0; PathFollow.r := 1;
       PathFollow.rRatio := 0.5; PathFollow.bearing := 90 |} in
  at_pred (PathFollow.bearingList c) (PathFollow.nextBearingIndex st) = Ok itv
  /\ PathFollow.nextBearingOf c st = Some 0
  /\ PathFollow.animationPhase c (PathFollow.index st) = 0.45
  /\ PathFollow.lRangeRatio itv <= 0.45 < PathFollow.rRatio itv
  /\ (exists e st',
         PathFollow.frame c st = PathFollow.Rendered e st'
         /\ PathFollow.emitted_bearing e = Some 90
         /\ PathFollow.nextBearingIndex st' = 1%nat)
  /\ PathFollow.bearing itv
     + Utils.normalizeBearing (PathFollow.bearing itv) 0
       * ((0.45 - PathFollow.lRangeRatio itv)
          / (PathFollow.rRatio itv - PathFollow.lRangeRatio itv))
     = 45.
Proof.
  intros T c st itv.
  assert (Hphase : PathFollow.animationPhase c (PathFollow.index st) = 0.45).
  { unfold PathFollow.animationPhase, PathFollow.distance; simpl; lra. }
  assert (Hwin : PathFollow.lRangeRatio itv <= 0.45 < PathFollow.rRatio itv).
  { unfold PathFollow.lRangeRatio, PathFollow.ratio; simpl; lra. }
  split; [reflexivity |].
  split; [reflexivity |].
  split; [exact Hphase |].
  split; [exact Hwin |].
  split.
  - destruct (frame_rendered c st itv (0, 0) (90, 0)) as (e & Hf & Hb & _).
    + rewrite Hphase; lra.
    + reflexivity.
    + reflexivity.
    + reflexivity.
    + cbn [fst snd]; rewrite nNormSq_equator; lra.
    + rewrite Hphase in Hf, Hb.
      change (PathFollow.nextBearingOf c st) with (Some 0) in Hf, Hb.
      rewrite turn_in_window_north in Hf, Hb by apply Hwin.
      eexists; eexists; split; [exact Hf |].
      split; [exact Hb | reflexivity].
  - simpl PathFollow.bearing; rewrite normalizeBearing_90_0.
    unfold PathFollow.lRangeRatio, PathFollow.ratio; simpl; lra.
Qed.

(** ** The path-follow driver: progress and termination *)

(** [Math.ceil] against the integer part: they differ by one except at the
    integers. *)
Lemma ceil_Int_part (x : R) :
  JS.ceil x = (Int_part x + 1)%Z
  \/ (JS.ceil x = Int_part x /\ IZR (Int_part x) = x).
Proof.
  unfold JS.ceil.
  destruct (base_Int_part x) as [Hlo Hhi].
  destruct (Req_dec (IZR (Int_part x)) x) as [Heq | Hne].
  - right; split; [| exact Heq].
    rewrite (Int_part_between (- x) (- Int_part x)); [lia |].
    rewrite opp_IZR; lra.
  - left.
    rewrite (Int_part_between (- x) (- Int_part x - 1)); [lia |].
    rewrite minus_IZR, opp_IZR; lra.
Qed.

(** [Math.ceil x] is the integer in [[x, x + 1)]. *)
Lemma ceil_bounds (x : R) : x <= IZR (JS.ceil x) < x + 1.
Proof.
  unfold JS.ceil; rewrite opp_IZR.
  destruct (base_Int_part (- x)) as [Hlo Hhi]; lra.
Qed.

Section PathFollowProgress.
Import PathFollow.
Context {T : Turf}.
Variable c : Config.
Hypothesis speed_pos : 0 < speed c.
Hypothesis distance_pos : 0 < distance c.

Lemma framesOnTrack_pos : 0 < framesOnTrack c.
Proof.
  unfold framesOnTrack, Rdiv; apply Rmult_lt_0_compat; [lra |].
  now apply Rinv_0_lt_compat.
Qed.

Lemma phase_gt_1_iff (k : nat) :
  animationPhase c k > 1 <-> INR k > framesOnTrack c.
Proof.
  unfold animationPhase, framesOnTrack.
  assert (HL : 0 < distance c * 1000) by lra.
  split; intros Hk.
  - apply Rmult_lt_reg_r with (speed c); [exact speed_pos |].
    unfold Rdiv; rewrite Rmult_assoc, Rinv_l by lra.
    apply Rmult_lt_compat_r with (r := distance c * 1000) in Hk; [| exact HL].
    unfold Rdiv in Hk; rewrite Rmult_assoc, Rinv_l in Hk by lra. lra.
  - apply Rmult_lt_reg_r with (distance c * 1000); [exact HL |].
    unfold Rdiv; rewrite Rmult_assoc, Rinv_l by lra.
    apply Rmult_lt_compat_r with (r := speed c) in Hk; [| exact speed_pos].
    unfold Rdiv in Hk; rewrite Rmult_assoc, Rinv_l in Hk by lra. lra.
Qed.

Lemma Int_part_framesOnTrack_nonneg : (0 <= Int_part (framesOnTrack c))%Z.
Proof.
  pose proof framesOnTrack_pos as Hpos.
  destruct (base_Int_part (framesOnTrack c)) as [_ Hhi].
  assert (Hlt : IZR (-1) < IZR (Int_part (framesOnTrack c))) by lra.
  apply lt_IZR in Hlt; lia.
Qed.

(** The phase exceeds 1 from frame counter [floor (L / speed) + 1] on, and
    not before. *)
Lemma phase_gt_1_from (k : nat) :
  animationPhase c k > 1
  <-> (Z.to_nat (Int_part (framesOnTrack c) + 1) <= k)%nat.
Proof.
  rewrite phase_gt_1_iff, INR_IZR_INZ.
  pose proof Int_part_framesOnTrack_nonneg as Hnn.
  destruct (base_Int_part (framesOnTrack c)) as [Hlo Hhi].
  split; intros Hk.
  - assert (Hlt : IZR (Int_part (framesOnTrack c)) < IZR (Z.of_nat k)) by lra.
    apply lt_IZR in Hlt; lia.
  - assert (Hle : (Int_part (framesOnTrack c) + 1 <= Z.of_nat k)%Z) by lia.
    apply IZR_le in Hle; rewrite plus_IZR in Hle; lra.
Qed.

(** The phase grows strictly with the frame counter. *)
Lemma phase_increasing (k : nat) :
  animationPhase c k < animationPhase c (S k).
Proof.
  unfold animationPhase; rewrite S_INR.
  assert (HL : 0 < / (distance c * 1000)).
  { apply Rinv_0_lt_compat; lra. }
  unfold Rdiv; apply Rmult_lt_compat_r; [exact HL | nra].
Qed.

Hypothesis schedule_ok : wellFormed c.

Lemma onSchedule_initial : onSchedule c initial.
Proof.
  destruct schedule_ok as (Hne & _); split; [simpl; lia |].
  intros _; simpl; destruct (bearingList c); [contradiction | simpl; lia].
Qed.

(** A frame on schedule that is not terminal renders, and leaves the
    variables on schedule. *)
Lemma frame_on_schedule (st : State) :
  onSchedule c st -> animationPhase c (index st) <= 1 ->
  exists e st',
    frame c st = Rendered e st'
    /\ index st' = S (index st)
    /\ onSchedule c st'.
Proof.
  intros [Hone Hin] Hphase; specialize (Hin Hphase).
  destruct schedule_ok as (_ & Hitvs & Hlast).
  destruct (nextBearingIndex st) as [| j] eqn:Ej; [lia |].
  destruct (nth_error (bearingList c) j) as [itv |] eqn:Eitv.
  2: { apply nth_error_None in Eitv; lia. }
  destruct (Hitvs itv (nth_error_In _ _ Eitv)) as (a & b & Ha & Hb & Hn).
  destruct (frame_rendered c st itv a b Hphase) as (e & Hf & _); try assumption.
  { rewrite Ej; unfold at_pred, at_index; now rewrite Eitv. }
  eexists; eexists; split; [exact Hf |]; split; [reflexivity |].
  rewrite Ej.
  destruct (turn_index itv (animationPhase c (index st)) (S j)
              (nextBearingOf c st)) as [Hsame | [Hadv Hend]].
  - split; cbn [index nextBearingIndex].
    + rewrite Hsame; lia.
    + intros _; rewrite Hsame; exact Hin.
  - split; cbn [index nextBearingIndex].
    + rewrite Hadv; lia.
    + intros Hnext; rewrite Hadv.
      destruct (Nat.eq_dec (S j) (length (bearingList c))) as [Hl | Hl];
        [| lia].
      exfalso.
      pose proof (last_nth_error _ _ _ itv Eitv Hl) as Hitv.
      pose proof (Hlast itv) as H1; rewrite Hitv in H1.
      pose proof (phase_increasing (index st)); lra.
Qed.

(** From a state on schedule, the run renders every frame up to the first
    counter whose phase exceeds 1 and resolves there. *)
Lemma run_on_schedule (n : nat) :
  forall (st : State),
    onSchedule c st ->
    (index st + n = Z.to_nat (Int_part (framesOnTrack c) + 1))%nat ->
    (exists es, run c (S n) st = (es, Some Resolved) /\ length es = n)
    /\ (forall fuel, (fuel <= n)%nat -> snd (run c fuel st) = None).
Proof.
  induction n as [| n IH]; intros st Hinv Hidx.
  - split.
    + exists []; split; [| reflexivity].
      assert (Hres : frame c st = Resolved).
      { apply frame_resolved_iff, phase_gt_1_from; lia. }
      simpl; now rewrite Hres.
    + intros fuel Hfuel; destruct fuel; [reflexivity | lia].
  - assert (Hphase : animationPhase c (index st) <= 1).
    { destruct (Rle_dec (animationPhase c (index st)) 1) as [Hle | Hgt];
        [exact Hle |].
      assert (Hk : animationPhase c (index st) > 1) by lra.
      apply phase_gt_1_from in Hk; lia. }
    destruct (frame_on_schedule st Hinv Hphase) as (e & st' & Hf & Hi & Hinv').
    destruct (IH st' Hinv') as [(es & Hrun & Hlen) Hpending]; [lia |].
    split.
    + exists (e :: es); split; [| simpl; now rewrite Hlen].
      change (run c (S (S n)) st)
        with (match frame c st with
              | Resolved => ([], Some Resolved)
              | Raised msg => ([], Some (Raised msg))
              | Rendered e0 st0 =>
                  let '(es0, out) := run c (S n) st0 in (e0 :: es0, out)
              end).
      now rewrite Hf, Hrun.
    + intros fuel Hfuel; destruct fuel as [| fuel]; [reflexivity |].
      simpl; rewrite Hf.
      specialize (Hpending fuel ltac:(lia)).
      destruct (run c fuel st') as [es0 out]; exact Hpending.
Qed.

(** Before the end of its interval, or with a next interval to turn to,
    the turn block gives the frame a bearing. *)
Lemma turn_defined (itv : BearingInterval) (nextBearing : option R)
    (phase : R) (i : nat) :
  phase < rRatio itv \/ nextBearing <> None ->
  exists b, snd (turn itv nextBearing phase i) = Some b.
Proof.
  intros Hcase; unfold turn.
  destruct (JS.leb (rRatio itv) phase) eqn:E.
  - apply leb_true in E.
    destruct Hcase as [Hlt | Hnb]; [lra |].
    destruct nextBearing as [nb |]; [| contradiction].
    exists nb; reflexivity.
  - destruct nextBearing as [nb |]; [| eexists; reflexivity].
    destruct (JS.truthy nb && JS.ltb phase (rRatio itv)
              && JS.leb (lRangeRatio itv) phase);
      eexists; reflexivity.
Qed.

(** On schedule, a frame rendered before the phase has reached 1 has a
    bearing and a camera position. *)
Lemma frame_defined (st st' : State) (e : Emission) :
  onSchedule c st ->
  animationPhase c (index st) < 1 ->
  frame c st = Rendered e st' ->
  exists b p, emitted_bearing e = Some b /\ correctedPosition e = Some p.
Proof.
  intros [Hone Hin] Hphase Hf.
  destruct (frame_turn c st st' e Hf) as (itv & Hitv & Hturn & _ & Hle).
  specialize (Hin Hle).
  destruct schedule_ok as (_ & _ & Hlast).
  destruct (nextBearingIndex st) as [| j] eqn:Ej; [lia |].
  unfold at_pred, at_index in Hitv.
  destruct (nth_error (bearingList c) j) as [itv' |] eqn:Eitv;
    [| discriminate].
  inversion Hitv; subst itv'.
  assert (Hb : exists b, emitted_bearing e = Some b).
  { destruct (turn_defined itv (nextBearingOf c st)
                (animationPhase c (index st)) (S j)) as [b Hb].
    - destruct (Nat.eq_dec (S j) (length (bearingList c))) as [Hl | Hl].
      + left.
        pose proof (last_nth_error _ _ _ itv Eitv Hl) as Hitv'.
        pose proof (Hlast itv) as H1; rewrite Hitv' in H1; lra.
      + right; unfold nextBearingOf; rewrite Ej.
        destruct (nth_error (bearingList c) (S j)) eqn:En; [discriminate |].
        apply nth_error_None in En; lia.
    - rewrite Hturn in Hb; exists b; exact Hb. }
  destruct Hb as [b Hb].
  destruct (frame_position c st st' e b Hf Hb) as [p Hp].
  exists b, p; split; assumption.
Qed.

(** From a state on schedule, every frame of a run that is rendered before
    the phase has reached 1 has a bearing and a camera position. *)
Lemma run_defined (fuel : nat) :
  forall (st : State) (es : list Emission) (out : option Step),
    onSchedule c st ->
    run c fuel st = (es, out) ->
    forall k e,
      nth_error es k = Some e ->
      animationPhase c (index st + k) < 1 ->
      exists b p, emitted_bearing e = Some b /\ correctedPosition e = Some p.
Proof.
  induction fuel as [| fuel IH]; intros st es out Hinv Hrun k e Hk Hphase.
  - simpl in Hrun; inversion Hrun; subst; destruct k; discriminate.
  - simpl in Hrun.
    destruct (frame c st) as [| e0 st0 | msg] eqn:Hf.
    + inversion Hrun; subst; destruct k; discriminate.
    + destruct (frame_turn c st st0 e0 Hf) as (_ & _ & _ & Hi & Hle).
      destruct (frame_on_schedule st Hinv Hle) as (e1 & st1 & Hf1 & _ & Hinv1).
      rewrite Hf in Hf1; inversion Hf1; subst e1 st1.
      destruct (run c fuel st0) as [es0 out0] eqn:Hrun0.
      inversion Hrun; subst es out.
      destruct k as [| k].
      * simpl in Hk; inversion Hk; subst e0.
        rewrite Nat.add_0_r in Hphase.
        exact (frame_defined st st0 e Hinv Hphase Hf).
      * simpl in Hk.
        apply (IH st0 es0 out0 Hinv1 Hrun0 k e Hk).
        rewrite Hi; replace (S (index st) + k)%nat with (index st + S k)%nat
          by lia.
        exact Hphase.
    + inversion Hrun; subst; destruct k; discriminate.
Qed.

(** The phase is the frame counter over the number of frames on the
    track. *)
Lemma phase_as_ratio (k : nat) :
  animationPhase c k = INR k / framesOnTrack c.
Proof. unfold animationPhase, framesOnTrack; field; split; lra. Qed.

(** Before counter [ceil (L / speed)] the phase is below 1; at that counter
    it has reached 1. *)
Lemma phase_around_ceil :
  let n := Z.to_nat (JS.ceil (framesOnTrack c)) in
  (forall k, (k < n)%nat -> animationPhase c k < 1)
  /\ 1 <= animationPhase c n.
Proof.
  intros n.
  pose proof framesOnTrack_pos as Hx.
  destruct (ceil_bounds (framesOnTrack c)) as [Hlo Hhi].
  assert (Hc : (0 < JS.ceil (framesOnTrack c))%Z).
  { apply lt_IZR; lra. }
  assert (Hn : INR n = IZR (JS.ceil (framesOnTrack c))).
  { unfold n; rewrite INR_IZR_INZ, Z2Nat.id by lia; reflexivity. }
  split.
  - intros k Hk; rewrite phase_as_ratio.
    assert (Hlt : (Z.of_nat k + 1 <= JS.ceil (framesOnTrack c))%Z)
      by (unfold n in Hk; lia).
    apply IZR_le in Hlt; rewrite plus_IZR, <- INR_IZR_INZ in Hlt.
    apply Rmult_lt_reg_r with (framesOnTrack c); [exact Hx |].
    unfold Rdiv; rewrite Rmult_assoc, Rinv_l by lra; lra.
  - rewrite phase_as_ratio, Hn.
    apply Rmult_le_reg_r with (framesOnTrack c); [exact Hx |].
    unfold Rdiv; rewrite Rmult_assoc, Rinv_l by lra; lra.
Qed.

(** The first counter whose phase exceeds 1 is the one from which the phase
    exceeds 1. *)
Lemma first_terminal (m : nat) :
  animationPhase c m > 1 ->
  (forall k, (k < m)%nat -> animationPhase c k <= 1) ->
  m = Z.to_nat (Int_part (framesOnTrack c) + 1).
Proof.
  intros Hgt Hle.
  apply phase_gt_1_from in Hgt.
  destruct (Nat.eq_dec m (Z.to_nat (Int_part (framesOnTrack c) + 1)))
    as [Heq | Hne]; [exact Heq | exfalso].
  assert (Hlt : (Z.to_nat (Int_part (framesOnTrack c) + 1) < m)%nat) by lia.
  specialize (Hle _ Hlt).
  assert (Hk : animationPhase c (Z.to_nat (Int_part (framesOnTrack c) + 1)) > 1)
    by (apply phase_gt_1_from; lia).
  lra.
Qed.

End PathFollowProgress.


Lemma straightTrack_wellFormed : PathFollow.wellFormed Examples.straightTrack.
Proof.
  split; [discriminate |]; split.
  - intros itv [<- | []]; exists (0, 0), (90, 0).
    split; [reflexivity |]; split; [reflexivity |].
    cbn [fst snd]; rewrite nNormSq_equator; lra.
  - intros d; simpl; lra.
Qed.

Lemma straightTrack_frames :
  Int_part (PathFollow.framesOnTrack (T := Examples.fixedTurf 1 (45, 0) [])
              Examples.straightTrack)
  = 10%Z.
Proof.
  apply Int_part_between.
  unfold PathFollow.framesOnTrack, PathFollow.distance; simpl; lra.
Qed.

Lemma briskTrack_wellFormed : PathFollow.wellFormed Examples.briskTrack.
Proof.
  split; [discriminate |]; split.
  - intros itv [<- | []]; exists (0, 0), (90, 0).
    split; [reflexivity |]; split; [reflexivity |].
    cbn [fst snd]; rewrite nNormSq_equator; lra.
  - intros d; simpl; lra.
Qed.

Lemma briskTrack_ceil :
  JS.ceil (PathFollow.framesOnTrack (T := Examples.fixedTurf 1 (45, 0) [])
             Examples.briskTrack)
  = 4%Z.
Proof.
  unfold JS.ceil.
  rewrite (Int_part_between _ (-4)); [reflexivity |].
  unfold PathFollow.framesOnTrack, PathFollow.distance; simpl; lra.
Qed.



(** ** The bearing scheduler *)

Section SchedulerFacts.
Import PathFollow Scheduler.
Context {T : Turf}.
Variable track : list Position.

Lemma contiguous_snoc (init : list BearingInterval) :
  forall a b,
    contiguous (init ++ [a]) -> r a = l b -> rRatio a = lRatio b ->
    contiguous ((init ++ [a]) ++ [b]).
Proof.
  induction init as [| x init IH]; intros a b Hc Hr Hratio.
  - simpl; auto.
  - destruct init as [| y init'].
    + simpl in *; destruct Hc as (H1 & H2 & _); auto.
    + simpl in Hc; destruct Hc as (H1 & H2 & Hrest).
      change (contiguous (x :: y :: ((init' ++ [a]) ++ [b]))).
      simpl; repeat split; try assumption.
      apply (IH a b); assumption.
Qed.

(** What a visit that does not throw leaves behind: either nothing changes,
    or one interval is appended that starts at the last boundary and ends
    at the coordinate visited. *)
Lemma visit_ok (w w' : Walk) (coordinate : Position) (index : nat) :
  visit track w coordinate index = Ok w' ->
  w' = w
  \/ exists lRatio' rRatio' bearing',
      ratioAt track (lastIndex w) = Ok lRatio'
      /\ ratioAt track index = Ok rRatio'
      /\ w' = {| simplifiedIndex := S (simplifiedIndex w);
                 lastIndex := index;
                 schedule :=
                   schedule w
                   ++ [ {| l := lastIndex w; lRatio := lRatio';
                           r := index; rRatio := rRatio';
                           bearing := bearing' |} ] |}.
Proof.
  unfold visit, ratioAt; destruct coordinate as [lng0 lat0].
  destruct (at_index (simplified track) (simplifiedIndex w)) as [[sLng sLat] | msg];
    [| discriminate].
  cbn [bind].
  destruct (JS.eqb lng0 sLng && JS.eqb lat0 sLat).
  2: { intros Hw; inversion Hw; now left. }
  destruct (at_index track (lastIndex w)) as [lastC | msg]; [| discriminate].
  cbn [bind].
  destruct (Utils.getLineRatio track lastC) as [lLen | msg]; [| discriminate].
  cbn [bind].
  destruct (at_index track index) as [thisC | msg]; [| discriminate].
  cbn [bind].
  destruct (Utils.getLineRatio track thisC) as [rLen | msg]; [| discriminate].
  cbn [bind].
  destruct (at_pred (simplified track) (simplifiedIndex w)) as [prevV | msg];
    [| discriminate].
  cbn [bind].
  intros Hw; inversion Hw; right.
  eexists; eexists; eexists; repeat split.
Qed.

Lemma visit_joined (w w' : Walk) (coordinate : Position) (index : nat) :
  joined track w -> visit track w coordinate index = Ok w' -> joined track w'.
Proof.
  intros (Hc & Hempty & Hfirst & Hlast) Hv.
  destruct (visit_ok _ _ _ _ Hv) as [-> | (lr & rr & b & Hl & Hr & ->)];
    [exact (conj Hc (conj Hempty (conj Hfirst Hlast))) |].
  split; [| split; [| split]]; cbn [schedule lastIndex].
  - destruct Hlast as [-> | (init & a & Hs & Hra & Hratio)]; [exact I |].
    rewrite Hs in Hc |- *.
    apply contiguous_snoc; cbn [l lRatio]; [exact Hc | exact Hra |].
    rewrite Hra, Hl in Hratio; now inversion Hratio.
  - intros Hnil; destruct (schedule w); discriminate.
  - intros a rest Hs.
    destruct (schedule w) as [| a0 rest0] eqn:Es.
    + simpl in Hs; inversion Hs; subst; cbn [l lRatio].
      rewrite (Hempty eq_refl) in Hl |- *; split; [reflexivity | exact Hl].
    + simpl in Hs; inversion Hs; subst; now apply (Hfirst a rest0).
  - right; eexists; eexists; split; [reflexivity |].
    cbn [r rRatio]; split; [reflexivity | exact Hr].
Qed.

Lemma forEach_joined (xs : list Position) :
  forall index w w',
    joined track w -> forEach track xs index w = Ok w' -> joined track w'.
Proof.
  induction xs as [| x xs IH]; intros index w w' Hj Hf.
  - simpl in Hf; inversion Hf; now subst.
  - simpl in Hf.
    destruct (visit track w x index) as [w1 | msg] eqn:Hv; [| discriminate].
    cbn [bind] in Hf.
    apply (IH (S index) w1 w'); [| exact Hf].
    now apply (visit_joined w w1 x index).
Qed.

Lemma initData_joined (intervals : list BearingInterval) :
  initData track = Ok intervals ->
  exists w, joined track w /\ schedule w = intervals.
Proof.
  unfold initData; intros Hi.
  destruct (forEach track track 0
              {| simplifiedIndex := 1; lastIndex := 0; schedule := [] |})
    as [w | msg] eqn:Hf; [| discriminate].
  cbn [bind] in Hi; inversion Hi; subst.
  exists w; split; [| reflexivity].
  refine (forEach_joined track 0 _ w _ Hf).
  split; [exact I |]; split; [reflexivity |]; split; [| now left].
  intros a rest Hs; discriminate.
Qed.

(** When [initData] returns, the intervals of its schedule are contiguous:
    each starts at the index and at the ratio where the one before ends. *)
Lemma initData_contiguous (intervals : list BearingInterval) :
  initData track = Ok intervals -> contiguous intervals.
Proof.
  intros Hi; destruct (initData_joined _ Hi) as (w & Hj & <-); apply Hj.
Qed.

(** When [initData] returns, the first interval starts at index 0 and its
    start ratio is the one computed for the first coordinate: 0 as soon as
    the geometry library measures an empty slice as 0. *)
Lemma initData_first (a : BearingInterval) (rest : list BearingInterval) :
  initData track = Ok (a :: rest) ->
  l a = 0%nat
  /\ ratioAt track 0 = Ok (lRatio a)
  /\ (forall first,
         nth_error track 0 = Some first ->
         turf_length (turf_lineSlice first first track) = 0 ->
         lRatio a = 0).
Proof.
  intros Hi; destruct (initData_joined _ Hi) as (w & Hj & Hs).
  destruct Hj as (_ & _ & Hfirst & _).
  destruct (Hfirst a rest Hs) as [Hl Hr].
  split; [exact Hl |]; split; [exact Hr |].
  intros first Hnth Hzero.
  unfold ratioAt, Utils.getLineRatio, at_index in Hr.
  rewrite Hnth in Hr; cbn [bind] in Hr; rewrite Hzero in Hr.
  inversion Hr; unfold Rdiv; now rewrite Rmult_0_l.
Qed.

Lemma selection_tail {A : Type} (x : A) (kept line : list A) :
  selection (x :: kept) line -> selection kept line.
Proof.
  intros Hs; remember (x :: kept) as k eqn:Ek.
  induction Hs as [line | y kept' line Hs IH | y kept' line Hs IH].
  - discriminate.
  - inversion Ek; subst; now apply selection_drop.
  - apply selection_drop; now apply IH.
Qed.

Lemma selection_empty {A : Type} (kept : list A) :
  selection kept [] -> kept = [].
Proof. intros Hs; inversion Hs; reflexivity. Qed.

Lemma skipn_nth_error {A : Type} (xs : list A) :
  forall i x, nth_error xs i = Some x -> skipn i xs = x :: skipn (S i) xs.
Proof.
  induction xs as [| y ys IH]; intros [| i] x Hnth; try discriminate.
  - simpl in Hnth; inversion Hnth; reflexivity.
  - simpl in Hnth; exact (IH i x Hnth).
Qed.

(** What a visit that does not throw does to the cursor: it finds a vertex
    under the cursor, and either the coordinate is that vertex, the cursor
    moves on and the coordinate becomes the last boundary of a schedule
    that is not empty, or nothing changes. *)
Lemma visit_cursor (w w' : Walk) (coordinate : Position) (index : nat) :
  visit track w coordinate index = Ok w' ->
  exists vertex,
    nth_error (simplified track) (simplifiedIndex w) = Some vertex
    /\ ((coordinate = vertex
         /\ simplifiedIndex w' = S (simplifiedIndex w)
         /\ lastIndex w' = index
         /\ schedule w' <> [])
        \/ (coordinate <> vertex /\ w' = w)).
Proof.
  intros Hv; pose proof (visit_ok _ _ _ _ Hv) as Hok; revert Hv.
  unfold visit, at_index; destruct coordinate as [lng0 lat0].
  destruct (nth_error (simplified track) (simplifiedIndex w))
    as [[sLng sLat] |]; [| discriminate].
  cbn [bind]; exists (sLng, sLat); split; [reflexivity |].
  destruct (JS.eqb lng0 sLng) eqn:Elng; [destruct (JS.eqb lat0 sLat) eqn:Elat |];
    cbn [andb] in Hv.
  - apply eqb_true in Elng, Elat; subst; left.
    destruct Hok as [-> | (lr & rr & b & _ & _ & ->)].
    + exfalso; revert Hv.
      destruct (nth_error track (lastIndex w)); [| discriminate]; cbn [bind].
      destruct (Utils.getLineRatio track p); [| discriminate]; cbn [bind].
      destruct (nth_error track index); [| discriminate]; cbn [bind].
      destruct (Utils.getLineRatio track p0); [| discriminate]; cbn [bind].
      destruct (at_pred (simplified track) (simplifiedIndex w));
        [| discriminate]; cbn [bind].
      intros Hw; inversion Hw as [Hw'].
      apply (f_equal simplifiedIndex) in Hw'; simpl in Hw'; lia.
    + cbn; repeat split; try reflexivity.
      destruct (schedule w); discriminate.
  - apply eqb_false in Elat; right; inversion Hv; split; [| reflexivity].
    intros Heq; inversion Heq; contradiction.
  - apply eqb_false in Elng; right; inversion Hv; split; [| reflexivity].
    intros Heq; inversion Heq; contradiction.
Qed.

(** Over a non-empty rest of the track that still contains the vertices
    from the cursor on, in order, a walk that does not throw consumes all of
    them, the last one at the last coordinate. *)
Lemma forEach_exhausts (xs : list Position) :
  forall index w w',
    xs <> [] ->
    selection (skipn (simplifiedIndex w) (simplified track)) xs ->
    forEach track xs index w = Ok w' ->
    lastIndex w' = (index + length xs - 1)%nat
    /\ schedule w' <> []
    /\ simplifiedIndex w' = length (simplified track).
Proof.
  induction xs as [| x xs IH]; intros index w w' Hne Hsel Hf; [contradiction |].
  simpl in Hf.
  destruct (visit track w x index) as [w1 | msg] eqn:Hv; [| discriminate].
  cbn [bind] in Hf.
  destruct (visit_cursor _ _ _ _ Hv) as (vertex & Hnth & Hcase).
  rewrite (skipn_nth_error _ _ _ Hnth) in Hsel.
  assert (Hsel1 : selection (skipn (simplifiedIndex w1) (simplified track)) xs).
  { destruct Hcase as [(-> & Hidx & _) | (Hneq & ->)].
    - rewrite Hidx; inversion Hsel; subst; [assumption |].
      now apply selection_tail with vertex.
    - rewrite (skipn_nth_error _ _ _ Hnth).
      inversion Hsel; subst; [contradiction | assumption]. }
  destruct xs as [| y ys].
  - simpl in Hf; inversion Hf; subst w'.
    apply selection_empty in Hsel1.
    destruct Hcase as [(_ & Hidx & Hlast & Hsched) | (_ & ->)].
    + split; [simpl; lia |]; split; [exact Hsched |].
      rewrite Hidx in Hsel1 |- *.
      pose proof (length_skipn (S (simplifiedIndex w)) (simplified track)) as Hl.
      rewrite Hsel1 in Hl; simpl in Hl.
      assert (simplifiedIndex w < length (simplified track))%nat
        by (apply nth_error_Some; rewrite Hnth; discriminate).
      lia.
    + rewrite (skipn_nth_error _ _ _ Hnth) in Hsel1; discriminate.
  - destruct (IH (S index) w1 w') as (Hlast & Hsched & Hidx);
      [discriminate | exact Hsel1 | exact Hf |].
    split; [simpl in *; lia |]; split; assumption.
Qed.

(** When the simplified line is its first vertex followed by vertices
    selected from the track, and [initData] returns, the schedule is not
    empty and its last interval ends at the last coordinate of the track,
    with the ratio computed for it: 1 as soon as the geometry library
    measures the slice up to the last coordinate as the whole track. *)
Lemma initData_last (intervals : list BearingInterval) :
  track <> [] ->
  selection (skipn 1 (simplified track)) track ->
  initData track = Ok intervals ->
  exists init a,
    intervals = init ++ [a]
    /\ r a = (length track - 1)%nat
    /\ ratioAt track (length track - 1) = Ok (rRatio a)
    /\ (forall first final,
           nth_error track 0 = Some first ->
           nth_error track (length track - 1) = Some final ->
           turf_length (turf_lineSlice first final track) = turf_length track ->
           turf_length track <> 0 ->
           rRatio a = 1).
Proof.
  intros Hne Hsel Hi; unfold initData in Hi.
  destruct (forEach track track 0
              {| simplifiedIndex := 1; lastIndex := 0; schedule := [] |})
    as [w0 | msg] eqn:Hf; [| discriminate].
  cbn [bind] in Hi; inversion Hi as [Hw0]; clear Hi.
  destruct (forEach_exhausts track 0
              {| simplifiedIndex := 1; lastIndex := 0; schedule := [] |}
              w0 Hne Hsel Hf) as (Hlast & Hsched & _).
  destruct (forEach_joined track 0
              {| simplifiedIndex := 1; lastIndex := 0; schedule := [] |} w0)
    as (_ & _ & _ & Hl0); [| exact Hf |].
  { split; [exact I |]; split; [reflexivity |]; split; [| now left].
    intros a0 rest0 Hs0; discriminate. }
  destruct Hl0 as [Hnil | (init & a & Hinit & Hra & Hratio)]; [contradiction |].
  assert (Hra' : r a = (length track - 1)%nat)
    by (rewrite Hra, Hlast; simpl; lia).
  exists init, a.
  split; [exact Hinit |]; split; [exact Hra' |].
  rewrite Hra' in Hratio; split; [exact Hratio |].
  intros first final Hfirst Hfinal Hwhole Hnonzero.
  unfold ratioAt, Utils.getLineRatio, at_index in Hratio.
  rewrite Hfinal, Hfirst in Hratio; cbn [bind] in Hratio.
  rewrite Hwhole in Hratio; inversion Hratio as [Hr1].
  unfold trackDistance; field; exact Hnonzero.
Qed.

(** A visit with the cursor past the end of the simplified line throws. *)
Lemma visit_past_end (w : Walk) (coordinate : Position) (index : nat) :
  (length (simplified track) <= simplifiedIndex w)%nat ->
  visit track w coordinate index = Throw "TypeError: undefined value".
Proof.
  intros Hlen; unfold visit, at_index; destruct coordinate as [lng0 lat0].
  apply nth_error_None in Hlen; now rewrite Hlen.
Qed.

End SchedulerFacts.

(** C5 (the track on which the code departs from it).  For a track whose
    last fix is recorded twice, simplified to its two end points, the walk
    closes the only interval at index 1, moves the cursor past the end of
    the simplified line and throws at index 2: no schedule is produced. *)
Theorem initData_throws_after_last_vertex (T : Turf) :
  turf_simplify Examples.stalledTrack Scheduler.tolerance
  = Examples.stalledSimplified ->
  (2 <= length Examples.stalledTrack)%nat
  /\ (2 <= length (Scheduler.simplified Examples.stalledTrack))%nat
  /\ Scheduler.initData Examples.stalledTrack
     = Throw "TypeError: undefined value".
Proof.
  intros Hsimp.
  split; [simpl; lia |].
  split; [unfold Scheduler.simplified; rewrite Hsimp; simpl; lia |].
  unfold Scheduler.initData, Examples.stalledTrack.
  cbn [Scheduler.forEach].
  unfold Scheduler.visit at 1, Scheduler.simplified.
  fold Examples.stalledTrack; rewrite Hsimp.
  cbn [at_index nth_error Examples.stalledSimplified Scheduler.simplifiedIndex bind].
  assert (E01 : JS.eqb 0 1 = false) by (apply eqb_false; lra).
  rewrite E01; cbn [andb bind].
  unfold Scheduler.visit at 1, Scheduler.simplified; rewrite Hsimp.
  cbn [at_index at_pred nth_error Examples.stalledSimplified
         Examples.stalledTrack Scheduler.simplifiedIndex
         Scheduler.lastIndex bind].
  rewrite !eqb_refl; cbn [andb].
  unfold Utils.getLineRatio.
  cbn [at_index at_pred nth_error Examples.stalledTrack bind].
  unfold Scheduler.visit, Scheduler.simplified; rewrite Hsimp.
  cbn [at_index nth_error Examples.stalledSimplified Scheduler.simplifiedIndex bind].
  reflexivity.
Qed.

(** C5, with a geometry library that simplifies the track to its two end
    points. *)
Lemma initData_throws_after_last_vertex_fixed :
  let T := Examples.fixedTurf 111 (0, 0) Examples.stalledSimplified in
  turf_simplify Examples.stalledTrack Scheduler.tolerance
  = Examples.stalledSimplified
  /\ (2 <= length Examples.stalledTrack)%nat
  /\ (2 <= length (Scheduler.simplified Examples.stalledTrack))%nat
  /\ Scheduler.initData Examples.stalledTrack
     = Throw "TypeError: undefined value".
Proof.
  intros T; split; [reflexivity |].
  apply (initData_throws_after_last_vertex T); reflexivity.
Defined.

(** * Part III: further properties of the code *)

(** ** The remainder operator and the bearings *)

(** Push [IZR] through sums and differences of integers. *)
Ltac push_IZR :=
  repeat first [rewrite minus_IZR | rewrite plus_IZR | rewrite opp_IZR].

(** The remainder by a positive divisor differs from the dividend by a
    multiple of the divisor, is smaller than the divisor in absolute value
    and has the sign of the dividend. *)
Lemma rem_spec (x y : R) :
  0 < y ->
  exists k : Z,
    JS.rem x y = x - y * IZR k
    /\ (0 <= x -> 0 <= JS.rem x y < y)
    /\ (x <= 0 -> - y < JS.rem x y <= 0).
Proof.
  intros Hy; unfold JS.rem, JS.trunc.
  assert (Hx : x = x / y * y) by (field; lra).
  set (q := x / y) in *.
  destruct (Rle_dec 0 q) as [Hq | Hq].
  - exists (Int_part q).
    destruct (base_Int_part q) as [Hlo Hhi].
    split; [reflexivity |]; split.
    + intros _; split; nra.
    + intros Hneg.
      assert (Hq0 : q = 0) by nra.
      rewrite Hq0, (Int_part_between 0 0) by lra; nra.
  - exists (- Int_part (- q))%Z.
    destruct (base_Int_part (- q)) as [Hlo Hhi].
    split; [reflexivity |]; rewrite opp_IZR; split.
    + intros Hpos; exfalso; apply Hq.
      unfold q, Rdiv; apply Rmult_le_pos; [lra |].
      left; now apply Rinv_0_lt_compat.
    + intros _; split; nra.
Qed.

(** [((x % 360) + 360) % 360] is the representative of [x] in [[0, 360)]. *)
Lemma wrap360_spec (x : R) :
  exists k : Z,
    JS.rem (JS.rem x 360 + 360) 360 = x + 360 * IZR k
    /\ 0 <= JS.rem (JS.rem x 360 + 360) 360 < 360.
Proof.
  destruct (rem_spec x 360) as (k1 & E1 & Hpos1 & Hneg1); [lra |].
  assert (Hr1 : - 360 < JS.rem x 360 < 360).
  { destruct (Rle_dec 0 x) as [Hx | Hx].
    - specialize (Hpos1 Hx); lra.
    - assert (Hx' : x <= 0) by lra. specialize (Hneg1 Hx'); lra. }
  destruct (rem_spec (JS.rem x 360 + 360) 360) as (k2 & E2 & Hpos2 & _); [lra |].
  exists (1 - k1 - k2)%Z; split.
  - rewrite E2, E1; push_IZR; ring.
  - apply Hpos2; lra.
Qed.

(** [normalizeBearing] returns a turn that leads from the current bearing to
    the target bearing up to full circles, and that turn lies in
    [(-180, 180]]. *)
Lemma normalizeBearing_spec (currentBearing targetBearing : R) :
  exists k : Z,
    Utils.normalizeBearing currentBearing targetBearing
    = targetBearing - currentBearing + 360 * IZR k
    /\ - 180 < Utils.normalizeBearing currentBearing targetBearing <= 180.
Proof.
  unfold Utils.normalizeBearing.
  destruct (wrap360_spec currentBearing) as (a & Ea & Ha).
  destruct (wrap360_spec targetBearing) as (b & Eb & Hb).
  set (c' := JS.rem (JS.rem currentBearing 360 + 360) 360) in *.
  set (t' := JS.rem (JS.rem targetBearing 360 + 360) 360) in *.
  destruct (rem_spec (t' - c' + 360) 360) as (k3 & E3 & Hpos3 & _); [lra |].
  assert (Hd : 0 <= JS.rem (t' - c' + 360) 360 < 360) by (apply Hpos3; lra).
  set (diff1 := JS.rem (t' - c' + 360) 360) in *.
  destruct (JS.leb (Rabs diff1) (Rabs (diff1 - 360))) eqn:E.
  - apply leb_true in E.
    rewrite (Rabs_pos_eq diff1) in E by lra.
    assert (Habs : Rabs (diff1 - 360) = 360 - diff1).
    { rewrite Rabs_left by lra; ring. }
    rewrite Habs in E.
    exists (b - a + 1 - k3)%Z; split; [| lra].
    rewrite E3, Ea, Eb; push_IZR; ring.
  - apply leb_false in E.
    rewrite (Rabs_pos_eq diff1) in E by lra.
    assert (Habs : Rabs (diff1 - 360) = 360 - diff1).
    { rewrite Rabs_left by lra; ring. }
    rewrite Habs in E.
    exists (b - a - k3)%Z; split; [| lra].
    rewrite E3, Ea, Eb; push_IZR; ring.
Qed.

(** X1. For all bearings, [normalizeBearing current target] lies in
    [(-180, 180]] and differs from [target - current] by a whole number of
    full turns: it is the shortest signed turn from one to the other. *)
Theorem normalizeBearing_shortest_turn (currentBearing targetBearing : R) :
  - 180 < Utils.normalizeBearing currentBearing targetBearing <= 180
  /\ exists k : Z,
      currentBearing + Utils.normalizeBearing currentBearing targetBearing
      = targetBearing + 360 * IZR k.
Proof.
  destruct (normalizeBearing_spec currentBearing targetBearing) as (k & E & H).
  split; [exact H |]; exists k; rewrite E; ring.
Qed.

(** An integer multiple of 360 in [(-180, 180]] is 0. *)
Lemma turn_multiple_zero (k : Z) : - 180 < 360 * IZR k <= 180 -> k = 0%Z.
Proof.
  intros [Hlo Hhi].
  assert (H1 : IZR (-1) < IZR k) by lra.
  assert (H2 : IZR k < IZR 1) by lra.
  apply lt_IZR in H1, H2; lia.
Qed.

(** X2. [normalizeBearing] returns 0 exactly when the two bearings differ
    by a whole number of full turns; in particular for equal bearings. *)
Theorem normalizeBearing_zero_iff (currentBearing targetBearing : R) :
  Utils.normalizeBearing currentBearing targetBearing = 0
  <-> exists k : Z, targetBearing - currentBearing = 360 * IZR k.
Proof.
  destruct (normalizeBearing_spec currentBearing targetBearing) as (k & E & H).
  split.
  - intros H0; exists (- k)%Z; rewrite opp_IZR; lra.
  - intros [j Hj].
    assert (Hk : (k + j = 0)%Z).
    { apply turn_multiple_zero; rewrite plus_IZR; lra. }
    assert (Hkj : IZR k = - IZR j).
    { replace k with (- j)%Z by lia; now rewrite opp_IZR. }
    lra.
Qed.

(** [Math.atan2] returns an angle in [(-PI, PI]]. *)
Lemma atan2_range (y x : R) : - PI < JS.atan2 y x <= PI.
Proof.
  pose proof PI_RGT_0 as HPI; unfold JS.atan2.
  pose proof (atan_bound (y / x)) as [Hlo Hhi].
  destruct (Rlt_dec 0 x) as [Hx | Hx]; [lra |].
  destruct (Rlt_dec x 0) as [Hx' | Hx'].
  - assert (Hinv : / x < 0) by now apply Rinv_lt_0_compat.
    destruct (Rle_dec 0 y) as [Hy | Hy].
    + assert (Hq : y / x <= 0) by (unfold Rdiv; nra).
      assert (Hat : atan (y / x) <= 0).
      { destruct Hq as [Hq | Hq].
        - left; rewrite <- atan_0; now apply atan_increasing.
        - rewrite Hq, atan_0; lra. }
      lra.
    + assert (Hq : 0 < y / x) by (unfold Rdiv; nra).
      assert (Hat : 0 < atan (y / x)).
      { rewrite <- atan_0; now apply atan_increasing. }
      lra.
  - destruct (Rlt_dec 0 y); [lra |].
    destruct (Rlt_dec y 0); lra.
Qed.

(** X3. [getBearing] always returns a bearing in [[0, 360)]. *)
Theorem getBearing_range (p1 p2 : Position) :
  0 <= Utils.getBearing p1 p2 < 360.
Proof.
  unfold Utils.getBearing.
  match goal with
  | |- context [JS.atan2 ?y ?x] => pose proof (atan2_range y x) as [Hlo Hhi];
                                   set (a := JS.atan2 y x) in *
  end.
  pose proof PI_RGT_0 as HPI.
  assert (Hdeg : - 180 < a * (180 / PI) <= 180).
  { assert (E : a * (180 / PI) = a / PI * 180) by (field; lra).
    rewrite E.
    assert (H1 : - 1 < a / PI).
    { apply Rmult_lt_reg_r with PI; [lra |].
      unfold Rdiv; rewrite Rmult_assoc, Rinv_l; lra. }
    assert (H2 : a / PI <= 1).
    { apply Rmult_le_reg_r with PI; [lra |].
      unfold Rdiv; rewrite Rmult_assoc, Rinv_l; lra. }
    lra. }
  destruct (rem_spec (a * (180 / PI) + 360) 360) as (k & _ & Hpos & _); [lra |].
  apply Hpos; lra.
Qed.

Lemma rad_pos_lt_PI (d : R) : 0 < d < 180 -> 0 < d * (PI / 180) < PI.
Proof. intros [Hlo Hhi]; pose proof PI_RGT_0; split; nra. Qed.

(** X4. Along a meridian [getBearing] is 0 northwards and 180 southwards;
    along the equator it is 90 eastwards and 270 westwards (for legs
    shorter than half a turn). *)
Theorem getBearing_cardinal (lng0 lat0 d : R) :
  0 < d < 180 ->
  Utils.getBearing (lng0, lat0) (lng0, lat0 + d) = 0
  /\ Utils.getBearing (lng0, lat0) (lng0, lat0 - d) = 180
  /\ Utils.getBearing (lng0, 0) (lng0 + d, 0) = 90
  /\ Utils.getBearing (lng0, 0) (lng0 - d, 0) = 270.
Proof.
  intros Hd; pose proof PI_RGT_0 as HPI.
  pose proof (rad_pos_lt_PI d Hd) as Hrad.
  assert (Hsin : 0 < sin (d * (PI / 180))) by (apply sin_gt_0; lra).
  split; [apply getBearing_due_north; lra |].
  split; [| split]; unfold Utils.getBearing; cbn [fst snd].
  - replace ((lng0 - lng0) * (PI / 180)) with 0 by ring.
    rewrite sin_0, cos_0, Rmult_0_l, Rmult_1_r.
    replace (cos (lat0 * (PI / 180)) * sin ((lat0 - d) * (PI / 180))
             - sin (lat0 * (PI / 180)) * cos ((lat0 - d) * (PI / 180)))
      with (- sin (d * (PI / 180))).
    2: { replace (d * (PI / 180))
           with (lat0 * (PI / 180) - (lat0 - d) * (PI / 180)) by ring.
         rewrite sin_minus; ring. }
    unfold JS.atan2.
    destruct (Rlt_dec 0 (- sin (d * (PI / 180)))); [lra |].
    destruct (Rlt_dec (- sin (d * (PI / 180))) 0); [| lra].
    destruct (Rle_dec 0 0); [| lra].
    unfold Rdiv at 1; rewrite Rmult_0_l, atan_0.
    apply (rem_bracket _ 360 180 1); try lra.
    + replace ((0 + PI) * (180 / PI)) with 180 by (field; lra); lra.
    + replace ((0 + PI) * (180 / PI)) with 180 by (field; lra); lra.
    + replace ((0 + PI) * (180 / PI)) with 180 by (field; lra); lra.
  - replace ((lng0 + d - lng0) * (PI / 180)) with (d * (PI / 180)) by ring.
    replace (0 * (PI / 180)) with 0 by ring.
    rewrite sin_0, cos_0.
    replace (1 * 0 - 0 * 1 * cos (d * (PI / 180))) with 0 by ring.
    rewrite Rmult_1_r.
    unfold JS.atan2.
    destruct (Rlt_dec 0 0); [lra |].
    destruct (Rlt_dec 0 (sin (d * (PI / 180)))); [| lra].
    replace (PI / 2 * (180 / PI)) with 90 by (field; lra).
    apply (rem_bracket _ 360 90 1); lra.
  - replace ((lng0 - d - lng0) * (PI / 180)) with (- (d * (PI / 180))) by ring.
    replace (0 * (PI / 180)) with 0 by ring.
    rewrite sin_0, cos_0, sin_neg.
    replace (1 * 0 - 0 * 1 * cos (- (d * (PI / 180)))) with 0 by ring.
    rewrite Rmult_1_r.
    unfold JS.atan2.
    destruct (Rlt_dec 0 0); [lra |].
    destruct (Rlt_dec 0 (- sin (d * (PI / 180)))); [lra |].
    destruct (Rlt_dec (- sin (d * (PI / 180))) 0); [| lra].
    replace (- (PI / 2) * (180 / PI)) with (- 90) by (field; lra).
    apply (rem_bracket _ 360 270 0); lra.
Qed.

(** X4, for legs of ten degrees. *)
Lemma getBearing_cardinal_ten :
  0 < 10 < 180
  /\ Utils.getBearing (120, 30) (120, 30 + 10) = 0
  /\ Utils.getBearing (120, 30) (120, 30 - 10) = 180
  /\ Utils.getBearing (120, 0) (120 + 10, 0) = 90
  /\ Utils.getBearing (120, 0) (120 - 10, 0) = 270.
Proof.
  split; [lra |]; apply (getBearing_cardinal 120 30 10); lra.
Defined.

(** ** The geodesy kernel: conversions and projection *)

Section GeodesyFurther.
Import GreatCircle.

Lemma tan_shift (x : R) :
  cos x <> 0 -> tan (x - PI) = tan x /\ tan (x + PI) = tan x.
Proof.
  intros Hc; unfold tan.
  rewrite sin_minus, cos_minus, neg_sin, neg_cos, sin_PI, cos_PI.
  split; field; lra.
Qed.

(** [Math.atan2] recovers the angle of a point given in polar form. *)
Lemma atan2_polar (r a : R) :
  0 < r -> - PI < a <= PI -> JS.atan2 (r * sin a) (r * cos a) = a.
Proof.
  intros Hr [Hlo Hhi]; pose proof PI_RGT_0 as HPI.
  assert (Hq : cos a <> 0 -> r * sin a / (r * cos a) = tan a).
  { intros Hc; unfold tan; field; lra. }
  unfold JS.atan2.
  destruct (Rtotal_order a (- (PI / 2))) as [Ha | [Ha | Ha]].
  - (* third quadrant *)
    assert (Hc : cos a < 0).
    { rewrite <- cos_neg; apply cos_lt_0; lra. }
    assert (Hs : sin a < 0) by (apply sin_lt_0_var; lra).
    destruct (Rlt_dec 0 (r * cos a)); [nra |].
    destruct (Rlt_dec (r * cos a) 0); [| nra].
    destruct (Rle_dec 0 (r * sin a)); [nra |].
    rewrite Hq by lra.
    rewrite <- (proj2 (tan_shift a ltac:(lra))).
    rewrite atan_tan by lra; ring.
  - subst a; rewrite cos_neg, sin_neg, cos_PI2, sin_PI2.
    repeat match goal with
           | |- context [Rlt_dec ?u ?v] => destruct (Rlt_dec u v); try lra
           end.
  - destruct (Rtotal_order a (PI / 2)) as [Hb | [Hb | Hb]].
    + (* right half plane *)
      assert (Hc : 0 < cos a) by (apply cos_gt_0; lra).
      destruct (Rlt_dec 0 (r * cos a)); [| nra].
      rewrite Hq by lra; apply atan_tan; lra.
    + subst a; rewrite cos_PI2, sin_PI2.
      repeat match goal with
             | |- context [Rlt_dec ?u ?v] => destruct (Rlt_dec u v); try lra
             end.
    + (* second quadrant *)
      assert (Hc : cos a < 0) by (apply cos_lt_0; lra).
      assert (Hs : 0 <= sin a) by (apply sin_ge_0; lra).
      destruct (Rlt_dec 0 (r * cos a)); [nra |].
      destruct (Rlt_dec (r * cos a) 0); [| nra].
      destruct (Rle_dec 0 (r * sin a)); [| nra].
      rewrite Hq by lra.
      rewrite <- (proj1 (tan_shift a ltac:(lra))).
      rewrite atan_tan by lra; ring.
Qed.

Lemma sin_cos_sq (x : R) : sin x * sin x + cos x * cos x = 1.
Proof. pose proof (sin2_cos2 x) as H; unfold Rsqr in H; exact H. Qed.

Lemma latLonToCartesian_dot (lat lon : R) :
  dot (latLonToCartesian lat lon) (latLonToCartesian lat lon) = 1.
Proof.
  unfold latLonToCartesian, dot.
  pose proof (sin_cos_sq (degreesToRadians lat)) as Hlat.
  pose proof (sin_cos_sq (degreesToRadians lon)) as Hlon.
  nra.
Qed.

Lemma degrees_round_trip (v : R) : radiansToDegrees (degreesToRadians v) = v.
Proof.
  pose proof PI_RGT_0; unfold radiansToDegrees, degreesToRadians; field; lra.
Qed.

Lemma degreesToRadians_lat (lat : R) :
  - 90 < lat < 90 -> - (PI / 2) < degreesToRadians lat < PI / 2.
Proof.
  intros [Hlo Hhi]; pose proof PI_RGT_0; unfold degreesToRadians; split; nra.
Qed.

Lemma degreesToRadians_lon (lon : R) :
  - 180 < lon <= 180 -> - PI < degreesToRadians lon <= PI.
Proof.
  intros [Hlo Hhi]; pose proof PI_RGT_0; unfold degreesToRadians; split; nra.
Qed.

(** Away from the poles, converting a point to the unit sphere and back
    returns its latitude and longitude. *)
Lemma cartesian_round_trip (lat lon : R) :
  - 90 < lat < 90 -> - 180 < lon <= 180 ->
  (let '(x, y, z) := latLonToCartesian lat lon in cartesianToLatLon x y z)
  = (lat, lon).
Proof.
  intros Hlat Hlon; unfold latLonToCartesian, cartesianToLatLon.
  pose proof (degreesToRadians_lat lat Hlat) as Hphi.
  pose proof (degreesToRadians_lon lon Hlon) as Hlam.
  set (phi := degreesToRadians lat) in *.
  set (lam := degreesToRadians lon) in *.
  assert (Hc : 0 < cos phi) by (apply cos_gt_0; lra).
  assert (Hsq : cos phi * cos lam * (cos phi * cos lam)
                + cos phi * sin lam * (cos phi * sin lam)
                = cos phi * cos phi).
  { pose proof (sin_cos_sq lam); nra. }
  rewrite Hsq, sqrt_square by lra.
  replace (JS.atan2 (sin phi) (cos phi)) with phi.
  2: { symmetry; rewrite <- (Rmult_1_l (sin phi)), <- (Rmult_1_l (cos phi)).
       apply atan2_polar; lra. }
  rewrite atan2_polar by lra.
  unfold phi, lam; now rewrite !degrees_round_trip.
Qed.

End GeodesyFurther.

(** X5. [latLonToCartesian] returns a vector of the unit sphere, for every
    latitude and longitude. *)
Theorem latLonToCartesian_unit (lat lon : R) :
  let '(x, y, z) := GreatCircle.latLonToCartesian lat lon in
  x * x + y * y + z * z = 1.
Proof.
  pose proof (latLonToCartesian_dot lat lon) as H.
  destruct (GreatCircle.latLonToCartesian lat lon) as [[x y] z]; exact H.
Qed.

(** X6. For a latitude strictly between the poles and a longitude in
    [(-180, 180]], [cartesianToLatLon] applied to [latLonToCartesian]
    returns the latitude and the longitude it started from. *)
Theorem cartesianToLatLon_latLonToCartesian (lat lon : R) :
  - 90 < lat < 90 -> - 180 < lon <= 180 ->
  (let '(x, y, z) := GreatCircle.latLonToCartesian lat lon in
   GreatCircle.cartesianToLatLon x y z)
  = (lat, lon).
Proof. apply cartesian_round_trip. Qed.

(** X6, at 31.2 N, 121.5 E. *)
Lemma cartesianToLatLon_latLonToCartesian_shanghai :
  (- 90 < 31.2 < 90 /\ - 180 < 121.5 <= 180)
  /\ (let '(x, y, z) := GreatCircle.latLonToCartesian 31.2 121.5 in
      GreatCircle.cartesianToLatLon x y z)
     = (31.2, 121.5).
Proof.
  split; [lra |]; apply (cartesianToLatLon_latLonToCartesian 31.2 121.5); lra.
Defined.

Section Projection.
Import GreatCircle.

(** Its squared length. *)
Lemma plane_length (c0 c1 c2 n0 n1 n2 : R) :
  n0 * n0 + n1 * n1 + n2 * n2 <> 0 ->
  let d := (c0 * n0 + c1 * n1 + c2 * n2) / (n0 * n0 + n1 * n1 + n2 * n2) in
  (c0 - d * n0) * (c0 - d * n0) + (c1 - d * n1) * (c1 - d * n1)
  + (c2 - d * n2) * (c2 - d * n2)
  = (c0 * c0 + c1 * c1 + c2 * c2)
    - (c0 * n0 + c1 * n1 + c2 * n2) * (c0 * n0 + c1 * n1 + c2 * n2)
      / (n0 * n0 + n1 * n1 + n2 * n2).
Proof. intros Hn d; unfold d; field; exact Hn. Qed.

Lemma CprimeNormalized_orthogonal (A B C : Vec3) :
  dot (cross A B) (cross A B) <> 0 ->
  dot (CprimeNormalized A B C) (cross A B) = 0.
Proof.
  unfold CprimeNormalized.
  destruct (cross A B) as [[n0 n1] n2]; destruct C as [[c0 c1] c2].
  unfold dot; intros Hn.
  pose proof (plane_component c0 c1 c2 n0 n1 n2 Hn) as Hp.
  match goal with
  | |- ?p0 / ?norm * n0 + ?p1 / ?norm * n1 + ?p2 / ?norm * n2 = 0 =>
      replace (p0 / norm * n0 + p1 / norm * n1 + p2 / norm * n2)
        with ((p0 * n0 + p1 * n1 + p2 * n2) * / norm)
        by (unfold Rdiv; ring)
  end.
  rewrite Hp; ring.
Qed.

Lemma CprimeNormalized_unit (A B C : Vec3) :
  dot (cross A B) (cross A B) <> 0 ->
  dot C (cross A B) * dot C (cross A B)
  < dot C C * dot (cross A B) (cross A B) ->
  dot (CprimeNormalized A B C) (CprimeNormalized A B C) = 1.
Proof.
  unfold CprimeNormalized.
  destruct (cross A B) as [[n0 n1] n2]; destruct C as [[c0 c1] c2].
  unfold dot; intros Hn Hlt.
  pose proof (plane_length c0 c1 c2 n0 n1 n2 Hn) as Hlen; cbv zeta in Hlen.
  set (nn := n0 * n0 + n1 * n1 + n2 * n2) in *.
  set (d := c0 * n0 + c1 * n1 + c2 * n2) in *.
  assert (Hnn : 0 < nn) by (unfold nn in *; nra).
  assert (Hpos : 0 < (c0 * c0 + c1 * c1 + c2 * c2) - d * d / nn).
  { apply Rmult_lt_reg_r with nn; [exact Hnn |].
    replace (((c0 * c0 + c1 * c1 + c2 * c2) - d * d / nn) * nn)
      with ((c0 * c0 + c1 * c1 + c2 * c2) * nn - d * d) by (field; lra).
    lra. }
  rewrite <- Hlen in Hpos.
  match goal with
  | |- context [sqrt ?q] =>
      pose proof (sqrt_def q (Rlt_le _ _ Hpos)) as Hsq;
      pose proof (sqrt_lt_R0 q Hpos) as Hs;
      set (norm := sqrt q) in *
  end.
  match goal with
  | |- ?p0 / norm * (?p0 / norm) + ?p1 / norm * (?p1 / norm)
       + ?p2 / norm * (?p2 / norm) = 1 =>
      replace (p0 / norm * (p0 / norm) + p1 / norm * (p1 / norm)
               + p2 / norm * (p2 / norm))
        with ((p0 * p0 + p1 * p1 + p2 * p2) / (norm * norm))
        by (field; lra)
  end.
  rewrite Hsq; unfold Rdiv; apply Rinv_r; lra.
Qed.

(** A unit vector of the plane is left where it is. *)
Lemma CprimeNormalized_fixed (A B C : Vec3) :
  dot C (cross A B) = 0 -> dot C C = 1 -> CprimeNormalized A B C = C.
Proof.
  unfold CprimeNormalized.
  destruct (cross A B) as [[n0 n1] n2]; destruct C as [[c0 c1] c2].
  unfold dot; intros Hd Hc; rewrite Hd.
  replace (c0 - 0 / (n0 * n0 + n1 * n1 + n2 * n2) * n0) with c0
    by (unfold Rdiv; ring).
  replace (c1 - 0 / (n0 * n0 + n1 * n1 + n2 * n2) * n1) with c1
    by (unfold Rdiv; ring).
  replace (c2 - 0 / (n0 * n0 + n1 * n1 + n2 * n2) * n2) with c2
    by (unfold Rdiv; ring).
  rewrite Hc, sqrt_1; repeat apply f_equal2; field.
Qed.

Lemma cross_swap_dot (A B : Vec3) :
  dot (cross B A) (cross B A) = dot (cross A B) (cross A B).
Proof.
  destruct A as [[a0 a1] a2]; destruct B as [[b0 b1] b2].
  unfold cross, dot; ring.
Qed.

Lemma CprimeNormalized_swap (A B C : Vec3) :
  CprimeNormalized B A C = CprimeNormalized A B C.
Proof.
  unfold CprimeNormalized; rewrite (cross_swap_dot A B).
  destruct A as [[a0 a1] a2]; destruct B as [[b0 b1] b2];
    destruct C as [[c0 c1] c2].
  unfold cross, dot.
  set (nn := (a1 * b2 - a2 * b1) * (a1 * b2 - a2 * b1)
             + (a2 * b0 - a0 * b2) * (a2 * b0 - a0 * b2)
             + (a0 * b1 - a1 * b0) * (a0 * b1 - a1 * b0)).
  assert (E0 : c0 - (c0 * (b1 * a2 - b2 * a1) + c1 * (b2 * a0 - b0 * a2)
                     + c2 * (b0 * a1 - b1 * a0)) / nn * (b1 * a2 - b2 * a1)
               = c0 - (c0 * (a1 * b2 - a2 * b1) + c1 * (a2 * b0 - a0 * b2)
                       + c2 * (a0 * b1 - a1 * b0)) / nn * (a1 * b2 - a2 * b1))
    by (unfold Rdiv; ring).
  assert (E1 : c1 - (c0 * (b1 * a2 - b2 * a1) + c1 * (b2 * a0 - b0 * a2)
                     + c2 * (b0 * a1 - b1 * a0)) / nn * (b2 * a0 - b0 * a2)
               = c1 - (c0 * (a1 * b2 - a2 * b1) + c1 * (a2 * b0 - a0 * b2)
                       + c2 * (a0 * b1 - a1 * b0)) / nn * (a2 * b0 - a0 * b2))
    by (unfold Rdiv; ring).
  assert (E2 : c2 - (c0 * (b1 * a2 - b2 * a1) + c1 * (b2 * a0 - b0 * a2)
                     + c2 * (b0 * a1 - b1 * a0)) / nn * (b0 * a1 - b1 * a0)
               = c2 - (c0 * (a1 * b2 - a2 * b1) + c1 * (a2 * b0 - a0 * b2)
                       + c2 * (a0 * b1 - a1 * b0)) / nn * (a0 * b1 - a1 * b0))
    by (unfold Rdiv; ring).
  rewrite E0, E1, E2; reflexivity.
Qed.

(** A point of the great circle, in range for the round trip, is returned
    as it is. *)
Lemma project_fixed (latA lonA latB lonB latC lonC : R) :
  1e-12 <= nNormSq latA lonA latB lonB ->
  dot (latLonToCartesian latC lonC)
      (cross (latLonToCartesian latA lonA) (latLonToCartesian latB lonB)) = 0 ->
  - 90 < latC < 90 -> - 180 < lonC <= 180 ->
  projectPointToGreatCircle latA lonA latB lonB latC lonC = Ok (latC, lonC).
Proof.
  intros Hn Hd Hlat Hlon; unfold projectPointToGreatCircle.
  apply ltb_false in Hn; unfold nNormSq in Hn; rewrite Hn.
  rewrite (CprimeNormalized_fixed _ _ _ Hd (latLonToCartesian_dot latC lonC)).
  pose proof (cartesian_round_trip latC lonC Hlat Hlon) as Hrt.
  destruct (latLonToCartesian latC lonC) as [[x y] z]; now rewrite Hrt.
Qed.

Lemma dot_cross_left (A B : Vec3) : dot A (cross A B) = 0.
Proof.
  destruct A as [[a0 a1] a2]; destruct B as [[b0 b1] b2].
  unfold cross, dot; ring.
Qed.

Lemma dot_cross_right (A B : Vec3) : dot B (cross A B) = 0.
Proof.
  destruct A as [[a0 a1] a2]; destruct B as [[b0 b1] b2].
  unfold cross, dot; ring.
Qed.

End Projection.

(** X7. The projection does not depend on the order of the two anchors:
    swapping [A] and [B] gives the same result, error included. *)
Theorem projectPointToGreatCircle_swap (latA lonA latB lonB latC lonC : R) :
  GreatCircle.projectPointToGreatCircle latB lonB latA lonA latC lonC
  = GreatCircle.projectPointToGreatCircle latA lonA latB lonB latC lonC.
Proof.
  unfold GreatCircle.projectPointToGreatCircle.
  now rewrite cross_swap_dot, CprimeNormalized_swap.
Qed.

(** X8. For anchors that are not degenerate and lie strictly between the
    poles with longitudes in [(-180, 180]], projecting an anchor returns
    that anchor. *)
Theorem projectPointToGreatCircle_anchors (latA lonA latB lonB : R) :
  1e-12 <= GreatCircle.nNormSq latA lonA latB lonB ->
  - 90 < latA < 90 -> - 180 < lonA <= 180 ->
  - 90 < latB < 90 -> - 180 < lonB <= 180 ->
  GreatCircle.projectPointToGreatCircle latA lonA latB lonB latA lonA
  = Ok (latA, lonA)
  /\ GreatCircle.projectPointToGreatCircle latA lonA latB lonB latB lonB
     = Ok (latB, lonB).
Proof.
  intros Hn HlatA HlonA HlatB HlonB; split.
  - apply project_fixed; try assumption; apply dot_cross_left.
  - apply project_fixed; try assumption; apply dot_cross_right.
Qed.

(** X8, on the equator between 0 E and 90 E. *)
Lemma projectPointToGreatCircle_anchors_equator :
  (1e-12 <= GreatCircle.nNormSq 0 0 0 90
   /\ - 90 < 0 < 90 /\ - 180 < 0 <= 180 /\ - 90 < 0 < 90 /\ - 180 < 90 <= 180)
  /\ GreatCircle.projectPointToGreatCircle 0 0 0 90 0 0 = Ok (0, 0)
  /\ GreatCircle.projectPointToGreatCircle 0 0 0 90 0 90 = Ok (0, 90).
Proof.
  assert (Hn : 1e-12 <= GreatCircle.nNormSq 0 0 0 90)
    by (rewrite nNormSq_equator; lra).
  split; [repeat split; solve [exact Hn | lra] |].
  apply (projectPointToGreatCircle_anchors 0 0 0 90); solve [exact Hn | lra].
Defined.

(** X9. When the anchors are not degenerate, the vector that
    [projectPointToGreatCircle] converts back to latitude and longitude is
    orthogonal to the normal of the great circle, and it has length 1
    unless [C] is a pole of the circle (parallel to the normal). *)
Theorem projectPointToGreatCircle_on_circle
    (latA lonA latB lonB latC lonC : R) :
  let A := GreatCircle.latLonToCartesian latA lonA in
  let B := GreatCircle.latLonToCartesian latB lonB in
  let C := GreatCircle.latLonToCartesian latC lonC in
  let n := GreatCircle.cross A B in
  1e-12 <= GreatCircle.dot n n ->
  (exists x y z,
      GreatCircle.CprimeNormalized A B C = (x, y, z)
      /\ GreatCircle.projectPointToGreatCircle latA lonA latB lonB latC lonC
         = Ok (GreatCircle.cartesianToLatLon x y z))
  /\ GreatCircle.dot (GreatCircle.CprimeNormalized A B C) n = 0
  /\ (GreatCircle.dot C n * GreatCircle.dot C n < GreatCircle.dot n n ->
      GreatCircle.dot (GreatCircle.CprimeNormalized A B C)
        (GreatCircle.CprimeNormalized A B C) = 1).
Proof.
  intros A B C n Hn.
  assert (Hn0 : GreatCircle.dot n n <> 0) by lra.
  split; [| split].
  - unfold GreatCircle.projectPointToGreatCircle; fold A B C n.
    apply ltb_false in Hn; rewrite Hn.
    destruct (GreatCircle.CprimeNormalized A B C) as [[x y] z].
    exists x, y, z; split; reflexivity.
  - now apply CprimeNormalized_orthogonal.
  - intros Hlt; apply CprimeNormalized_unit; [exact Hn0 |].
    unfold C at 3; rewrite latLonToCartesian_dot; fold C n; lra.
Qed.

(** X9, for the equator and a point at 45 N, 45 E. *)
Lemma projectPointToGreatCircle_on_circle_equator :
  let A := GreatCircle.latLonToCartesian 0 0 in
  let B := GreatCircle.latLonToCartesian 0 90 in
  let C := GreatCircle.latLonToCartesian 45 45 in
  let n := GreatCircle.cross A B in
  1e-12 <= GreatCircle.dot n n
  /\ GreatCircle.dot (GreatCircle.CprimeNormalized A B C) n = 0.
Proof.
  intros A B C n.
  assert (Hn : 1e-12 <= GreatCircle.dot n n).
  { change (GreatCircle.dot n n) with (GreatCircle.nNormSq 0 0 0 90).
    rewrite nNormSq_equator; lra. }
  split; [exact Hn |].
  exact (proj1 (proj2 (projectPointToGreatCircle_on_circle 0 0 0 90 45 45 Hn))).
Defined.

(** ** The camera projector: geometry and smoothing *)

Lemma tan_complement (x : R) :
  0 < x < PI / 2 -> / tan (PI / 2 - x) = tan x.
Proof.
  intros [Hlo Hhi]; unfold tan; rewrite sin_shift, cos_shift.
  assert (Hs : 0 < sin x) by (apply sin_gt_0; lra).
  assert (Hc : 0 < cos x) by (apply cos_gt_0; lra).
  field; lra.
Qed.

(** X10. For a pitch strictly between 0 and 90 degrees, an unsmoothed call
    returns the point from which the target lies [altitude * tan pitch]
    metres away along the bearing: adding that distance along
    [(sin bearing, cos bearing)], converted to degrees with 111320 metres
    per degree (times the cosine of the target latitude for the
    longitude), gives the target back. *)
Theorem computeCameraPosition_recovers_target
    (pitch bearing altitude : R) (target : LngLat) (cache : option LngLat) :
  0 < pitch < 90 ->
  let p := fst (Utils.computeCameraPosition pitch bearing target altitude
                  false cache) in
  let d := altitude * tan (pitch * (PI / 180)) in
  lng target
  = lng p + d * sin (bearing * (PI / 180))
            / (111320 * cos (lat target * (PI / 180)))
  /\ lat target = lat p + d * cos (bearing * (PI / 180)) / 111320.
Proof.
  intros Hp; pose proof PI_RGT_0 as HPI; cbv zeta.
  unfold Utils.computeCameraPosition, Utils.rawCameraPosition; cbn [fst lng lat].
  replace ((90 - pitch) * (PI / 180)) with (PI / 2 - pitch * (PI / 180))
    by field.
  assert (Hx : 0 < pitch * (PI / 180) < PI / 2) by (split; nra).
  assert (E : altitude / tan (PI / 2 - pitch * (PI / 180))
              = altitude * tan (pitch * (PI / 180))).
  { unfold Rdiv at 1; now rewrite (tan_complement _ Hx). }
  rewrite E, sin_neg, cos_neg.
  split; unfold Rdiv; ring.
Qed.

(** X10, for the pitch and altitude of the track page, looking east. *)
Lemma computeCameraPosition_recovers_target_east :
  0 < 60 < 90
  /\ let target := {| lng := 120; lat := 30 |} in
     let p := fst (Utils.computeCameraPosition 60 90 target 3000 false None) in
     let d := 3000 * tan (60 * (PI / 180)) in
     lng target
     = lng p + d * sin (90 * (PI / 180))
               / (111320 * cos (lat target * (PI / 180)))
     /\ lat target = lat p + d * cos (90 * (PI / 180)) / 111320.
Proof.
  split; [lra |].
  apply (computeCameraPosition_recovers_target 60 90 3000
           {| lng := 120; lat := 30 |} None); lra.
Defined.

(** X11. Consecutive smoothed calls with the same arguments close in on the
    raw position geometrically: after [n + 1] calls on a cache holding
    [previous], each coordinate is off the raw one by [0.95 ^ (n + 1)]
    times what [previous] was off; and the cache holds the result. *)
Theorem smoothing_converges (pitch bearing altitude : R) (target : LngLat)
    (n : nat) :
  forall previous : LngLat,
    let raw := Utils.rawCameraPosition pitch bearing target altitude in
    let '(p, cache) :=
      Smoothing.calls pitch bearing target altitude n (Some previous) in
    lng p - lng raw = 0.95 ^ S n * (lng previous - lng raw)
    /\ lat p - lat raw = 0.95 ^ S n * (lat previous - lat raw)
    /\ cache = Some p.
Proof.
  induction n as [| n IH]; intros previous; cbv zeta.
  - simpl; unfold Utils.lerp, Utils.SMOOTH_FACTOR; repeat split; lra.
  - cbn [Smoothing.calls].
    unfold Utils.computeCameraPosition at 1; cbv zeta.
    match goal with
    | |- context [Smoothing.calls _ _ _ _ n (Some ?q)] =>
        specialize (IH q); cbv zeta in IH;
        destruct (Smoothing.calls pitch bearing target altitude n (Some q))
          as [p cache]
    end.
    destruct IH as (Hlng & Hlat & Hcache); cbn [lng lat] in Hlng, Hlat.
    unfold Utils.lerp, Utils.SMOOTH_FACTOR in Hlng, Hlat.
    repeat split; [| | exact Hcache].
    + rewrite Hlng; change (0.95 ^ S (S n)) with (0.95 * 0.95 ^ S n); ring.
    + rewrite Hlat; change (0.95 ^ S (S n)) with (0.95 * 0.95 ^ S n); ring.
Qed.

(** ** The fly-in driver: start pose, bounds and the zero timestamp *)

Lemma easeCubicOut_0 : easeCubicOut 0 = 0.
Proof. unfold easeCubicOut; ring. Qed.

(** The ease curve maps [[0, 1]] into [[0, 1]]. *)
Lemma easeCubicOut_range (t : R) : 0 <= t <= 1 -> 0 <= easeCubicOut t <= 1.
Proof.
  intros [Hlo Hhi]; unfold easeCubicOut.
  assert (Hu : 0 <= (1 - t) * (1 - t) <= 1) by (split; nra).
  replace ((t - 1) * (t - 1) * (t - 1) + 1)
    with (1 - (1 - t) * (1 - t) * (1 - t)) by ring.
  split; nra.
Qed.

(** A value interpolated with a weight in [[0, 1]] lies between the two
    ends. *)
Lemma between_ends (a b w : R) :
  0 <= w <= 1 -> Rmin a b <= a + (b - a) * w <= Rmax a b.
Proof.
  intros [Hlo Hhi]; unfold Rmin, Rmax.
  destruct (Rle_dec a b); split; nra.
Qed.

(** A frame on an unset or zero [start] works with phase 0 and renders the
    start pose without resolving. *)
Lemma frame_restart (c : FlyIn.Config) (time : R) (st : FlyIn.State) :
  FlyIn.duration c <> 0 ->
  FlyIn.startAt (FlyIn.start st) time = time ->
  let '(pose, st', fin) := FlyIn.frame c time st in
  FlyIn.pose_pitch pose = FlyIn.startPitch c
  /\ FlyIn.pose_bearing pose = FlyIn.startBearing c
  /\ FlyIn.pose_altitude pose = FlyIn.startAltitude c
  /\ FlyIn.pose_position pose
     = Utils.rawCameraPosition (FlyIn.startPitch c) (FlyIn.startBearing c)
         (FlyIn.targetLngLat c) (FlyIn.startAltitude c)
  /\ FlyIn.start st' = Some time
  /\ FlyIn.previousCameraPosition st' = Some (FlyIn.pose_position pose)
  /\ fin = None.
Proof.
  intros Hd Hs; unfold FlyIn.frame.
  assert (Hphase : FlyIn.animationPhase c (FlyIn.start st) time = 0).
  { unfold FlyIn.animationPhase, FlyIn.elapsedPhase; rewrite Hs.
    replace ((time - time) / FlyIn.duration c) with 0 by (field; exact Hd).
    destruct (JS.gtb 0 1) eqn:E; [apply gtb_true in E; lra | reflexivity]. }
  rewrite Hphase, Hs, easeCubicOut_0, !Rmult_0_r, !Rplus_0_r.
  unfold Utils.computeCameraPosition; cbv zeta.
  destruct (JS.eqb 0 1) eqn:E; [apply eqb_true in E; lra |].
  cbn; repeat split; reflexivity.
Qed.

(** X12. Whatever the first timestamp, the first frame of the fly-in
    applies the start pitch, bearing and altitude, places the camera with
    them, records the timestamp as start and does not resolve. *)
Theorem flyInAndRotate_first_frame (c : FlyIn.Config) (time : R)
    (cache : option LngLat) :
  FlyIn.duration c <> 0 ->
  let '(pose, st', fin) := FlyIn.frame c time (FlyIn.initial cache) in
  FlyIn.pose_pitch pose = FlyIn.startPitch c
  /\ FlyIn.pose_bearing pose = FlyIn.startBearing c
  /\ FlyIn.pose_altitude pose = FlyIn.startAltitude c
  /\ FlyIn.pose_position pose
     = Utils.rawCameraPosition (FlyIn.startPitch c) (FlyIn.startBearing c)
         (FlyIn.targetLngLat c) (FlyIn.startAltitude c)
  /\ FlyIn.start st' = Some time
  /\ FlyIn.previousCameraPosition st' = Some (FlyIn.pose_position pose)
  /\ fin = None.
Proof.
  intros Hd; apply (frame_restart c time (FlyIn.initial cache) Hd); reflexivity.
Qed.

(** X12, on the seven-second fly-in at timestamp 16. *)
Lemma flyInAndRotate_first_frame_spaceView :
  FlyIn.duration Examples.spaceView <> 0
  /\ let '(pose, st', fin) :=
       FlyIn.frame Examples.spaceView 16 (FlyIn.initial None) in
     FlyIn.pose_altitude pose = 3000000 /\ fin = None.
Proof.
  assert (Hd : FlyIn.duration Examples.spaceView <> 0) by (simpl; lra).
  split; [exact Hd |].
  pose proof (flyInAndRotate_first_frame Examples.spaceView 16 None Hd) as H.
  destruct (FlyIn.frame Examples.spaceView 16 (FlyIn.initial None))
    as [[pose st'] fin].
  destruct H as (_ & _ & Ha & _ & _ & _ & Hf); split; assumption.
Defined.

(** X13. On every frame whose timestamp is not before the recorded start,
    the pitch, the bearing and the altitude applied lie between their start
    and end values. *)
Theorem flyInAndRotate_within_ends (c : FlyIn.Config) (time : R)
    (st : FlyIn.State) :
  0 < FlyIn.duration c ->
  FlyIn.startAt (FlyIn.start st) time <= time ->
  let '(pose, _, _) := FlyIn.frame c time st in
  Rmin (FlyIn.startPitch c) (FlyIn.endPitch c) <= FlyIn.pose_pitch pose
    <= Rmax (FlyIn.startPitch c) (FlyIn.endPitch c)
  /\ Rmin (FlyIn.startBearing c) (FlyIn.endBearing c) <= FlyIn.pose_bearing pose
       <= Rmax (FlyIn.startBearing c) (FlyIn.endBearing c)
  /\ Rmin (FlyIn.startAltitude c) (FlyIn.endAltitude c) <= FlyIn.pose_altitude pose
       <= Rmax (FlyIn.startAltitude c) (FlyIn.endAltitude c).
Proof.
  intros Hd Hs; unfold FlyIn.frame.
  assert (Hphase : 0 <= FlyIn.animationPhase c (FlyIn.start st) time <= 1).
  { split; [| now apply animationPhase_le_1].
    unfold FlyIn.animationPhase.
    assert (H0 : 0 <= FlyIn.elapsedPhase c (FlyIn.start st) time).
    { unfold FlyIn.elapsedPhase, Rdiv; apply Rmult_le_pos; [lra |].
      left; now apply Rinv_0_lt_compat. }
    destruct (JS.gtb (FlyIn.elapsedPhase c (FlyIn.start st) time) 1); lra. }
  pose proof (easeCubicOut_range _ Hphase) as Hease.
  unfold Utils.computeCameraPosition; cbv zeta.
  destruct (JS.eqb (FlyIn.animationPhase c (FlyIn.start st) time) 1);
    cbn [FlyIn.pose_pitch FlyIn.pose_bearing FlyIn.pose_altitude];
    repeat split; apply between_ends; exact Hease.
Qed.

(** X13, on the seven-second fly-in, 3.5 seconds after a start at 16. *)
Lemma flyInAndRotate_within_ends_spaceView :
  (0 < FlyIn.duration Examples.spaceView
   /\ FlyIn.startAt (Some 16) 3516 <= 3516)
  /\ let '(pose, _, _) :=
       FlyIn.frame Examples.spaceView 3516
         {| FlyIn.start := Some 16; FlyIn.previousCameraPosition := None |} in
     Rmin 3000000 1000 <= FlyIn.pose_altitude pose <= Rmax 3000000 1000.
Proof.
  assert (Hd : 0 < FlyIn.duration Examples.spaceView) by (simpl; lra).
  assert (Hs : FlyIn.startAt (Some 16) 3516 <= 3516).
  { rewrite startAt_started; lra. }
  split; [split; assumption |].
  pose proof (flyInAndRotate_within_ends Examples.spaceView 3516
                {| FlyIn.start := Some 16;
                   FlyIn.previousCameraPosition := None |} Hd Hs) as H.
  destruct (FlyIn.frame Examples.spaceView 3516 _) as [[pose st'] fin].
  apply H.
Defined.

(** X14. A first timestamp of 0 is not kept as the start: [if (!start)]
    reads the stored 0 as unset, so the next frame, whatever its timestamp,
    records its own time as start, applies the start pose again and does
    not resolve. *)
Theorem flyInAndRotate_zero_timestamp (c : FlyIn.Config) (time : R)
    (cache : option LngLat) :
  FlyIn.duration c <> 0 ->
  let '(_, st1, _) := FlyIn.frame c 0 (FlyIn.initial cache) in
  FlyIn.start st1 = Some 0
  /\ let '(pose, st2, fin) := FlyIn.frame c time st1 in
     FlyIn.pose_pitch pose = FlyIn.startPitch c
     /\ FlyIn.pose_bearing pose = FlyIn.startBearing c
     /\ FlyIn.pose_altitude pose = FlyIn.startAltitude c
     /\ FlyIn.start st2 = Some time
     /\ fin = None.
Proof.
  intros Hd.
  pose proof (frame_restart c 0 (FlyIn.initial cache) Hd eq_refl) as H1.
  destruct (FlyIn.frame c 0 (FlyIn.initial cache)) as [[pose1 st1] fin1].
  destruct H1 as (_ & _ & _ & _ & Hs1 & _).
  split; [exact Hs1 |].
  assert (Hs : FlyIn.startAt (FlyIn.start st1) time = time).
  { rewrite Hs1; unfold FlyIn.startAt; now rewrite truthy_zero. }
  pose proof (frame_restart c time st1 Hd Hs) as H2.
  destruct (FlyIn.frame c time st1) as [[pose st2] fin].
  destruct H2 as (Hp & Hb & Ha & _ & Hst & _ & Hf).
  repeat split; assumption.
Qed.

(** X14, on the seven-second fly-in with timestamps 0 and 8000. *)
Lemma flyInAndRotate_zero_timestamp_spaceView :
  FlyIn.duration Examples.spaceView <> 0
  /\ let '(_, st1, _) := FlyIn.frame Examples.spaceView 0 (FlyIn.initial None) in
     let '(pose, st2, fin) := FlyIn.frame Examples.spaceView 8000 st1 in
     FlyIn.pose_altitude pose = 3000000 /\ fin = None.
Proof.
  assert (Hd : FlyIn.duration Examples.spaceView <> 0) by (simpl; lra).
  split; [exact Hd |].
  pose proof (flyInAndRotate_zero_timestamp Examples.spaceView 8000 None Hd) as H.
  destruct (FlyIn.frame Examples.spaceView 0 (FlyIn.initial None))
    as [[pose1 st1] fin1].
  destruct H as [_ H].
  destruct (FlyIn.frame Examples.spaceView 8000 st1) as [[pose st2] fin].
  destruct H as (_ & _ & Ha & _ & Hf); split; assumption.
Defined.

(** ** The timed path driver and the two stages of the first page *)

Section TimedPathFacts.
Import TimedPath.
Context {T : Turf}.
Variable c : Config.

(** A frame resolves exactly when its phase exceeds 1; otherwise it renders
    with the bearing and altitude of the configuration, blends its raw
    position with the cached one and caches the result. *)
Lemma timed_frame_cases (currentTime : R) (st : State) :
  (animationPhase c (startTime st) currentTime > 1
   /\ frame c currentTime st
      = (None, {| startTime := Some (FlyIn.startAt (startTime st) currentTime);
                  previousCameraPosition := previousCameraPosition st |}))
  \/ (animationPhase c (startTime st) currentTime <= 1
      /\ exists e,
          frame c currentTime st
          = (Some e,
             {| startTime := Some (FlyIn.startAt (startTime st) currentTime);
                previousCameraPosition := Some (correctedPosition e) |})
          /\ bearing e = startBearing c
          /\ altitude e = startAltitude c
          /\ reveal e = animationPhase c (startTime st) currentTime
          /\ correctedPosition e
             = match previousCameraPosition st with
               | Some p => blend p (rawOf c e)
               | None => rawOf c e
               end).
Proof.
  unfold frame.
  destruct (JS.gtb (animationPhase c (startTime st) currentTime) 1) eqn:E.
  - left; apply gtb_true in E; split; [exact E | reflexivity].
  - right; apply gtb_false in E; split; [exact E |].
    unfold Utils.computeCameraPosition; cbv zeta.
    match goal with
    | |- exists e, (Some ?x, _) = _ /\ _ => exists x
    end.
    split; [reflexivity |].
    cbn; repeat split.
Qed.

(** Over a run: every rendered frame has the bearing and the altitude of
    the configuration and a reveal of at most 1; the first one blends with
    the position cached before the run; every later one blends with the
    position of the frame before it. *)
Lemma timed_run_chain (ticks : list R) :
  forall st es st' done,
    run c ticks st = (es, st', done) ->
    (forall e, In e es ->
               bearing e = startBearing c /\ altitude e = startAltitude c
               /\ reveal e <= 1)
    /\ (forall p e rest,
           previousCameraPosition st = Some p -> es = e :: rest ->
           correctedPosition e = blend p (rawOf c e))
    /\ (forall i e1 e2,
           nth_error es i = Some e1 -> nth_error es (S i) = Some e2 ->
           correctedPosition e2 = blend (correctedPosition e1) (rawOf c e2)).
Proof.
  induction ticks as [| t ticks IH]; intros st es st' done Hrun.
  - simpl in Hrun; inversion Hrun; subst.
    split; [intros e []|]; split.
    + intros p e rest _ Hes; discriminate.
    + intros [| i] e1 e2 H1; discriminate.
  - simpl in Hrun.
    destruct (timed_frame_cases t st)
      as [[_ Hf] | [Hphase (e & Hf & Hb & Ha & Hr & Hpos)]];
      rewrite Hf in Hrun.
    + inversion Hrun; subst.
      split; [intros e0 []|]; split.
      * intros p e0 rest _ Hes; discriminate.
      * intros [| i] e1 e2 H1; discriminate.
    + destruct (run c ticks _) as [[es1 st1] done1] eqn:Hrest.
      inversion Hrun; subst.
      destruct (IH _ _ _ _ Hrest) as (Hall & Hfirst & Hadj).
      split; [| split].
      * intros e0 [<- | Hin]; [| now apply Hall].
        repeat split; [assumption | assumption | lra].
      * intros p e0 rest Hp Hes; inversion Hes; subst.
        now rewrite Hpos, Hp.
      * intros [| i] e1 e2 H1 H2.
        -- simpl in H1; inversion H1; subst e1.
           destruct es1 as [| e3 es3]; [discriminate |].
           simpl in H2; inversion H2; subst e3.
           now apply (Hfirst (correctedPosition e) e2 es3).
        -- now apply (Hadj i).
Qed.

Hypothesis duration_pos : 0 < duration c.

Lemma timed_phase_le (s0 u : R) :
  s0 <> 0 -> u - s0 <= duration c -> animationPhase c (Some s0) u <= 1.
Proof.
  intros Hs Hu; unfold animationPhase; rewrite startAt_started by assumption.
  apply Rmult_le_reg_r with (duration c); [exact duration_pos |].
  unfold Rdiv; rewrite Rmult_assoc, Rinv_l; lra.
Qed.

Lemma timed_phase_gt (s0 u : R) :
  s0 <> 0 -> u - s0 > duration c -> animationPhase c (Some s0) u > 1.
Proof.
  intros Hs Hu; unfold animationPhase; rewrite startAt_started by assumption.
  apply Rmult_lt_reg_r with (duration c); [exact duration_pos |].
  unfold Rdiv; rewrite Rmult_assoc, Rinv_l; lra.
Qed.

(** From a started driver, the run renders every tick up to the first one
    whose elapsed time exceeds the duration and resolves there. *)
Lemma timed_run_started (pre : list R) :
  forall (s0 : R) (cache : option LngLat) (t : R) (post : list R),
    s0 <> 0 ->
    (forall u, In u pre -> u - s0 <= duration c) ->
    t - s0 > duration c ->
    exists es st',
      run c (pre ++ t :: post)
        {| startTime := Some s0; previousCameraPosition := cache |}
      = (es, st', true)
      /\ length es = length pre.
Proof.
  induction pre as [| u pre IH]; intros s0 cache t post Hs Hpre Ht.
  - destruct (timed_frame_cases t
                {| startTime := Some s0; previousCameraPosition := cache |})
      as [[_ Hf] | [Hle _]].
    + exists []; eexists; simpl; rewrite Hf; split; reflexivity.
    + cbn [startTime] in Hle.
      pose proof (timed_phase_gt s0 t Hs Ht); lra.
  - destruct (timed_frame_cases u
                {| startTime := Some s0; previousCameraPosition := cache |})
      as [[Hgt _] | [_ (e & Hf & _)]].
    + cbn [startTime] in Hgt.
      pose proof (timed_phase_le s0 u Hs (Hpre u (or_introl eq_refl))); lra.
    + cbn [startTime] in Hf; rewrite startAt_started in Hf by assumption.
      destruct (IH s0 (Some (correctedPosition e)) t post Hs)
        as (es & st' & Hrun & Hlen).
      { intros v Hv; apply Hpre; now right. }
      { exact Ht. }
      exists (e :: es), st'; simpl; rewrite Hf, Hrun.
      split; [reflexivity | simpl; now rewrite Hlen].
Qed.

End TimedPathFacts.

(** X15. Over any run of the timed path driver, every rendered frame keeps
    the bearing and the altitude it was configured with and reveals at most
    the whole line, and the camera position of each frame after the first
    is 0.95 times the position of the frame before it plus 0.05 times its
    own raw position. *)
Theorem timedPath_smoothed_chain {T : Turf} (c : TimedPath.Config)
    (ticks : list R) (st : TimedPath.State) :
  let '(es, _, _) := TimedPath.run c ticks st in
  (forall e, In e es ->
             TimedPath.bearing e = TimedPath.startBearing c
             /\ TimedPath.altitude e = TimedPath.startAltitude c
             /\ TimedPath.reveal e <= 1)
  /\ (forall i e1 e2,
         nth_error es i = Some e1 -> nth_error es (S i) = Some e2 ->
         let raw :=
           Utils.rawCameraPosition (TimedPath.pitch c) (TimedPath.startBearing c)
             (TimedPath.lngLat e2) (TimedPath.startAltitude c) in
         lng (TimedPath.correctedPosition e2)
         = 0.95 * lng (TimedPath.correctedPosition e1) + 0.05 * lng raw
         /\ lat (TimedPath.correctedPosition e2)
            = 0.95 * lat (TimedPath.correctedPosition e1) + 0.05 * lat raw).
Proof.
  destruct (TimedPath.run c ticks st) as [[es st'] done] eqn:Hrun.
  destruct (timed_run_chain c ticks _ _ _ _ Hrun) as (Hall & _ & Hadj).
  split; [exact Hall |].
  intros i e1 e2 H1 H2 raw.
  rewrite (Hadj i e1 e2 H1 H2).
  unfold TimedPath.blend, TimedPath.rawOf, Utils.lerp; cbn [lng lat].
  fold raw; split; lra.
Qed.

(** X16. With a positive duration and a first timestamp other than 0, the
    timed path driver renders every frame whose elapsed time is at most the
    duration, the one at exactly the duration included, and resolves at the
    first frame whose elapsed time exceeds it. *)
Theorem timedPath_resolves {T : Turf} (c : TimedPath.Config)
    (t0 : R) (pre : list R) (t : R) (post : list R) (cache : option LngLat) :
  0 < TimedPath.duration c ->
  t0 <> 0 ->
  (forall u, In u pre -> u - t0 <= TimedPath.duration c) ->
  t - t0 > TimedPath.duration c ->
  exists es st',
    TimedPath.run c (t0 :: pre ++ t :: post) (TimedPath.initial cache)
    = (es, st', true)
    /\ length es = S (length pre).
Proof.
  intros Hd Ht0 Hpre Ht.
  destruct (timed_frame_cases c t0 (TimedPath.initial cache))
    as [[Hgt _] | [_ (e & Hf & _)]].
  - exfalso; unfold TimedPath.animationPhase in Hgt; simpl in Hgt.
    replace ((t0 - t0) / TimedPath.duration c) with 0 in Hgt by (field; lra).
    lra.
  - simpl in Hf.
    destruct (timed_run_started c Hd pre t0
                (Some (TimedPath.correctedPosition e)) t post Ht0 Hpre Ht)
      as (es & st' & Hrun & Hlen).
    exists (e :: es), st'.
    change (TimedPath.run c (t0 :: pre ++ t :: post) (TimedPath.initial cache))
      with (match TimedPath.frame c t0 (TimedPath.initial cache) with
            | (None, st1) => ([], st1, true)
            | (Some e1, st1) =>
                let '(es1, st2, done) := TimedPath.run c (pre ++ t :: post) st1 in
                (e1 :: es1, st2, done)
            end).
    rewrite Hf, Hrun; split; [reflexivity | simpl; now rewrite Hlen].
Qed.

(** X16, for a one-minute path with frames at 16, 30016, 60016 and
    60032 ms. *)
Lemma timedPath_resolves_minute :
  let T := Examples.fixedTurf 1 (45, 0) [] in
  let c :=
    {| TimedPath.duration := 60000; TimedPath.path := [ (0, 0); (90, 0) ];
       TimedPath.startBearing := - 20; TimedPath.startAltitude := 12000;
       TimedPath.pitch := 50 |} in
  (0 < TimedPath.duration c /\ 16 <> 0
   /\ (forall u, In u [30016; 60016] -> u - 16 <= TimedPath.duration c)
   /\ 60032 - 16 > TimedPath.duration c)
  /\ exists es st',
      TimedPath.run c [16; 30016; 60016; 60032; 60048] (TimedPath.initial None)
      = (es, st', true)
      /\ length es = 3%nat.
Proof.
  intros T c.
  assert (Hd : 0 < TimedPath.duration c) by (simpl; lra).
  assert (H0 : 16 <> 0) by lra.
  assert (Hpre : forall u, In u [30016; 60016] -> u - 16 <= TimedPath.duration c).
  { intros u [<- | [<- | []]]; simpl; lra. }
  assert (Ht : 60032 - 16 > TimedPath.duration c) by (simpl; lra).
  split; [repeat split; assumption |].
  exact (timedPath_resolves c 16 [30016; 60016] 60032 [60048] None Hd H0 Hpre Ht).
Defined.

(** Every fly-in frame leaves the position it applied in the cache. *)
Lemma flyIn_frame_cache (c : FlyIn.Config) (time : R) (st : FlyIn.State) :
  let '(pose, st', _) := FlyIn.frame c time st in
  FlyIn.previousCameraPosition st' = Some (FlyIn.pose_position pose).
Proof.
  unfold FlyIn.frame, Utils.computeCameraPosition; cbv zeta.
  destruct (JS.eqb (FlyIn.animationPhase c (FlyIn.start st) time) 1);
    reflexivity.
Qed.

Section StagesFacts.
Import PlayAnimations.
Context {T : Turf}.
Variable coordinates : list Position.
Variable targetLngLat : LngLat.

Lemma flyInConfig_duration_pos : 0 < FlyIn.duration (flyInConfig targetLngLat).
Proof. simpl; lra. Qed.

(** From a started fly-in, the stages run the fly-in up to the first frame
    whose elapsed time has reached 7000 ms and hand the frames after it to
    the path driver, configured with the bearing and altitude of that frame
    and started on a cache that holds its position. *)
Lemma stages_started (pre : list R) :
  forall (s0 : R) (cache : option LngLat) (t : R) (rest : list R),
    s0 <> 0 ->
    (forall u, In u pre -> u - s0 < 7000) ->
    t - s0 >= 7000 ->
    exists poses final,
      stages coordinates targetLngLat (pre ++ t :: rest)
        {| FlyIn.start := Some s0; FlyIn.previousCameraPosition := cache |}
      = (let '(es, _, done) :=
           TimedPath.run
             (pathConfig coordinates
                {| FlyIn.bearing := FlyIn.pose_bearing final;
                   FlyIn.altitude := FlyIn.pose_altitude final |})
             rest
             (TimedPath.initial (Some (FlyIn.pose_position final))) in
         (poses ++ [final], es, done))
      /\ length poses = length pre
      /\ FlyIn.pose_bearing final = - 20
      /\ FlyIn.pose_altitude final = 12000.
Proof.
  pose proof flyInConfig_duration_pos as Hd.
  induction pre as [| u pre IH]; intros s0 cache t rest Hs Hpre Ht.
  - pose proof (flyIn_frame_cache (flyInConfig targetLngLat) t
                  {| FlyIn.start := Some s0;
                     FlyIn.previousCameraPosition := cache |}) as Hcache.
    destruct (frame_done (flyInConfig targetLngLat) Hd t
                {| FlyIn.start := Some s0;
                   FlyIn.previousCameraPosition := cache |})
      as (pose & cache' & Hf & Ha & Hb & _).
    { cbn [FlyIn.start]; rewrite startAt_started by assumption.
      simpl; lra. }
    rewrite Hf in Hcache; cbn [FlyIn.previousCameraPosition] in Hcache.
    exists [], pose; cbn [app stages]; rewrite Hf.
    cbn [FlyIn.previousCameraPosition]; rewrite Hcache.
    destruct (TimedPath.run _ rest _) as [[es st2] done].
    repeat split; assumption.
  - destruct (frame_running (flyInConfig targetLngLat) Hd u
                {| FlyIn.start := Some s0;
                   FlyIn.previousCameraPosition := cache |})
      as (pose & cache' & Hf).
    { cbn [FlyIn.start]; rewrite startAt_started by assumption.
      simpl; apply Hpre; now left. }
    cbn [FlyIn.start] in Hf; rewrite startAt_started in Hf by assumption.
    destruct (IH s0 cache' t rest Hs) as (poses & final & Hst & Hl & Hb & Ha).
    { intros v Hv; apply Hpre; now right. }
    { exact Ht. }
    exists (pose :: poses), final.
    cbn [app stages]; rewrite Hf, Hst.
    destruct (TimedPath.run _ rest _) as [[es st2] done].
    repeat split; try assumption; simpl; now rewrite Hl.
Qed.

End StagesFacts.

(** [coordinates.slice(-1)[0]] is the last coordinate of a line that has
    one. *)
Lemma sliceLast_last (coordinates : list Position) (d : Position) :
  coordinates <> [] ->
  nth_error (PlayAnimations.sliceLast coordinates) 0 = Some (last coordinates d).
Proof.
  unfold PlayAnimations.sliceLast.
  induction coordinates as [| x xs IH]; intros Hne; [contradiction |].
  destruct xs as [| y ys]; [reflexivity |].
  change (last (x :: y :: ys) d) with (last (y :: ys) d).
  rewrite <- IH by discriminate.
  cbn [length]; rewrite !Nat.sub_succ, !Nat.sub_0_r; reflexivity.
Qed.

(** On a line with a first coordinate [addPathSourceAndLayer] returns: the
    start pins are circles around the first coordinate, the end pins
    circles around the last. *)
Lemma addPathSourceAndLayer_ok (coordinates : list Position) (first : Position) :
  nth_error coordinates 0 = Some first ->
  PlayAnimations.addPathSourceAndLayer coordinates
  = Ok {| PlayAnimations.startPinBase :=
            GeoJSONCircle.createGeoJSONCircle first 0.04 64;
          PlayAnimations.startPinTop :=
            GeoJSONCircle.createGeoJSONCircle first 0.25 64;
          PlayAnimations.endPinBase :=
            GeoJSONCircle.createGeoJSONCircle (last coordinates first) 0.04 64;
          PlayAnimations.endPinTop :=
            GeoJSONCircle.createGeoJSONCircle (last coordinates first) 0.25 64 |}.
Proof.
  intros Hfirst; unfold PlayAnimations.addPathSourceAndLayer.
  rewrite Hfirst, (sliceLast_last coordinates first); [reflexivity |].
  intros ->; discriminate.
Qed.

(** X17. [playAnimations] first calls [addPathSourceAndLayer]; on a line
    without coordinates that call throws, in [createGeoJSONCircle] on the
    [undefined] first coordinate, so nothing of the animation runs.  On a
    line with coordinates it adds the pins around the first and the last
    coordinate, and once the fly-in has resolved, every frame of the path
    stage is rendered with the end bearing -20 and the end altitude 12000
    of the fly-in, and the first of them places the camera at 0.95 times
    the last fly-in position plus 0.05 times its own raw position: the two
    stages share one smoothing cache. *)
Theorem playAnimations_handoff {T : Turf} (coordinates : list Position)
    (first : Position) (t0 : R) (pre : list R) (t : R) (rest : list R)
    (cache : option LngLat) :
  nth_error coordinates 0 = Some first ->
  t0 <> 0 ->
  (forall u, In u pre -> u - t0 < 7000) ->
  t - t0 >= 7000 ->
  (PlayAnimations.pin (nth_error [] 0) 0.04 = Throw "TypeError: undefined value"
   /\ PlayAnimations.addPathSourceAndLayer []
      = Throw "TypeError: undefined value"
   /\ PlayAnimations.playAnimations [] (t0 :: pre ++ t :: rest) cache
      = Throw "TypeError: undefined value")
  /\ exists pins poses final es done,
      PlayAnimations.playAnimations coordinates (t0 :: pre ++ t :: rest) cache
      = Ok (pins, (poses ++ [final], es, done))
      /\ PlayAnimations.addPathSourceAndLayer coordinates = Ok pins
      /\ PlayAnimations.startPinBase pins
         = GeoJSONCircle.createGeoJSONCircle first 0.04 64
      /\ PlayAnimations.endPinBase pins
         = GeoJSONCircle.createGeoJSONCircle (last coordinates first) 0.04 64
      /\ length poses = S (length pre)
      /\ FlyIn.pose_bearing final = - 20
      /\ FlyIn.pose_altitude final = 12000
      /\ (forall e, In e es ->
                    TimedPath.bearing e = - 20 /\ TimedPath.altitude e = 12000)
      /\ (forall e es',
             es = e :: es' ->
             let raw :=
               Utils.rawCameraPosition 50 (- 20) (TimedPath.lngLat e) 12000 in
             lng (TimedPath.correctedPosition e)
             = 0.95 * lng (FlyIn.pose_position final) + 0.05 * lng raw
             /\ lat (TimedPath.correctedPosition e)
                = 0.95 * lat (FlyIn.pose_position final) + 0.05 * lat raw).
Proof.
  intros Hfirst Ht0 Hpre Ht.
  split; [split; [reflexivity | split; reflexivity] |].
  unfold PlayAnimations.playAnimations.
  rewrite (addPathSourceAndLayer_ok coordinates first Hfirst); cbn [bind].
  unfold at_index; rewrite Hfirst; cbn [bind].
  set (target := {| lng := fst first; lat := snd first |}).
  pose proof (flyInConfig_duration_pos target) as Hd.
  destruct (frame_running (PlayAnimations.flyInConfig target) Hd t0
              (FlyIn.initial cache)) as (pose0 & cache0 & Hf0).
  { simpl; lra. }
  simpl in Hf0.
  destruct (stages_started coordinates target pre t0 cache0 t rest Ht0 Hpre Ht)
    as (poses & final & Hst & Hl & Hb & Ha).
  change (PlayAnimations.stages coordinates target (t0 :: pre ++ t :: rest)
            (FlyIn.initial cache))
    with (let '(pose, st', fin) :=
            FlyIn.frame (PlayAnimations.flyInConfig target) t0
              (FlyIn.initial cache) in
          match fin with
          | Some final0 =>
              let '(es, _, done) :=
                TimedPath.run (PlayAnimations.pathConfig coordinates final0)
                  (pre ++ t :: rest)
                  (TimedPath.initial (FlyIn.previousCameraPosition st')) in
              ([pose], es, done)
          | None =>
              let '(poses0, es, done) :=
                PlayAnimations.stages coordinates target (pre ++ t :: rest) st' in
              (pose :: poses0, es, done)
          end).
  rewrite Hf0, Hst.
  destruct (TimedPath.run _ rest _) as [[es st2] done] eqn:Hrun.
  destruct (timed_run_chain _ _ _ _ _ _ Hrun) as (Hall & Hfirst' & _).
  eexists; exists (pose0 :: poses), final, es, done.
  split; [reflexivity |]; split; [reflexivity |].
  split; [reflexivity |]; split; [reflexivity |].
  split; [simpl; now rewrite Hl |].
  split; [exact Hb |]; split; [exact Ha |]; split.
  - intros e He; destruct (Hall e He) as (H1 & H2 & _).
    cbn in H1, H2; rewrite H1, H2; split; assumption.
  - intros e es' Hes.
    rewrite (Hfirst' (FlyIn.pose_position final) e es' eq_refl Hes).
    unfold TimedPath.blend, TimedPath.rawOf, Utils.lerp; cbn.
    rewrite Hb, Ha; split; lra.
Qed.

(** X17, for a two-point line with frames at 16, 3000, 7016 and 7032 ms. *)
Lemma playAnimations_handoff_example :
  let T := Examples.fixedTurf 1 (45, 0) [] in
  (nth_error [ (0, 0); (90, 0) ] 0 = Some (0, 0) /\ 16 <> 0
   /\ (forall u, In u [3000] -> u - 16 < 7000) /\ 7016 - 16 >= 7000)
  /\ exists pins poses final es done,
      PlayAnimations.playAnimations [ (0, 0); (90, 0) ]
        [16; 3000; 7016; 7032] None
      = Ok (pins, (poses ++ [final], es, done))
      /\ PlayAnimations.endPinBase pins
         = GeoJSONCircle.createGeoJSONCircle (90, 0) 0.04 64
      /\ FlyIn.pose_altitude final = 12000
      /\ (forall e, In e es ->
                    TimedPath.bearing e = - 20 /\ TimedPath.altitude e = 12000).
Proof.
  intros T.
  assert (H0 : 16 <> 0) by lra.
  assert (Hpre : forall u, In u [3000] -> u - 16 < 7000).
  { intros u [<- | []]; lra. }
  assert (Ht : 7016 - 16 >= 7000) by lra.
  split; [repeat split; assumption |].
  destruct (proj2 (playAnimations_handoff [ (0, 0); (90, 0) ] (0, 0) 16 [3000]
                     7016 [7032] None eq_refl H0 Hpre Ht))
    as (pins & poses & final & es & done & Hp & _ & _ & He & _ & _ & Ha
        & Hall & _).
  exists pins, poses, final, es, done.
  split; [exact Hp |]; split; [exact He |]; split; [exact Ha |].
  intros e Hin; split; now apply Hall.
Defined.

(** ** The circle of the pins *)

Section CircleFacts.
Import GeoJSONCircle.
Variables (center : Position) (radiusInKm : R) (points : nat).

Lemma ring_vertex (i : nat) :
  (i < points)%nat ->
  nth_error (createGeoJSONCircle center radiusInKm points) i
  = Some (Some (vertex center radiusInKm points i)).
Proof.
  intros Hi; unfold createGeoJSONCircle.
  rewrite nth_error_app1 by (now rewrite !length_map, length_seq).
  rewrite !nth_error_map, nth_error_seq.
  destruct (Nat.ltb_spec i points) as [_ | Hge]; [reflexivity | lia].
Qed.

Lemma ring_closing :
  nth_error (createGeoJSONCircle center radiusInKm points) points
  = Some (nth_error (map (vertex center radiusInKm points) (seq 0 points)) 0).
Proof.
  unfold createGeoJSONCircle.
  rewrite nth_error_app2 by (rewrite !length_map, length_seq; lia).
  rewrite !length_map, length_seq, Nat.sub_diag; reflexivity.
Qed.

Lemma vertex_first :
  (0 < points)%nat ->
  vertex center radiusInKm points 0
  = (fst center
     + radiusInKm / (111.320 * cos ((snd center * PI) / 180)),
     snd center).
Proof.
  intros _; unfold vertex.
  replace (INR 0 / INR points * (2 * PI)) with 0
    by (simpl; unfold Rdiv; ring).
  rewrite cos_0, sin_0; apply f_equal2; ring.
Qed.

End CircleFacts.

(** X18. [createGeoJSONCircle] returns a ring of [points + 1] entries.
    With at least one point every entry is a vertex and the ring is closed:
    its last entry repeats its first, the point due east of the centre.
    With no point the ring is the single entry [undefined]. *)
Theorem createGeoJSONCircle_closed_ring (center : Position) (radiusInKm : R)
    (points : nat) :
  let ring := GeoJSONCircle.createGeoJSONCircle center radiusInKm points in
  length ring = S points
  /\ (points = 0%nat -> ring = [None])
  /\ ((0 < points)%nat ->
      let east :=
        (fst center + radiusInKm / (111.320 * cos ((snd center * PI) / 180)),
         snd center) in
      nth_error ring 0 = Some (Some east)
      /\ nth_error ring points = Some (Some east)
      /\ forall i, (i <= points)%nat -> exists v, nth_error ring i = Some (Some v)).
Proof.
  cbv zeta; split; [| split].
  - unfold GeoJSONCircle.createGeoJSONCircle.
    rewrite length_app, !length_map, length_seq; simpl; lia.
  - intros ->; reflexivity.
  - intros Hpos.
    pose proof (ring_vertex center radiusInKm points 0 Hpos) as H0.
    rewrite (vertex_first center radiusInKm points Hpos) in H0.
    assert (Hlast : nth_error
                      (GeoJSONCircle.createGeoJSONCircle center radiusInKm points)
                      points
                    = Some (Some (fst center
                                  + radiusInKm
                                    / (111.320 * cos ((snd center * PI) / 180)),
                                  snd center))).
    { rewrite ring_closing, nth_error_map, nth_error_seq.
      destruct (Nat.ltb_spec 0 points) as [_ | Hge]; [| lia].
      cbn [option_map Nat.add].
      now rewrite (vertex_first center radiusInKm points Hpos). }
    split; [exact H0 |]; split; [exact Hlast |].
    intros i Hi.
    destruct (Nat.eq_dec i points) as [-> | Hne].
    + eexists; exact Hlast.
    + eexists; apply ring_vertex; lia.
Qed.

(** X19. Every vertex that [createGeoJSONCircle] computes lies on the
    ellipse around the centre whose half-axes are the radius converted to
    degrees of longitude and of latitude. *)
Theorem createGeoJSONCircle_on_ellipse (center : Position) (radiusInKm : R)
    (points i : nat) :
  (i < points)%nat ->
  let distanceX := radiusInKm / (111.320 * cos ((snd center * PI) / 180)) in
  let distanceY := radiusInKm / 110.574 in
  exists x y,
    nth_error (GeoJSONCircle.createGeoJSONCircle center radiusInKm points) i
    = Some (Some (x, y))
    /\ (x - fst center) * (x - fst center) * (distanceY * distanceY)
       + (y - snd center) * (y - snd center) * (distanceX * distanceX)
       = distanceX * distanceX * (distanceY * distanceY).
Proof.
  intros Hi distanceX distanceY.
  rewrite (ring_vertex center radiusInKm points i Hi).
  unfold GeoJSONCircle.vertex; cbv zeta; fold distanceX distanceY.
  eexists; eexists; split; [reflexivity |].
  set (theta := INR i / INR points * (2 * PI)).
  pose proof (sin_cos_sq theta) as Hsc.
  replace ((fst center + distanceX * cos theta - fst center)
           * (fst center + distanceX * cos theta - fst center)
           * (distanceY * distanceY)
           + (snd center + distanceY * sin theta - snd center)
             * (snd center + distanceY * sin theta - snd center)
             * (distanceX * distanceX))
    with (distanceX * distanceX * (distanceY * distanceY)
          * (sin theta * sin theta + cos theta * cos theta)) by ring.
  rewrite Hsc; ring.
Qed.

(** X19, for the third of the 64 vertices of a pin. *)
Lemma createGeoJSONCircle_on_ellipse_pin :
  (2 < 64)%nat
  /\ exists x y,
      nth_error (GeoJSONCircle.createGeoJSONCircle (120, 30) 0.04 64) 2
      = Some (Some (x, y)).
Proof.
  split; [lia |].
  destruct (createGeoJSONCircle_on_ellipse (120, 30) 0.04 64 2 ltac:(lia))
    as (x & y & H & _).
  exists x, y; exact H.
Defined.

(** ** Camera height and constant-speed zoom *)

Section ConverterFacts.
Import Converter.

Lemma pow2_succ (z : R) : JS.pow2 (z + 1) = 2 * JS.pow2 z.
Proof.
  unfold JS.pow2; rewrite Rpower_plus, Rpower_1 by lra; ring.
Qed.

Lemma log2_1 : JS.log2 1 = 0.
Proof. unfold JS.log2; rewrite ln_1; unfold Rdiv; ring. Qed.

Lemma log2_double (x : R) : 0 < x -> JS.log2 (2 * x) = JS.log2 x + 1.
Proof.
  intros Hx; unfold JS.log2; rewrite ln_mult by lra.
  pose proof ln2_pos; field; lra.
Qed.

(** [safeCos] of an angle whose cosine is positive is positive. *)
Lemma safeCos_pos (x : R) : 0 < cos x -> 0 < safeCos x.
Proof.
  intros Hc; unfold safeCos, sign.
  destruct (JS.ltb (Rabs (cos x)) 1e-5); [| exact Hc].
  destruct (Rlt_dec 0 (cos x)); [lra | contradiction].
Qed.

Lemma initial_cosines :
  0 < safeCos (degToRad (initial_lat initial))
  /\ 0 < safeCos (degToRad (initial_pitch initial)).
Proof.
  pose proof PI_RGT_0 as HPI.
  split; apply safeCos_pos, cos_gt_0; unfold degToRad; simpl; nra.
Qed.

End ConverterFacts.

(** X20. [getCameraHeight] halves with every zoom level: one level more, at
    the same centre, viewport and pitch, gives half the height. *)
Theorem getCameraHeight_halves (centerLat clientHeight zoom pitch : R) :
  Converter.getCameraHeight
    {| Converter.centerLat := centerLat; Converter.clientHeight := clientHeight;
       Converter.zoom := zoom + 1; Converter.pitch := pitch |}
  = Converter.getCameraHeight
      {| Converter.centerLat := centerLat; Converter.clientHeight := clientHeight;
         Converter.zoom := zoom; Converter.pitch := pitch |} / 2.
Proof.
  unfold Converter.getCameraHeight; cbn.
  rewrite pow2_succ; unfold Rdiv; rewrite Rinv_mult; ring.
Qed.

(** X21. [calculateZoomForConstantSpeed] never returns more than
    [maxZoom]; with [minZoom <= maxZoom] it never returns less than
    [minZoom]; with the limits the wrong way round it returns [maxZoom]. *)
Theorem calculateZoomForConstantSpeed_limits (current : Converter.Current)
    (minZoom maxZoom : R) :
  Converter.calculateZoomForConstantSpeed current minZoom maxZoom <= maxZoom
  /\ (minZoom <= maxZoom ->
      minZoom
      <= Converter.calculateZoomForConstantSpeed current minZoom maxZoom)
  /\ (maxZoom < minZoom ->
      Converter.calculateZoomForConstantSpeed current minZoom maxZoom
      = maxZoom).
Proof.
  unfold Converter.calculateZoomForConstantSpeed; split; [| split].
  - apply Rmin_l.
  - intros Hle; apply Rmin_glb; [exact Hle | apply Rmax_l].
  - intros Hlt; apply Rmin_left.
    pose proof (Rmax_l minZoom (Converter.resultZoom current)); lra.
Qed.

(** X22. At the speed, latitude and pitch of the initial state the zoom is
    the initial zoom 0, limited to the given range; with the default range
    [[0, 22]] it is exactly 0. *)
Theorem calculateZoomForConstantSpeed_initial (minZoom maxZoom : R) :
  let current :=
    {| Converter.speed := Converter.initial_speed Converter.initial;
       Converter.lat := Converter.initial_lat Converter.initial;
       Converter.current_pitch := Converter.initial_pitch Converter.initial |} in
  Converter.resultZoom current = 0
  /\ Converter.calculateZoomForConstantSpeed current minZoom maxZoom
     = Rmin maxZoom (Rmax minZoom 0)
  /\ Converter.calculateZoomForConstantSpeed current 0 22 = 0.
Proof.
  intros current.
  assert (E : Converter.resultZoom current = 0).
  { unfold Converter.resultZoom, current; cbv zeta.
    cbn [Converter.speed Converter.lat Converter.current_pitch].
    destruct initial_cosines as [Hlat Hpitch].
    rewrite !Rdiv_diag by (try (simpl; lra); lra).
    rewrite log2_1; simpl; ring. }
  split; [exact E |].
  unfold Converter.calculateZoomForConstantSpeed; rewrite E.
  split; [reflexivity |].
  rewrite Rmax_left, Rmin_right; lra.
Qed.

(** X23. At half the speed, with the same latitude and pitch, the zoom
    before limiting is one level higher; so is the result when both zooms
    lie within the limits. *)
Theorem calculateZoomForConstantSpeed_half_speed (speed lat pitch : R)
    (minZoom maxZoom : R) :
  0 < speed ->
  let current :=
    {| Converter.speed := speed; Converter.lat := lat;
       Converter.current_pitch := pitch |} in
  let slower :=
    {| Converter.speed := speed / 2; Converter.lat := lat;
       Converter.current_pitch := pitch |} in
  Converter.resultZoom slower = Converter.resultZoom current + 1
  /\ (minZoom <= Converter.resultZoom current ->
      Converter.resultZoom current + 1 <= maxZoom ->
      Converter.calculateZoomForConstantSpeed slower minZoom maxZoom
      = Converter.calculateZoomForConstantSpeed current minZoom maxZoom + 1).
Proof.
  intros Hs current slower.
  assert (E : Converter.resultZoom slower = Converter.resultZoom current + 1).
  { unfold Converter.resultZoom, slower, current; cbv zeta.
    cbn [Converter.speed Converter.lat Converter.current_pitch].
    replace (Converter.initial_speed Converter.initial / (speed / 2))
      with (2 * (Converter.initial_speed Converter.initial / speed))
      by (field; lra).
    rewrite log2_double; [ring |].
    unfold Rdiv; apply Rmult_lt_0_compat; [simpl; lra |].
    now apply Rinv_0_lt_compat. }
  split; [exact E |].
  intros Hmin Hmax; unfold Converter.calculateZoomForConstantSpeed.
  rewrite E, !Rmax_right, !Rmin_right by lra; reflexivity.
Qed.

(** X23, at 5 km/s against 2.5 km/s. *)
Lemma calculateZoomForConstantSpeed_half_speed_example :
  0 < 5
  /\ Converter.resultZoom
       {| Converter.speed := 5 / 2; Converter.lat := 30;
          Converter.current_pitch := 60 |}
     = Converter.resultZoom
         {| Converter.speed := 5; Converter.lat := 30;
            Converter.current_pitch := 60 |} + 1.
Proof.
  split; [lra |].
  exact (proj1 (calculateZoomForConstantSpeed_half_speed 5 30 60 0 22
                  ltac:(lra))).
Defined.

(** X24. For an angle whose cosine is not 0, [safeCos] returns a value of
    the same sign and of absolute value at least 1e-5, and the cosine
    itself when that is already at least 1e-5 in absolute value. *)
Theorem safeCos_guard (rad : R) :
  cos rad <> 0 ->
  1e-5 <= Rabs (Converter.safeCos rad)
  /\ 0 < Converter.safeCos rad * cos rad
  /\ (1e-5 <= Rabs (cos rad) -> Converter.safeCos rad = cos rad).
Proof.
  intros Hc; unfold Converter.safeCos, Converter.sign.
  destruct (JS.ltb (Rabs (cos rad)) 1e-5) eqn:E.
  - apply ltb_true in E.
    destruct (Rlt_dec 0 (cos rad)) as [Hpos | Hnpos].
    + rewrite Rmult_1_l, Rabs_pos_eq by lra.
      repeat split; first [nra | intros; lra].
    + destruct (Rlt_dec (cos rad) 0) as [Hneg | Hnneg]; [| lra].
      replace (-1 * 1e-5) with (- 1e-5) by lra.
      rewrite Rabs_left by lra.
      repeat split; first [nra | intros; lra].
  - apply ltb_false in E.
    split; [exact E |]; split; [nra | reflexivity].
Qed.

(** X24, at 60 degrees. *)
Lemma safeCos_guard_60 :
  cos (Converter.degToRad 60) <> 0
  /\ 0 < Converter.safeCos (Converter.degToRad 60) * cos (Converter.degToRad 60).
Proof.
  assert (Hc : 0 < cos (Converter.degToRad 60)).
  { pose proof PI_RGT_0; apply cos_gt_0; unfold Converter.degToRad; nra. }
  assert (Hne : cos (Converter.degToRad 60) <> 0) by lra.
  split; [exact Hne |].
  exact (proj1 (proj2 (safeCos_guard (Converter.degToRad 60) Hne))).
Defined.

(** ** The path-follow driver: blend, reveal and the stage before it *)

(** X25. Inside the ease window, toward a next bearing other than 0, the
    bearing of the frame is the current bearing at the start of the window
    and stays less than 180 degrees away from it throughout: the turn never
    takes the long way round. *)
Theorem turn_blend_bounded (itv : PathFollow.BearingInterval) (nb phase : R)
    (i : nat) :
  nb <> 0 ->
  PathFollow.lRangeRatio itv <= phase < PathFollow.rRatio itv ->
  exists b,
    PathFollow.turn itv (Some nb) phase i = (i, Some b)
    /\ Rabs (b - PathFollow.bearing itv) < 180
    /\ (phase = PathFollow.lRangeRatio itv -> b = PathFollow.bearing itv).
Proof.
  intros Hnb Hwin.
  rewrite (turn_in_window itv phase i nb Hnb Hwin).
  eexists; split; [reflexivity |].
  destruct (normalizeBearing_spec (PathFollow.bearing itv) nb) as (k & _ & Hrot).
  set (rot := Utils.normalizeBearing (PathFollow.bearing itv) nb) in *.
  set (t := (phase - PathFollow.lRangeRatio itv)
            / (PathFollow.rRatio itv - PathFollow.lRangeRatio itv)).
  assert (Ht : 0 <= t < 1).
  { destruct Hwin as [Hlo Hhi].
    assert (Hlen : 0 < PathFollow.rRatio itv - PathFollow.lRangeRatio itv) by lra.
    unfold t; split.
    - unfold Rdiv; apply Rmult_le_pos; [lra |].
      left; now apply Rinv_0_lt_compat.
    - apply Rmult_lt_reg_r
        with (PathFollow.rRatio itv - PathFollow.lRangeRatio itv);
        [exact Hlen |].
      unfold Rdiv; rewrite Rmult_assoc, Rinv_l; lra. }
  split.
  - replace (PathFollow.bearing itv + rot * t - PathFollow.bearing itv)
      with (rot * t) by ring.
    apply Rabs_def1; nra.
  - intros Hstart; unfold t; rewrite Hstart.
    unfold Rdiv; ring.
Qed.

(** X25, for a turn from 350 to 10 degrees, half way through the window. *)
Lemma turn_blend_bounded_example :
  let itv :=
    {| PathFollow.l := 0; PathFollow.lRatio := 0; PathFollow.r := 1;
       PathFollow.rRatio := 0.5; PathFollow.bearing := 350 |} in
  (10 <> 0 /\ PathFollow.lRangeRatio itv <= 0.45 < PathFollow.rRatio itv)
  /\ exists b,
      PathFollow.turn itv (Some 10) 0.45 1 = (1%nat, Some b)
      /\ Rabs (b - 350) < 180.
Proof.
  intros itv.
  assert (Hnb : 10 <> 0) by lra.
  assert (Hwin : PathFollow.lRangeRatio itv <= 0.45 < PathFollow.rRatio itv).
  { unfold PathFollow.lRangeRatio, PathFollow.ratio; simpl; lra. }
  split; [split; assumption |].
  destruct (turn_blend_bounded itv 10 0.45 1 Hnb Hwin) as (b & Hb & Habs & _).
  exists b; split; assumption.
Defined.

Section PathFollowReveal.
Import PathFollow.
Context {T : Turf}.
Variable c : Config.

(** A rendered frame reveals the line up to its phase, which is at most 1,
    and advances the frame counter by one. *)
Lemma frame_reveal (st st' : State) (e : Emission) :
  frame c st = Rendered e st' ->
  reveal e = animationPhase c (index st)
  /\ animationPhase c (index st) <= 1
  /\ index st' = S (index st).
Proof.
  intros Hf.
  destruct (frame_turn c st st' e Hf) as (itv & _ & _ & Hidx & Hphase).
  split; [| split; assumption].
  revert Hf; unfold frame.
  destruct (JS.gtb (animationPhase c (index st)) 1); [discriminate |].
  destruct (at_pred (bearingList c) (nextBearingIndex st)) as [itv' | msg];
    [| discriminate].
  cbn [bind].
  destruct (at_index (coordinates c) (l itv')) as [a | msg]; [| discriminate].
  destruct (at_index (coordinates c) (r itv')) as [b | msg]; [| discriminate].
  cbn [bind].
  destruct (GreatCircle.projectPointToGreatCircle _ _ _ _ _ _) as [point | msg];
    [| discriminate].
  cbn [bind].
  destruct (turn itv' (nextBearingOf c st) (animationPhase c (index st))
              (nextBearingIndex st)) as [nbi bearing'].
  intros Hr; inversion Hr; reflexivity.
Qed.

Lemma run_reveals (fuel : nat) :
  forall st es out,
    run c fuel st = (es, out) ->
    (length es <= fuel)%nat
    /\ forall k e,
        nth_error es k = Some e ->
        reveal e = animationPhase c (index st + k) /\ reveal e <= 1.
Proof.
  induction fuel as [| fuel IH]; intros st es out Hrun.
  - simpl in Hrun; inversion Hrun; subst; split; [simpl; lia |].
    intros [| k] e He; discriminate.
  - simpl in Hrun.
    destruct (frame c st) as [| e0 st0 | msg] eqn:Hf.
    + inversion Hrun; subst; split; [simpl; lia |].
      intros [| k] e He; discriminate.
    + destruct (run c fuel st0) as [es0 out0] eqn:Hrest.
      inversion Hrun; subst.
      destruct (IH _ _ _ Hrest) as [Hlen Hall].
      destruct (frame_reveal _ _ _ Hf) as (Hr & Hle & Hidx).
      split; [simpl; lia |].
      intros [| k] e He.
      * simpl in He; inversion He; subst e.
        rewrite Nat.add_0_r, Hr; split; [reflexivity | exact Hle].
      * simpl in He; destruct (Hall k e He) as [Hk Hk1].
        rewrite Hidx in Hk.
        replace (index st + S k)%nat with (S (index st) + k)%nat by lia.
        split; assumption.
    + inversion Hrun; subst; split; [simpl; lia |].
      intros [| k] e He; discriminate.
Qed.

End PathFollowReveal.

(** X26. In any run of the path-follow driver the [k]-th rendered frame
    (counting from 0) reveals the line up to [speed * k / (distance * 1000)],
    which is at most 1, and no more frames are rendered than scheduled. *)
Theorem animatePath_reveals {T : Turf} (c : PathFollow.Config) (fuel : nat) :
  let '(es, _) := PathFollow.run c fuel PathFollow.initial in
  (length es <= fuel)%nat
  /\ forall k e,
      nth_error es k = Some e ->
      PathFollow.reveal e
      = PathFollow.speed c * INR k / (turf_length (PathFollow.coordinates c) * 1000)
      /\ PathFollow.reveal e <= 1.
Proof.
  destruct (PathFollow.run c fuel PathFollow.initial) as [es out] eqn:Hrun.
  destruct (run_reveals c fuel _ _ _ Hrun) as [Hlen Hall].
  split; [exact Hlen |].
  intros k e He; destruct (Hall k e He) as [Hk Hle].
  split; [rewrite Hk; reflexivity | exact Hle].
Qed.

(** X27. On the track page the fly-in ends where the path stage begins:
    when the schedule starts with an interval whose ease window opens after
    phase 0, and the driver can project onto it, the fly-in is configured
    to end, and resolves, at the bearing of that interval, at altitude 3000
    and pitch 60, and the first frame of the path stage, rendered with that
    altitude and pitch, emits that same bearing. *)
Theorem trackPage_stage_continuity {T : Turf} (coordinates : list Position)
    (itv : PathFollow.BearingInterval)
    (rest : list PathFollow.BearingInterval) (first a b : Position) :
  nth_error coordinates 0 = Some first ->
  nth_error coordinates (PathFollow.l itv) = Some a ->
  nth_error coordinates (PathFollow.r itv) = Some b ->
  1e-12 <= GreatCircle.nNormSq (snd a) (fst a) (snd b) (fst b) ->
  0 < PathFollow.lRangeRatio itv ->
  0 < PathFollow.rRatio itv ->
  let path := TrackPage.pathConfig coordinates (itv :: rest) in
  exists fly,
    TrackPage.flyInConfig coordinates (itv :: rest) = Ok fly
    /\ FlyIn.endBearing fly = PathFollow.bearing itv
    /\ FlyIn.endAltitude fly = PathFollow.altitude path
    /\ FlyIn.endPitch fly = PathFollow.pitch path
    /\ (forall time st,
           time - FlyIn.startAt (FlyIn.start st) time >= FlyIn.duration fly ->
           exists pose st',
             FlyIn.frame fly time st
             = (pose, st',
                Some {| FlyIn.bearing := PathFollow.bearing itv;
                        FlyIn.altitude := PathFollow.altitude path |}))
    /\ exists e st',
        PathFollow.frame path PathFollow.initial = PathFollow.Rendered e st'
        /\ PathFollow.emitted_bearing e = Some (PathFollow.bearing itv).
Proof.
  intros Hfirst Ha Hb Hn Hwin Hend path.
  unfold TrackPage.flyInConfig, at_index; rewrite Hfirst; cbn [nth_error bind].
  eexists; split; [reflexivity |].
  split; [reflexivity |]; split; [reflexivity |]; split; [reflexivity |].
  split.
  - intros time st Hel.
    match goal with
    | H : _ >= FlyIn.duration ?cfg |- _ =>
        assert (Hd : 0 < FlyIn.duration cfg)
          by (unfold TrackPage.DoubleSpeed; simpl; lra);
        destruct (frame_done cfg Hd time st H)
          as (pose & cache & Hf & Halt & Hbear & _)
    end.
    exists pose; eexists; rewrite Hf.
    cbn in Halt, Hbear; rewrite Halt, Hbear; reflexivity.
  - assert (Hphase : PathFollow.animationPhase path 0 = 0).
    { unfold PathFollow.animationPhase; simpl; unfold Rdiv; ring. }
    destruct (frame_rendered path PathFollow.initial itv a b)
      as (e & Hf & Hbear & _); try assumption.
    + cbn [PathFollow.index PathFollow.initial]; rewrite Hphase; lra.
    + reflexivity.
    + cbn [PathFollow.index PathFollow.initial] in Hf, Hbear.
      rewrite Hphase in Hf, Hbear.
      rewrite turn_before_window in Hf, Hbear by assumption.
      eexists; eexists; split; [exact Hf | exact Hbear].
Qed.

(** X27, on the straight track. *)
Lemma trackPage_stage_continuity_straight :
  let T := Examples.fixedTurf 1 (45, 0) [] in
  let itv :=
    {| PathFollow.l := 0; PathFollow.lRatio := 0; PathFollow.r := 1;
       PathFollow.rRatio := 1; PathFollow.bearing := 90 |} in
  (1e-12 <= GreatCircle.nNormSq 0 0 0 90
   /\ 0 < PathFollow.lRangeRatio itv /\ 0 < PathFollow.rRatio itv)
  /\ exists e st',
      PathFollow.frame (TrackPage.pathConfig [ (0, 0); (90, 0) ] [itv])
        PathFollow.initial
      = PathFollow.Rendered e st'
      /\ PathFollow.emitted_bearing e = Some 90.
Proof.
  intros T itv.
  assert (Hn : 1e-12 <= GreatCircle.nNormSq 0 0 0 90)
    by (rewrite nNormSq_equator; lra).
  assert (Hwin : 0 < PathFollow.lRangeRatio itv).
  { unfold PathFollow.lRangeRatio, PathFollow.ratio; simpl; lra. }
  assert (Hend : 0 < PathFollow.rRatio itv) by (simpl; lra).
  split; [repeat split; assumption |].
  destruct (trackPage_stage_continuity [ (0, 0); (90, 0) ] itv [] (0, 0)
              (0, 0) (90, 0) eq_refl eq_refl eq_refl Hn Hwin Hend)
    as (fly & _ & _ & _ & _ & _ & He).
  exact He.
Defined.

(** ** The bearing scheduler: the schedule it returns and its edge cases *)

(** X28. When the simplified line is its first vertex followed by vertices
    selected in order from a track that is not empty, and [initData]
    returns, the schedule is contiguous, starts at index 0 and ends at the
    last index of the track; its first start ratio is 0 and its last end
    ratio is 1 as soon as the geometry library measures the empty slice as
    0 and the slice up to the last coordinate as the whole track. *)
Theorem initData_schedule_shape {T : Turf} (track : list Position)
    (intervals : list PathFollow.BearingInterval) :
  track <> [] ->
  Scheduler.selection (skipn 1 (Scheduler.simplified track)) track ->
  Scheduler.initData track = Ok intervals ->
  Scheduler.contiguous intervals
  /\ exists a rest init z,
      intervals = a :: rest
      /\ intervals = init ++ [z]
      /\ PathFollow.l a = 0%nat
      /\ PathFollow.r z = (length track - 1)%nat
      /\ (forall first,
             nth_error track 0 = Some first ->
             turf_length (turf_lineSlice first first track) = 0 ->
             PathFollow.lRatio a = 0)
      /\ (forall first final,
             nth_error track 0 = Some first ->
             nth_error track (length track - 1) = Some final ->
             turf_length (turf_lineSlice first final track) = turf_length track ->
             turf_length track <> 0 ->
             PathFollow.rRatio z = 1).
Proof.
  intros Hne Hsel Hi.
  split; [exact (initData_contiguous track intervals Hi) |].
  destruct (initData_last track intervals Hne Hsel Hi)
    as (init & z & Hz & Hr & _ & Hone).
  destruct intervals as [| a rest].
  { destruct init; discriminate. }
  destruct (initData_first track a rest Hi) as (Hl & _ & Hzero).
  exists a, rest, init, z.
  split; [reflexivity |]; split; [exact Hz |].
  split; [exact Hl |]; split; [exact Hr |]; split; assumption.
Qed.

(** On a two-point track kept whole by the simplification, [initData]
    returns. *)
Lemma initData_two_points {T : Turf} :
  turf_simplify [ (0, 0); (1, 0) ] Scheduler.tolerance = [ (0, 0); (1, 0) ] ->
  exists intervals, Scheduler.initData [ (0, 0); (1, 0) ] = Ok intervals.
Proof.
  intros Hsimp; unfold Scheduler.initData.
  cbn [Scheduler.forEach].
  unfold Scheduler.visit at 1, Scheduler.simplified; rewrite Hsimp.
  cbn [at_index nth_error Scheduler.simplifiedIndex bind].
  assert (E01 : JS.eqb 0 1 = false) by (apply eqb_false; lra).
  rewrite E01; cbn [andb bind].
  unfold Scheduler.visit, Scheduler.simplified; rewrite Hsimp.
  cbn [at_index at_pred nth_error Scheduler.simplifiedIndex
         Scheduler.lastIndex bind].
  rewrite !eqb_refl; cbn [andb].
  unfold Utils.getLineRatio; cbn [at_index at_pred nth_error bind].
  eexists; reflexivity.
Qed.

(** X28, on a two-point track. *)
Lemma initData_schedule_shape_two_points :
  let T := Examples.fixedTurf 111 (0, 0) [ (0, 0); (1, 0) ] in
  ([ (0, 0); (1, 0) ] <> []
   /\ Scheduler.selection (skipn 1 (Scheduler.simplified [ (0, 0); (1, 0) ]))
        [ (0, 0); (1, 0) ])
  /\ exists intervals,
      Scheduler.initData [ (0, 0); (1, 0) ] = Ok intervals
      /\ Scheduler.contiguous intervals.
Proof.
  intros T.
  assert (Hne : [ (0, 0); (1, 0) ] <> ([] : list Position)) by discriminate.
  assert (Hsel : Scheduler.selection
                   (skipn 1 (Scheduler.simplified [ (0, 0); (1, 0) ]))
                   [ (0, 0); (1, 0) ]).
  { apply Scheduler.selection_drop, Scheduler.selection_keep,
      Scheduler.selection_nil. }
  split; [split; assumption |].
  destruct (initData_two_points (T := T) eq_refl) as [intervals Hi].
  exists intervals; split; [exact Hi |].
  exact (proj1 (initData_schedule_shape _ intervals Hne Hsel Hi)).
Defined.

(** X29. When the simplification returns fewer than two vertices,
    [initData] throws at the first coordinate of the track; on an empty
    track the loop body never runs and the schedule it returns is empty
    (the calls of the geometry library taken to return). *)
Theorem initData_too_few_vertices {T : Turf} (track : list Position) :
  (length (Scheduler.simplified track) < 2)%nat ->
  Scheduler.initData track
  = match track with
    | [] => Ok []
    | _ :: _ => Throw "TypeError: undefined value"
    end.
Proof.
  intros Hlen; unfold Scheduler.initData.
  destruct track as [| x xs]; [reflexivity |].
  cbn [Scheduler.forEach].
  rewrite (visit_past_end (x :: xs)) by (cbn [Scheduler.simplifiedIndex]; lia).
  reflexivity.
Qed.

(** X29, with a simplification that keeps one vertex. *)
Lemma initData_too_few_vertices_one :
  let T := Examples.fixedTurf 111 (0, 0) [ (0, 0) ] in
  Nat.lt (length (Scheduler.simplified [ (0, 0); (1, 0) ])) 2%nat
  /\ Scheduler.initData [ (0, 0); (1, 0) ] = Throw "TypeError: undefined value".
Proof.
  intros T.
  assert (Hlen : Nat.lt (length (Scheduler.simplified [ (0, 0); (1, 0) ])) 2%nat)
    by (simpl; lia).
  split; [exact Hlen |].
  exact (initData_too_few_vertices [ (0, 0); (1, 0) ] Hlen).
Defined.

(** ** The path driver on index ratios: the end of the schedule *)

(** X30. In the driver on index ratios, when the cursor is on the last
    interval of the schedule, the phase of a frame has reached that
    interval's end index divided by the number of coordinates, and the
    phase of the next frame is still at most 1, the first of the two frames
    is rendered with an [undefined] bearing and [NaN] camera coordinates,
    and the second throws: nothing more is scheduled and the promise never
    resolves. *)
Theorem indexedPath_runs_off_schedule {T : Turf} (c : IndexedPath.Config)
    (st : IndexedPath.State) (itv : IndexedPath.Interval) :
  IndexedPath.nextBearingIndex st = length (IndexedPath.bearingList c) ->
  at_pred (IndexedPath.bearingList c) (IndexedPath.nextBearingIndex st) = Ok itv ->
  INR (IndexedPath.r itv) / INR (length (IndexedPath.coordinates c))
  <= IndexedPath.animationPhase c (IndexedPath.index st) ->
  IndexedPath.animationPhase c (S (IndexedPath.index st)) <= 1 ->
  IndexedPath.animationPhase c (IndexedPath.index st) <= 1 ->
  exists e,
    IndexedPath.run c 2 st
    = ([e], Some (IndexedPath.Raised "TypeError: undefined value"))
    /\ IndexedPath.emitted_bearing e = None
    /\ IndexedPath.correctedPosition e = None.
Proof.
  intros Hlast Hitv Hend Hnext Hphase.
  assert (Hnone : nth_error (IndexedPath.bearingList c)
                    (IndexedPath.nextBearingIndex st) = None).
  { apply nth_error_None; lia. }
  assert (Hf : exists e st',
             IndexedPath.frame c st = IndexedPath.Rendered e st'
             /\ IndexedPath.emitted_bearing e = None
             /\ IndexedPath.correctedPosition e = None
             /\ IndexedPath.index st' = S (IndexedPath.index st)
             /\ IndexedPath.nextBearingIndex st'
                = S (length (IndexedPath.bearingList c))).
  { unfold IndexedPath.frame.
    apply gtb_false in Hphase; rewrite Hphase, Hitv, Hnone.
    unfold IndexedPath.turn.
    apply leb_true in Hend; rewrite Hend.
    cbn [option_map IndexedPath.smoothedPosition].
    eexists; eexists; split; [reflexivity |].
    cbn; repeat split; now rewrite Hlast. }
  destruct Hf as (e & st' & Hf & Hb & Hp & Hidx & Hnbi).
  assert (Hf' : IndexedPath.frame c st'
                = IndexedPath.Raised "TypeError: undefined value").
  { unfold IndexedPath.frame; rewrite Hidx.
    apply gtb_false in Hnext; rewrite Hnext, Hnbi.
    unfold at_pred, at_index.
    assert (Hn : nth_error (IndexedPath.bearingList c)
                   (length (IndexedPath.bearingList c)) = None)
      by (apply nth_error_None; lia).
    now rewrite Hn. }
  exists e; split; [| split; assumption].
  change (IndexedPath.run c 2 st)
    with (match IndexedPath.frame c st with
          | IndexedPath.Resolved => ([], Some IndexedPath.Resolved)
          | IndexedPath.Raised msg => ([], Some (IndexedPath.Raised msg))
          | IndexedPath.Rendered e0 st0 =>
              let '(es, out) := IndexedPath.run c 1 st0 in (e0 :: es, out)
          end).
  rewrite Hf; simpl; now rewrite Hf'.
Qed.

(** X30, on a two-point track of one kilometre at 100 metres per frame:
    the only interval ends at index 1 of 2 coordinates, so the frames with
    counters 5 and 6, at phases 0.5 and 0.6, run off the schedule. *)
Lemma indexedPath_runs_off_schedule_example :
  let T := Examples.fixedTurf 1 (45, 0) [] in
  let c :=
    {| IndexedPath.altitude := 3000; IndexedPath.pitch := 60;
       IndexedPath.bearingList :=
         [ {| IndexedPath.l := 0; IndexedPath.r := 1;
              IndexedPath.bearing := 90 |} ];
       IndexedPath.coordinates := [ (0, 0); (90, 0) ];
       IndexedPath.speed := 100 |} in
  let st :=
    {| IndexedPath.index := 5; IndexedPath.nextBearingIndex := 1;
       IndexedPath.previousCameraPosition := None |} in
  (INR 1 / INR 2 <= IndexedPath.animationPhase c 5
   /\ IndexedPath.animationPhase c 6 <= 1)
  /\ exists e,
      IndexedPath.run c 2 st
      = ([e], Some (IndexedPath.Raised "TypeError: undefined value"))
      /\ IndexedPath.emitted_bearing e = None.
Proof.
  intros T c st.
  assert (H5 : IndexedPath.animationPhase c 5 = 0.5).
  { unfold IndexedPath.animationPhase, IndexedPath.distance; simpl; lra. }
  assert (H6 : IndexedPath.animationPhase c 6 = 0.6).
  { unfold IndexedPath.animationPhase, IndexedPath.distance; simpl; lra. }
  assert (Hend : INR 1 / INR 2 <= IndexedPath.animationPhase c 5).
  { rewrite H5; simpl; lra. }
  assert (Hnext : IndexedPath.animationPhase c 6 <= 1) by (rewrite H6; lra).
  split; [split; assumption |].
  destruct (indexedPath_runs_off_schedule c st
              {| IndexedPath.l := 0; IndexedPath.r := 1;
                 IndexedPath.bearing := 90 |}
              eq_refl eq_refl Hend Hnext ltac:(simpl; rewrite H5; lra))
    as (e & Hrun & Hb & _).
  exists e; split; assumption.
Defined.
